(** * ScraptPress: coordination engine

    A shallow embedding of the lock service, the retry orchestrator, the
    admission (job-queue security) service, the page repository, the worker
    and the search controller, followed by the properties established about
    them.

    JavaScript strings are modelled as byte strings, numbers that the code
    uses as integers (timestamps in milliseconds, pages, limits, counters) as
    [Z], objects with an open set of fields as finite maps from field names
    to values, and the process-wide singletons as fields of one [World]
    record that every operation threads through a state-and-exception
    monad.

    Conventions of the model:
    - every [Date.now()] of the source is a [date_now]; the clock advances
      only while the caller sleeps or the fetcher runs;
    - a command sent to Redis, Firestore or the queue broker is atomic and
      either takes effect or throws, as the fault plan of the world says;
    - other requests run while the caller is suspended (in a sleep or in the
      fetcher): the environment of the world then transforms the stores;
    - work that the source starts without awaiting it and that only acts
      later (the prefetch of the next page, the sync of the vehicles into
      their own collection) is recorded as an event; a cache write started
      without awaiting it is issued at once;
    - log output is not modelled, except for the status line of
      [updateJobStatus], which is the event [EvJobStatus]; the events
      [EvIncrement] and [EvDecrement] mark the calls of the two counter
      methods. *)

From Stdlib Require Import ZArith Lia List String Ascii Bool.
From stdpp Require Import base option gmap strings list pretty sorting.

Local Open Scope Z_scope.

(* ===================================================================== *)
(** * JavaScript strings *)
(* ===================================================================== *)

Module JsString.

(** [String.prototype.toLowerCase] on the ASCII range. *)
Definition lower_char (c : ascii) : ascii :=
  let n := nat_of_ascii c in
  if (Nat.leb 65 n && Nat.leb n 90)%bool then ascii_of_nat (n + 32) else c.

Fixpoint toLowerCase (s : string) : string :=
  match s with
  | EmptyString => EmptyString
  | String c s' => String (lower_char c) (toLowerCase s')
  end.

(** White space as matched by [trim] and by the regular expression [\s],
    on the ASCII range: tab, line feed, vertical tab, form feed, carriage
    return and space. *)
Definition is_space (c : ascii) : bool := Ascii.is_space c.

Fixpoint trimStart (s : string) : string :=
  match s with
  | EmptyString => EmptyString
  | String c s' => if is_space c then trimStart s' else s
  end.

Definition trimEnd (s : string) : string :=
  String.rev (trimStart (String.rev s)).

Definition trim (s : string) : string := trimEnd (trimStart s).

(** [s.startsWith(p)] *)
Fixpoint startsWith (p s : string) : bool :=
  match p, s with
  | EmptyString, _ => true
  | String _ _, EmptyString => false
  | String a p', String b s' => if decide (a = b) then startsWith p' s' else false
  end.

(** [s.includes(p)] *)
Fixpoint includes (p s : string) : bool :=
  if startsWith p s then true
  else match s with
       | EmptyString => false
       | String _ s' => includes p s'
       end.

Fixpoint forallb (f : ascii -> bool) (s : string) : bool :=
  match s with
  | EmptyString => true
  | String c s' => f c && forallb f s'
  end.

Definition is_digit (c : ascii) : bool :=
  let n := nat_of_ascii c in (Nat.leb 48 n && Nat.leb n 57)%bool.

Definition is_alpha (c : ascii) : bool :=
  let n := nat_of_ascii c in
  ((Nat.leb 65 n && Nat.leb n 90) || (Nat.leb 97 n && Nat.leb n 122))%bool.

(** [s.replace(/\s+/g, ' ')]: every maximal run of white space becomes one
    space. *)
Fixpoint collapse_go (in_run : bool) (s : string) : string :=
  match s with
  | EmptyString => EmptyString
  | String c s' =>
      if is_space c
      then (if in_run then collapse_go true s'
            else String " "%char (collapse_go true s'))
      else String c (collapse_go false s')
  end.

Definition collapseSpaces (s : string) : string := collapse_go false s.

Definition length (s : string) : Z := Z.of_nat (String.length s).

End JsString.

(* ===================================================================== *)
(** * Values, records and stores *)
(* ===================================================================== *)

(** Scalar field values of the objects the code passes around. *)
Inductive Value :=
| VNull
| VBool (b : bool)
| VNum (n : Z)
| VStr (s : string).

#[global] Instance Value_eq_dec : EqDecision Value.
Proof. solve_decision. Defined.

(** A [BatchVehicle] has an open index signature: an object from field names
    to values. *)
Abbreviation Vehicle := (gmap string Value).

(** [LockInfo] of the lock service. *)
Record LockInfo := mkLockInfo {
  li_query : string;
  li_page : Z;
  li_limit : Z;
  startTime : Z;
  lockId : string;
}.

#[global] Instance LockInfo_eq_dec : EqDecision LockInfo.
Proof. solve_decision. Defined.

(** [PageMetadata] and [PageDocument] of the page repository.  [pm_createdAt]
    is the server-timestamp sentinel, resolved by the store to its own clock;
    the model resolves it to the host clock at the write. *)
Record PageMetadata := mkPageMetadata {
  pm_page : Z;
  pm_limit : Z;
  pm_size : Z;
  pm_query : string;
  pm_createdAt : Z;
  pm_expiresAt : Z;
  pm_source : string;
  pm_scrapeDuration : Z;
}.

Record PageDocument := mkPageDocument {
  pd_metadata : PageMetadata;
  pd_vehicles : list Vehicle;
}.

(** The metadata document [searches/{query}]. *)
Record SearchMeta := mkSearchMeta {
  sm_query : string;
  sm_lastUpdated : Z;
  sm_searchCount : Z;
  sm_createdAt : Z;
}.

(** A value of the Redis key space after [JSON.parse]: the counters are
    numbers, the cached search results arrays of vehicles.  The second
    component of a cell is the TTL in seconds given to [setEx]; expiry itself
    is the server's business and belongs to the environment. *)
Inductive RedisVal :=
| RNum (n : Z)
| RVehicles (vs : list Vehicle).

(** The payload of a [SCRAPE_COPART] queue message. *)
Inductive Priority := high | normal | low.

Record ScrapeJobData := mkJobData {
  jd_batchId : string;
  jd_query : string;
  jd_page : Z;
  jd_limit : Z;
  jd_clientIp : option string;
  jd_apiKey : option string;
  jd_priority : Priority;
}.

(** A queue message with the options [JobQueueManager.addJob] gives it. *)
Record QueuedJob := mkQueuedJob {
  qj_data : ScrapeJobData;
  qj_attempts : Z;
  qj_backoffDelay : Z;
  qj_removeOnComplete : bool;
  qj_delay : Z;
}.

(** Everything other requests of the process (and other processes, through the
    shared stores) can read and write. *)
Record Stores := mkStores {
  st_locks : gmap string LockInfo;            (* ScrapingLockService.locks *)
  st_redis_up : bool;                         (* CacheService: connected client *)
  st_redis : gmap string (RedisVal * Z);      (* Redis key space *)
  st_pages : gmap (string * string) PageDocument; (* searches/{q}/cache/{p}-{l} *)
  st_searches : gmap string SearchMeta;       (* searches/{q} *)
  st_jobs : gmap string (gmap string Value);  (* jobs/{batchId} *)
  st_queue : list QueuedJob;                  (* Bull queue SCRAPE_COPART *)
}.

(** What the external fetcher ([platform.scrape]) does on one call: how long
    it runs and whether it returns vehicles or throws. *)
Record ScrapeOutcome := mkScrape {
  so_duration : Z;
  so_result : string + list Vehicle;   (* inl message = throws *)
}.

(** Observable actions, recorded in order (most recent first). *)
Inductive Event :=
| EvSleep (ms : Z)
| EvIncrement (identifier : string)
| EvDecrement (identifier : string)
| EvPrefetch (query : string) (page limit : Z)
| EvSyncVehicles (n : nat)
| EvScrape (query : string) (page limit : Z)
| EvJobStatus (batchId : string) (status : string).

#[global] Instance Event_eq_dec : EqDecision Event.
Proof. solve_decision. Defined.

(** The world of one Node.js process.

    - [w_now] is the host clock ([Date.now()], milliseconds).  It advances
      when the caller sleeps and while the fetcher runs; store commands and
      synchronous code take no time.
    - [w_rng] are the strings successive calls of
      [Math.random().toString(36).substring(7)] produce; the empty string is
      one of the possible results and is also what an exhausted list gives.
    - [w_env] is what the rest of the system does to the stores while this
      caller is suspended in a sleep or in the fetcher; [w_tick] counts these
      suspensions.
    - [w_redis_faults], [w_fs_faults], [w_queue_faults]: whether the next
      command sent to Redis, Firestore or the queue broker throws ([true]);
      an exhausted list means no further fault.
    - [w_scrapes]: the outcomes of the next calls of the fetcher; an
      exhausted list means the fetcher throws.
    - [w_trace]: the events so far, most recent first. *)
Record World := mkWorld {
  w_st : Stores;
  w_now : Z;
  w_rng : list string;
  w_env : nat -> Stores -> Stores;
  w_tick : nat;
  w_redis_faults : list bool;
  w_fs_faults : list bool;
  w_queue_faults : list bool;
  w_scrapes : list ScrapeOutcome;
  w_trace : list Event;
}.

Definition set_st (f : Stores -> Stores) (w : World) : World :=
  mkWorld (f (w_st w)) (w_now w) (w_rng w) (w_env w) (w_tick w)
          (w_redis_faults w) (w_fs_faults w) (w_queue_faults w)
          (w_scrapes w) (w_trace w).

Definition set_locks (f : gmap string LockInfo -> gmap string LockInfo)
    (s : Stores) : Stores :=
  mkStores (f (st_locks s)) (st_redis_up s) (st_redis s) (st_pages s)
           (st_searches s) (st_jobs s) (st_queue s).

Definition set_redis (f : gmap string (RedisVal * Z) -> gmap string (RedisVal * Z))
    (s : Stores) : Stores :=
  mkStores (st_locks s) (st_redis_up s) (f (st_redis s)) (st_pages s)
           (st_searches s) (st_jobs s) (st_queue s).

Definition set_pages
    (f : gmap (string * string) PageDocument -> gmap (string * string) PageDocument)
    (s : Stores) : Stores :=
  mkStores (st_locks s) (st_redis_up s) (st_redis s) (f (st_pages s))
           (st_searches s) (st_jobs s) (st_queue s).

Definition set_searches (f : gmap string SearchMeta -> gmap string SearchMeta)
    (s : Stores) : Stores :=
  mkStores (st_locks s) (st_redis_up s) (st_redis s) (st_pages s)
           (f (st_searches s)) (st_jobs s) (st_queue s).

Definition set_jobs
    (f : gmap string (gmap string Value) -> gmap string (gmap string Value))
    (s : Stores) : Stores :=
  mkStores (st_locks s) (st_redis_up s) (st_redis s) (st_pages s)
           (st_searches s) (f (st_jobs s)) (st_queue s).

Definition set_queue (f : list QueuedJob -> list QueuedJob) (s : Stores) : Stores :=
  mkStores (st_locks s) (st_redis_up s) (st_redis s) (st_pages s)
           (st_searches s) (st_jobs s) (f (st_queue s)).

(* ===================================================================== *)
(** * The state-and-exception monad *)
(* ===================================================================== *)

(** A computation returns a value, throws an [Error] with a message, or, for
    the loops that are run on fuel, is cut off before it ends ([Diverged]);
    in every case it leaves a world behind. *)
Inductive Outcome (A : Type) :=
| Ok (a : A)
| Throw (message : string)
| Diverged.
Arguments Ok {A} a.
Arguments Throw {A} message.
Arguments Diverged {A}.

Definition M (A : Type) : Type := World -> Outcome A * World.

Definition ret {A} (a : A) : M A := fun w => (Ok a, w).

Definition throw {A} (message : string) : M A := fun w => (Throw message, w).

Definition diverge {A} : M A := fun w => (Diverged, w).

Definition bind {A B} (m : M A) (k : A -> M B) : M B :=
  fun w =>
    match m w with
    | (Ok a, w') => k a w'
    | (Throw e, w') => (Throw e, w')
    | (Diverged, w') => (Diverged, w')
    end.

(** [try { m } catch (error) { handler error }] *)
Definition try_catch {A} (m : M A) (handler : string -> M A) : M A :=
  fun w =>
    match m w with
    | (Ok a, w') => (Ok a, w')
    | (Throw e, w') => handler e w'
    | (Diverged, w') => (Diverged, w')
    end.

(** [try { m } finally { fin }]: [fin] runs on both exits; if it throws, its
    exception replaces the outcome of [m]. *)
Definition try_finally {A} (m : M A) (fin : M unit) : M A :=
  fun w =>
    match m w with
    | (Diverged, w') => (Diverged, w')
    | (r, w') =>
        match fin w' with
        | (Ok _, w'') => (r, w'')
        | (Throw e, w'') => (Throw e, w'')
        | (Diverged, w'') => (Diverged, w'')
        end
    end.

Declare Scope m_scope.
Delimit Scope m_scope with M.
Notation "x <- c1 ;; c2" := (bind c1 (fun x => c2))
  (at level 100, c1 at next level, right associativity) : m_scope.
Notation "c1 ;; c2" := (bind c1 (fun _ => c2))
  (at level 100, right associativity) : m_scope.
Local Open Scope m_scope.

Definition get_world : M World := fun w => (Ok w, w).
Definition gets {A} (f : World -> A) : M A := fun w => (Ok (f w), w).
Definition modify (f : World -> World) : M unit := fun w => (Ok tt, f w).
Definition modify_st (f : Stores -> Stores) : M unit := modify (set_st f).

(** [Date.now()] *)
Definition date_now : M Z := gets w_now.

(** [Math.random().toString(36).substring(7)] *)
Definition random_suffix : M string :=
  fun w =>
    match w_rng w with
    | [] => (Ok EmptyString, w)
    | r :: rs =>
        (Ok r, mkWorld (w_st w) (w_now w) rs (w_env w) (w_tick w)
                 (w_redis_faults w) (w_fs_faults w) (w_queue_faults w)
                 (w_scrapes w) (w_trace w))
    end.

Definition emit (e : Event) : M unit :=
  modify (fun w =>
    mkWorld (w_st w) (w_now w) (w_rng w) (w_env w) (w_tick w)
            (w_redis_faults w) (w_fs_faults w) (w_queue_faults w)
            (w_scrapes w) (e :: w_trace w)).

(** The caller is suspended for [ms] milliseconds of host time (a negative
    delay counts as none) while the rest of the system runs. *)
Definition suspend (ms : Z) : M unit :=
  modify (fun w =>
    mkWorld (w_env w (w_tick w) (w_st w)) (w_now w + Z.max 0 ms) (w_rng w)
            (w_env w) (S (w_tick w))
            (w_redis_faults w) (w_fs_faults w) (w_queue_faults w)
            (w_scrapes w) (w_trace w)).

(** [await new Promise((resolve) => setTimeout(resolve, ms))] *)
Definition sleep (ms : Z) : M unit := emit (EvSleep ms) ;; suspend ms.

(* ===================================================================== *)
(** * ScrapingLockService *)
(* ===================================================================== *)

(** [src/services/queue/scraping-lock.service.ts]: in-memory locks, one per
    query, page and limit. *)

Module ScrapingLockService.

(** 15 minutes *)
Definition LOCK_TIMEOUT_MS : Z := 15 * 60 * 1000.

Definition getLockKey (query : string) (page limit : Z) : string :=
  JsString.trim (JsString.toLowerCase query)
    +:+ ":page:" +:+ pretty page +:+ ":limit:" +:+ pretty limit.

Definition locks_get (lockKey : string) : M (option LockInfo) :=
  gets (fun w => st_locks (w_st w) !! lockKey).

Definition locks_delete (lockKey : string) : M unit :=
  modify_st (set_locks (delete lockKey)).

Definition locks_set (lockKey : string) (info : LockInfo) : M unit :=
  modify_st (set_locks (<[lockKey := info]>)).

(** Returns the lock id if successful, [None] if already locked. *)
Definition acquireLock (query : string) (page limit : Z) : M (option string) :=
  let lockKey := getLockKey query page limit in
  existingLock <- locks_get lockKey ;;
  held <-
    match existingLock with
    | Some existing =>
        now <- date_now ;;
        let elapsed := now - startTime existing in
        if decide (elapsed > LOCK_TIMEOUT_MS)
        then locks_delete lockKey ;; ret false
        else ret true
    | None => ret false
    end ;;
  if held : bool then ret None
  else
    now1 <- date_now ;;
    rnd <- random_suffix ;;
    let lockId := pretty now1 +:+ "-" +:+ rnd in
    now2 <- date_now ;;
    locks_set lockKey (mkLockInfo query page limit now2 lockId) ;;
    ret (Some lockId).

Definition releaseLock (query : string) (page limit : Z) (lockId' : string)
    : M bool :=
  let lockKey := getLockKey query page limit in
  existingLock <- locks_get lockKey ;;
  match existingLock with
  | None => ret false
  | Some existing =>
      if decide (lockId existing <> lockId') then ret false
      else
        locks_delete lockKey ;;
        _duration <- date_now ;;
        ret true
  end.

Definition isLocked (query : string) (page limit : Z) : M bool :=
  let lockKey := getLockKey query page limit in
  lock <- locks_get lockKey ;;
  match lock with
  | None => ret false
  | Some l =>
      now <- date_now ;;
      let elapsed := now - startTime l in
      if decide (elapsed > LOCK_TIMEOUT_MS)
      then locks_delete lockKey ;; ret false
      else ret true
  end.

(** The polling loop of [waitForLock], [fuel] iterations at most. *)
Fixpoint waitForLock_loop (fuel : nat) (query : string) (page limit : Z)
    (startWait maxWaitMs : Z) : M bool :=
  match fuel with
  | O => diverge
  | S fuel' =>
      locked <- isLocked query page limit ;;
      if locked : bool then
        now <- date_now ;;
        let elapsed := now - startWait in
        if decide (elapsed >= maxWaitMs) then ret false
        else
          sleep 2000 ;;
          waitForLock_loop fuel' query page limit startWait maxWaitMs
      else
        _totalWait <- date_now ;;
        ret true
  end.

(** Every iteration that goes on sleeps two seconds, so
    [maxWaitMs / 2000 + 2] iterations always suffice. *)
Definition waitForLock_fuel (maxWaitMs : Z) : nat :=
  Z.to_nat (maxWaitMs / 2000) + 2.

Definition waitForLock (query : string) (page limit : Z) (maxWaitMs : Z)
    : M bool :=
  startWait <- date_now ;;
  waitForLock_loop (waitForLock_fuel maxWaitMs) query page limit
    startWait maxWaitMs.

Definition getLockInfo (query : string) (page limit : Z) : M (option LockInfo) :=
  locks_get (getLockKey query page limit).

Definition getAllLocks : M (list LockInfo) :=
  gets (fun w => (map_to_list (st_locks (w_st w))).*2).

Definition clearAllLocks : M unit := modify_st (set_locks (fun _ => ∅)).

(** Deletes every lock older than the timeout; returns how many. *)
Definition cleanupExpiredLocks : M Z :=
  now <- date_now ;;
  m <- gets (fun w => st_locks (w_st w)) ;;
  let expired (l : LockInfo) : bool :=
    bool_decide (now - startTime l > LOCK_TIMEOUT_MS) in
  let cleaned := size (filter (fun kv => expired kv.2 = true) m) in
  modify_st (set_locks (filter (fun kv => expired kv.2 = false))) ;;
  ret (Z.of_nat cleaned).

End ScrapingLockService.

(* ===================================================================== *)
(** * RetryOrchestrator *)
(* ===================================================================== *)

(** [RetryOrchestrator] of the Copart platform services: retries with
    exponential backoff.  Errors are modelled by their message. *)

Module RetryOrchestrator.

Record RetryOptions := mkRetryOptions {
  maxAttempts : Z;
  initialDelay : Z;
  maxDelay : Z;
  backoffMultiplier : Z;
  onRetry : option (Z -> string -> M unit);
}.

(** [Partial<RetryOptions>] *)
Record PartialRetryOptions := mkPartial {
  p_maxAttempts : option Z;
  p_initialDelay : option Z;
  p_maxDelay : option Z;
  p_backoffMultiplier : option Z;
  p_onRetry : option (Z -> string -> M unit);
}.

Record RetryResult (T : Type) := mkRetryResult {
  success : bool;
  data : option T;
  error : option string;
  attempts : Z;
  totalDuration : Z;
}.
Arguments mkRetryResult {T}.
Arguments success {T}.
Arguments data {T}.
Arguments error {T}.
Arguments attempts {T}.
Arguments totalDuration {T}.

Definition defaultOptions : RetryOptions :=
  mkRetryOptions 3 1000 10000 2 None.

(** [{ ...this.defaultOptions, ...options }] *)
Definition mergeOptions (options : PartialRetryOptions) : RetryOptions :=
  mkRetryOptions
    (default (maxAttempts defaultOptions) (p_maxAttempts options))
    (default (initialDelay defaultOptions) (p_initialDelay options))
    (default (maxDelay defaultOptions) (p_maxDelay options))
    (default (backoffMultiplier defaultOptions) (p_backoffMultiplier options))
    (p_onRetry options).

(** Exponential backoff delay.  The options are integers here; the powers
    are exact as long as they stay below 2^53, and beyond that the minimum
    with [maxDelay] is [maxDelay] either way. *)
Definition calculateDelay (attempt : Z) (options : RetryOptions) : Z :=
  let delay := initialDelay options * backoffMultiplier options ^ (attempt - 1) in
  Z.min delay (maxDelay options).

(** The [for] loop from [attempt] on, with [remaining] iterations to go
    ([attempt <= opts.maxAttempts] holds for exactly that many). *)
Fixpoint attempts_from {T} (remaining : nat) (attempt : Z) (fn : M T)
    (opts : RetryOptions) (startTime : Z) (lastError : option string)
    : M (RetryResult T) :=
  match remaining with
  | O =>
      now <- date_now ;;
      let totalDuration := now - startTime in
      ret (mkRetryResult false None lastError (maxAttempts opts) totalDuration)
  | S remaining' =>
      outcome <-
        try_catch
          (data <- fn ;;
           now <- date_now ;;
           let totalDuration := now - startTime in
           ret (inl (mkRetryResult true (Some data) None attempt totalDuration)))
          (fun error =>
             (if decide (attempt < maxAttempts opts) then
                let delay := calculateDelay attempt opts in
                match onRetry opts with
                | Some hook => hook attempt error
                | None => ret tt
                end ;;
                sleep delay
              else ret tt) ;;
             ret (inr error)) ;;
      match outcome with
      | inl result => ret result
      | inr error =>
          attempts_from remaining' (attempt + 1) fn opts startTime (Some error)
      end
  end.

Definition executeWithRetry {T} (fn : M T) (options : PartialRetryOptions)
    : M (RetryResult T) :=
  let opts := mergeOptions options in
  startTime <- date_now ;;
  attempts_from (Z.to_nat (maxAttempts opts)) 1 fn opts startTime None.

Definition executeWithRecovery {T} (fn : M T)
    (recoveryFn : option (Z -> M unit)) (options : PartialRetryOptions)
    : M (RetryResult T) :=
  executeWithRetry fn
    (mkPartial (p_maxAttempts options) (p_initialDelay options)
               (p_maxDelay options) (p_backoffMultiplier options)
               (option_map (fun f attempt (_ : string) => f attempt) recoveryFn)).

(** The [for] loop of [executeStrategies] from index [i] on: the
    strategies still to try, in order. *)
Fixpoint strategies_from {T} (strategies : list (M T)) (i : Z) (count : Z)
    (startTime : Z) (lastError : option string) : M (RetryResult T) :=
  match strategies with
  | [] =>
      now <- date_now ;;
      let totalDuration := now - startTime in
      ret (mkRetryResult false None lastError count totalDuration)
  | strategy :: rest =>
      outcome <-
        try_catch
          (data <- strategy ;;
           now <- date_now ;;
           let totalDuration := now - startTime in
           ret (inl (mkRetryResult true (Some data) None (i + 1) totalDuration)))
          (fun error => ret (inr error)) ;;
      match outcome with
      | inl result => ret result
      | inr error => strategies_from rest (i + 1) count startTime (Some error)
      end
  end.

(** Execute multiple strategies in sequence until one succeeds.  The
    names are only logged. *)
Definition executeStrategies {T} (strategies : list (M T))
    (strategyNames : option (list string)) : M (RetryResult T) :=
  startTime <- date_now ;;
  strategies_from strategies 0 (Z.of_nat (length strategies)) startTime None.

End RetryOrchestrator.

(* ===================================================================== *)
(** * CacheService (Redis) *)
(* ===================================================================== *)

(** [src/services/cache.service.ts]: the singleton around the Redis client.
    [st_redis_up] stands for [this.isConnected && this.client]. *)

Module CacheService.

(** Whether the next command sent to the Redis client throws. *)
Definition next_fault : M bool :=
  fun w =>
    match w_redis_faults w with
    | [] => (Ok false, w)
    | b :: rest =>
        (Ok b, mkWorld (w_st w) (w_now w) (w_rng w) (w_env w) (w_tick w)
                 rest (w_fs_faults w) (w_queue_faults w)
                 (w_scrapes w) (w_trace w))
    end.

(** [client.get(key)] followed by [JSON.parse]. *)
Definition client_get (key : string) : M (option RedisVal) :=
  fault <- next_fault ;;
  if fault : bool then throw "Redis command failed"
  else gets (fun w => fst <$> st_redis (w_st w) !! key).

(** [client.setEx(key, ttlSeconds, JSON.stringify(value))] *)
Definition client_setEx (key : string) (ttlSeconds : Z) (value : RedisVal)
    : M unit :=
  fault <- next_fault ;;
  if fault : bool then throw "Redis command failed"
  else modify_st (set_redis (<[key := (value, ttlSeconds)]>)).

Definition connected : M bool := gets (fun w => st_redis_up (w_st w)).

(** Get value from cache: [null] when there is no connected client, when
    the key is absent and when the command fails. *)
Definition get (key : string) : M (option RedisVal) :=
  up <- connected ;;
  if negb up then ret None
  else try_catch (client_get key) (fun _ => ret None).

(** Set value in cache with TTL: [false] when there is no connected client
    and when the command fails. *)
Definition set (key : string) (value : RedisVal) (ttlSeconds : Z) : M bool :=
  up <- connected ;;
  if negb up then ret false
  else try_catch (client_setEx key ttlSeconds value ;; ret true)
                 (fun _ => ret false).

Definition searchKey (query : string) (page count : Z) : string :=
  "search:" +:+ query +:+ ":" +:+ pretty page +:+ ":" +:+ pretty count.

Definition cacheSearchResults (query : string) (page count : Z)
    (results : list Vehicle) : M unit :=
  set (searchKey query page count) (RVehicles results) 3600 ;; ret tt.

Definition getCachedSearchResults (query : string) (page count : Z)
    : M (option RedisVal) :=
  get (searchKey query page count).

(** [client.del(key)] *)
Definition client_del (key : string) : M unit :=
  fault <- next_fault ;;
  if fault : bool then throw "Redis command failed"
  else modify_st (set_redis (delete key)).

(** [client.exists(key)]: the number of the keys given that exist. *)
Definition client_exists (key : string) : M Z :=
  fault <- next_fault ;;
  if fault : bool then throw "Redis command failed"
  else gets (fun w => match st_redis (w_st w) !! key with
                      | Some _ => 1
                      | None => 0
                      end).

(** [client.flushAll()] *)
Definition client_flushAll : M unit :=
  fault <- next_fault ;;
  if fault : bool then throw "Redis command failed"
  else modify_st (set_redis (fun _ => ∅)).

(** Delete value from cache. *)
Definition del (key : string) : M bool :=
  up <- connected ;;
  if negb up then ret false
  else try_catch (client_del key ;; ret true) (fun _ => ret false).

(** Check if key exists in cache. *)
Definition exists_ (key : string) : M bool :=
  up <- connected ;;
  if negb up then ret false
  else try_catch (result <- client_exists key ;; ret (bool_decide (result > 0)))
                 (fun _ => ret false).

(** Clear all cache. *)
Definition flushAll : M bool :=
  up <- connected ;;
  if negb up then ret false
  else try_catch (client_flushAll ;; ret true) (fun _ => ret false).

End CacheService.

(* ===================================================================== *)
(** * JobQueueSecurityService *)
(* ===================================================================== *)

(** [src/services/security/job-queue-security.service.ts].  The service is
    written against the cache singleton; the model takes the two cache
    methods it uses as parameters, and the controller instantiates them with
    [CacheService.get] and [CacheService.set]. *)

Module JobQueueSecurityService.

(** [SECURITY_CONFIG], read from the process environment at start-up. *)
Record SecurityConfig := mkSecurityConfig {
  perIp_maxRequests : Z;
  perIp_windowMs : Z;
  perApiKey_maxRequests : Z;
  perApiKey_windowMs : Z;
  maxJobs_perIp : Z;
  maxJobs_perApiKey : Z;
  minLength : Z;
  maxLength : Z;
  blacklist : list string;
  maxLimit : Z;
  minLimit : Z;
  maxPage : Z;
  premiumKeys : list string;
}.

(** The configuration when no environment variable is set. *)
Definition defaultConfig : SecurityConfig :=
  mkSecurityConfig 10 60000 100 60000 3 10 2 100
    ["<script>"; "javascript:"; "onerror="; "onclick="] 100 1 50 [].

Record SecurityCheckResult := mkCheck {
  allowed : bool;
  reason : option string;
  retryAfterSeconds : option Z;
}.

Definition allow : SecurityCheckResult := mkCheck true None None.

(** Truthiness of an optional string: present and not empty. *)
Definition truthy (apiKey : option string) : bool :=
  match apiKey with
  | Some k => negb (bool_decide (k = EmptyString))
  | None => false
  end.

(** [apiKey || clientIp] *)
Definition identifierOf (clientIp : string) (apiKey : option string) : string :=
  match apiKey with
  | Some k => if truthy apiKey then k else clientIp
  | None => clientIp
  end.

(** [Math.ceil(ms / 1000)] *)
Definition ceilSeconds (ms : Z) : Z := - ((- ms) / 1000).

(** [(await cache.get<number>(key)) || 0].  The counter keys only ever hold
    numbers; any other cell reads as no count. *)
Definition countOf (cell : option RedisVal) : Z :=
  match cell with
  | Some (RNum n) => n
  | _ => 0
  end.

Section WithCache.

Variable cfg : SecurityConfig.
(** The cache singleton the service reads and writes its counters with. *)
Variable cache_get : string -> M (option RedisVal).
Variable cache_set : string -> RedisVal -> Z -> M bool.

Definition rateLimitKey (clientIp : string) (apiKey : option string) : string :=
  "ratelimit:" +:+ identifierOf clientIp apiKey.

Definition concurrentKey (clientIp : string) (apiKey : option string) : string :=
  "concurrent:" +:+ identifierOf clientIp apiKey.

Definition checkRateLimit (clientIp : string) (apiKey : option string)
    : M SecurityCheckResult :=
  let maxRequests :=
    if truthy apiKey then perApiKey_maxRequests cfg else perIp_maxRequests cfg in
  let windowMs :=
    if truthy apiKey then perApiKey_windowMs cfg else perIp_windowMs cfg in
  let cacheKey := rateLimitKey clientIp apiKey in
  try_catch
    (cell <- cache_get cacheKey ;;
     let currentCount := countOf cell in
     if decide (currentCount >= maxRequests) then
       let retryAfter := ceilSeconds windowMs in
       ret (mkCheck false
              (Some ("Rate limit exceeded. Max " +:+ pretty maxRequests
                       +:+ " requests per " +:+ pretty retryAfter +:+ "s"))
              (Some retryAfter))
     else
       cache_set cacheKey (RNum (currentCount + 1)) (ceilSeconds windowMs) ;;
       ret allow)
    (fun _ => ret allow).

Definition checkConcurrentJobs (clientIp : string) (apiKey : option string)
    : M SecurityCheckResult :=
  let maxJobs :=
    if truthy apiKey then maxJobs_perApiKey cfg else maxJobs_perIp cfg in
  let cacheKey := concurrentKey clientIp apiKey in
  try_catch
    (cell <- cache_get cacheKey ;;
     let currentJobs := countOf cell in
     if decide (currentJobs >= maxJobs) then
       ret (mkCheck false
              (Some ("Maximum " +:+ pretty maxJobs +:+ " concurrent jobs per "
                       +:+ (if truthy apiKey then "API key" else "IP")
                       +:+ ". Please wait for existing jobs to complete."))
              None)
     else ret allow)
    (fun _ => ret allow).

(** Check if client can submit a new job. *)
Definition canSubmitJob (clientIp : string) (apiKey : option string)
    : M SecurityCheckResult :=
  rateLimitCheck <- checkRateLimit clientIp apiKey ;;
  if negb (allowed rateLimitCheck) then ret rateLimitCheck
  else
    concurrencyCheck <- checkConcurrentJobs clientIp apiKey ;;
    if negb (allowed concurrencyCheck) then ret concurrencyCheck
    else ret allow.

Definition incrementConcurrentJobs (clientIp : string) (apiKey : option string)
    : M unit :=
  emit (EvIncrement (identifierOf clientIp apiKey)) ;;
  let cacheKey := concurrentKey clientIp apiKey in
  try_catch
    (cell <- cache_get cacheKey ;;
     let current := countOf cell in
     cache_set cacheKey (RNum (current + 1)) 3600 ;;
     ret tt)
    (fun _ => ret tt).

Definition decrementConcurrentJobs (clientIp : string) (apiKey : option string)
    : M unit :=
  emit (EvDecrement (identifierOf clientIp apiKey)) ;;
  let cacheKey := concurrentKey clientIp apiKey in
  try_catch
    (cell <- cache_get cacheKey ;;
     let current := countOf cell in
     if decide (current > 0) then
       cache_set cacheKey (RNum (current - 1)) 3600 ;; ret tt
     else ret tt)
    (fun _ => ret tt).

(** The character class of [allowedPattern]:
    [a-zA-Z0-9], white space and [- _ . , ( )]. *)
Definition allowedChar (c : ascii) : bool :=
  JsString.is_alpha c || JsString.is_digit c || JsString.is_space c
  || bool_decide (c ∈ ["-"; "_"; "."; ","; "("; ")"]%char).

Record QueryValidation := mkQueryValidation {
  qv_valid : bool;
  qv_sanitized : option string;
  qv_reason : option string;
}.

Definition validateQuery (query : string) : QueryValidation :=
  if bool_decide (query = EmptyString)
     || bool_decide (JsString.length query < minLength cfg)
  then mkQueryValidation false None
         (Some ("Query too short. Minimum " +:+ pretty (minLength cfg)
                  +:+ " characters"))
  else if bool_decide (JsString.length query > maxLength cfg)
  then mkQueryValidation false None
         (Some ("Query too long. Maximum " +:+ pretty (maxLength cfg)
                  +:+ " characters"))
  else
    let lowerQuery := JsString.toLowerCase query in
    if existsb (fun blacklisted =>
                  JsString.includes (JsString.toLowerCase blacklisted) lowerQuery)
               (blacklist cfg)
    then mkQueryValidation false None (Some "Query contains forbidden patterns")
    else if negb (JsString.forallb allowedChar query)
    then mkQueryValidation false None
           (Some "Query contains invalid characters. Only alphanumeric and basic symbols allowed")
    else
      let sanitized := JsString.collapseSpaces (JsString.trim query) in
      mkQueryValidation true (Some sanitized) None.

Record PaginationValidation := mkPaginationValidation {
  pv_valid : bool;
  pv_reason : option string;
}.

Definition validatePagination (page limit : Z) : PaginationValidation :=
  if bool_decide (page < 1)
  then mkPaginationValidation false (Some "Page must be a positive integer")
  else if bool_decide (page > maxPage cfg)
  then mkPaginationValidation false
         (Some ("Page number too high. Maximum " +:+ pretty (maxPage cfg)))
  else if bool_decide (limit < minLimit cfg)
  then mkPaginationValidation false
         (Some ("Limit must be at least " +:+ pretty (minLimit cfg)))
  else if bool_decide (limit > maxLimit cfg)
  then mkPaginationValidation false
         (Some ("Limit too high. Maximum " +:+ pretty (maxLimit cfg)
                  +:+ " per request"))
  else mkPaginationValidation true None.

Definition calculatePriority (apiKey : option string) (limit : Z) : Priority :=
  if truthy apiKey && bool_decide (default EmptyString apiKey ∈ premiumKeys cfg)
  then high
  else if negb (bool_decide (limit = 0)) && bool_decide (limit <= 20)
  then normal
  else low.

End WithCache.

End JobQueueSecurityService.

(* ===================================================================== *)
(** * Firestore, the fetcher and the queue broker *)
(* ===================================================================== *)

Module Firestore.

(** Whether the next command sent to Firestore throws. *)
Definition next_fault : M bool :=
  fun w =>
    match w_fs_faults w with
    | [] => (Ok false, w)
    | b :: rest =>
        (Ok b, mkWorld (w_st w) (w_now w) (w_rng w) (w_env w) (w_tick w)
                 (w_redis_faults w) rest (w_queue_faults w)
                 (w_scrapes w) (w_trace w))
    end.

(** Document ids are single path segments: [.doc(id)] throws on the empty
    string, and an id with a slash addresses another path, which the model
    rejects as well. *)
Definition valid_doc_id (id : string) : bool :=
  negb (bool_decide (id = EmptyString)) && negb (JsString.includes "/" id).

(** A command on the document(s) named by [ids]: building the reference
    throws on an invalid id before anything is sent. *)
Definition command {A} (ids : list string) (effect : M A) : M A :=
  if forallb valid_doc_id ids then
    fault <- next_fault ;;
    if fault : bool then throw "Firestore command failed" else effect
  else throw "Value for argument documentPath is not a valid resource path".

End Firestore.

Module Platform.

(** [platform.scrape(scrapeUrl, limit, undefined, page, limit)]: the
    external fetcher.  The URL is determined by the query. *)
Definition scrape (query : string) (page limit : Z) : M (list Vehicle) :=
  emit (EvScrape query page limit) ;;
  next <- gets w_scrapes ;;
  match next with
  | [] => throw "Scraping failed after all retries"
  | o :: rest =>
      modify (fun w =>
        mkWorld (w_st w) (w_now w) (w_rng w) (w_env w) (w_tick w)
                (w_redis_faults w) (w_fs_faults w) (w_queue_faults w)
                rest (w_trace w)) ;;
      suspend (so_duration o) ;;
      match so_result o with
      | inl message => throw message
      | inr vehicles => ret vehicles
      end
  end.

End Platform.

Module JobQueueManager.

Definition next_fault : M bool :=
  fun w =>
    match w_queue_faults w with
    | [] => (Ok false, w)
    | b :: rest =>
        (Ok b, mkWorld (w_st w) (w_now w) (w_rng w) (w_env w) (w_tick w)
                 (w_redis_faults w) (w_fs_faults w) rest
                 (w_scrapes w) (w_trace w))
    end.

(** [addJob('SCRAPE_COPART', data)] without options: three attempts,
    exponential backoff from two seconds, removed on completion, no
    delay. *)
Definition addJob (data : ScrapeJobData) : M QueuedJob :=
  fault <- next_fault ;;
  if fault : bool then throw "Queue command failed"
  else
    let job := mkQueuedJob data 3 2000 true 0 in
    modify_st (set_queue (fun q => q ++ [job])) ;;
    ret job.

End JobQueueManager.

(* ===================================================================== *)
(** * ScrapingQueueService *)
(* ===================================================================== *)

(** [src/services/queue/scraping-queue.service.ts]: an in-memory queue of
    scraping tasks with a concurrency limit and a rate limit.  The service
    has a state of its own, which is passed explicitly; [now] is the
    [Date.now()] of the call.

    A task also carries the function to run and the two ends of the promise
    handed to the caller of [addTask]; the service only ever calls them, so
    the model keeps the fields it reads.  [processQueue] runs in two steps:
    up to the point where the function of the chosen task is started
    ([processQueue]), and from the point where that function has returned or
    thrown ([settle]). *)

Module ScrapingQueueService.

Record QueueTask := mkQueueTask {
  id : string;
  query : string;
  priority : Z;
  createdAt : Z;
}.

#[global] Instance QueueTask_eq_dec : EqDecision QueueTask.
Proof. solve_decision. Defined.

Record QueueStats := mkQueueStats {
  qs_pending : Z;
  qs_active : Z;
  qs_completed : Z;
  qs_failed : Z;
  qs_queueSize : Z;
  qs_isPaused : bool;
}.

Record Service := mkService {
  tasks : list QueueTask;
  activeTasks : gset string;
  completedCount : Z;
  failedCount : Z;
  isPaused : bool;
  maxConcurrency : Z;
  requestTimestamps : list Z;
}.

Definition maxPerInterval : Z := 5.
Definition intervalMs : Z := 10000.

(** The service as its constructor leaves it. *)
Definition initial : Service := mkService [] ∅ 0 0 false 3 [].

(** Number of requests in the current interval. *)
Definition getRequestsInInterval (now : Z) (s : Service) : Z :=
  let cutoff := now - intervalMs in
  Z.of_nat (length (filter (fun t => t > cutoff) (requestTimestamps s))).

Definition cleanTimestamps (now : Z) (s : Service) : Service :=
  let cutoff := now - intervalMs * 2 in
  mkService (tasks s) (activeTasks s) (completedCount s) (failedCount s)
            (isPaused s) (maxConcurrency s)
            (filter (fun t => t > cutoff) (requestTimestamps s)).

(** [tasks.sort((a, b) => b.priority - a.priority)]: highest priority
    first; the sort is stable, so tasks of equal priority keep their
    order. *)
Fixpoint insertByPriority (t : QueueTask) (sorted : list QueueTask)
    : list QueueTask :=
  match sorted with
  | [] => [t]
  | x :: rest =>
      if decide (priority t < priority x) then x :: insertByPriority t rest
      else t :: x :: rest
  end.

Definition sortByPriority (l : list QueueTask) : list QueueTask :=
  foldr insertByPriority [] l.

(** [processQueue] up to its [await]: the task whose function it starts,
    if any. *)
Definition processQueue (now : Z) (s : Service) : Service * option QueueTask :=
  if isPaused s || bool_decide (length (tasks s) = 0%nat) then (s, None)
  else if bool_decide (Z.of_nat (size (activeTasks s)) >= maxConcurrency s)
  then (s, None)
  else if bool_decide (getRequestsInInterval now s >= maxPerInterval)
  then (s, None)
  else
    match sortByPriority (tasks s) with
    | [] => (mkService [] (activeTasks s) (completedCount s) (failedCount s)
                       (isPaused s) (maxConcurrency s) (requestTimestamps s),
             None)
    | task :: rest =>
        (mkService rest ({[id task]} ∪ activeTasks s)
                   (completedCount s) (failedCount s) (isPaused s)
                   (maxConcurrency s) (requestTimestamps s ++ [now]),
         Some task)
    end.

(** The rest of [processQueue], once the function of [task] has returned
    ([succeeded]) or thrown: the count, and in the [finally] block the end
    of the task's activity. *)
Definition settle (task : QueueTask) (succeeded : bool) (s : Service) : Service :=
  mkService (tasks s) (activeTasks s ∖ {[id task]})
            (if succeeded then completedCount s + 1 else completedCount s)
            (if succeeded then failedCount s else failedCount s + 1)
            (isPaused s) (maxConcurrency s) (requestTimestamps s).

(** Whether a task is in the queue, waiting or running. *)
Definition hasTask (taskId : string) (s : Service) : bool :=
  existsb (fun t => bool_decide (id t = taskId)) (tasks s)
  || bool_decide (taskId ∈ activeTasks s).

(** Adds a task to the queue; throws if a task of that id is waiting or
    running. *)
Definition addTask (taskId query : string) (priority : Z) (now : Z)
    (s : Service) : string + Service :=
  if hasTask taskId s
  then inl ("Task " +:+ taskId +:+ " already queued")
  else inr (mkService (tasks s ++ [mkQueueTask taskId query priority now])
                      (activeTasks s) (completedCount s) (failedCount s)
                      (isPaused s) (maxConcurrency s) (requestTimestamps s)).

(** [findIndex]: the index of the first element that satisfies [f]. *)
Fixpoint findIndex {A} (f : A -> bool) (l : list A) : option nat :=
  match l with
  | [] => None
  | x :: rest => if f x then Some 0%nat else S <$> findIndex f rest
  end.

(** Position of a task in the queue, from 1; -1 if it is not waiting. *)
Definition getTaskPosition (taskId : string) (s : Service) : Z :=
  match findIndex (fun t => bool_decide (id t = taskId)) (tasks s) with
  | Some index => Z.of_nat index + 1
  | None => -1
  end.

Definition pause (s : Service) : Service :=
  mkService (tasks s) (activeTasks s) (completedCount s) (failedCount s)
            true (maxConcurrency s) (requestTimestamps s).

Definition resume (s : Service) : Service :=
  mkService (tasks s) (activeTasks s) (completedCount s) (failedCount s)
            false (maxConcurrency s) (requestTimestamps s).

(** Removes all pending tasks. *)
Definition clear (s : Service) : Service :=
  mkService [] (activeTasks s) (completedCount s) (failedCount s)
            (isPaused s) (maxConcurrency s) (requestTimestamps s).

Definition getStats (s : Service) : QueueStats :=
  mkQueueStats (Z.of_nat (length (tasks s))) (Z.of_nat (size (activeTasks s)))
               (completedCount s) (failedCount s)
               (Z.of_nat (length (tasks s))) (isPaused s).

(** The waiting tasks by priority; the queue itself is not reordered. *)
Definition getQueuedTasks (s : Service) : list QueueTask :=
  sortByPriority (tasks s).

Definition configure (maxConcurrency' : option Z) (s : Service) : Service :=
  match maxConcurrency' with
  | Some n => mkService (tasks s) (activeTasks s) (completedCount s)
                        (failedCount s) (isPaused s) n (requestTimestamps s)
  | None => s
  end.

End ScrapingQueueService.

(* ===================================================================== *)
(** * BatchRepository *)
(* ===================================================================== *)

(** [src/services/repositories/batch.repository.ts]: pages under
    [searches/{query}/cache/{page}-{limit}], search metadata under
    [searches/{query}], job records under [jobs/{batchId}]. *)

Inductive JobStatus := queued | processing | completed | failed.

Definition status_name (s : JobStatus) : string :=
  match s with
  | queued => "queued"
  | processing => "processing"
  | completed => "completed"
  | failed => "failed"
  end.

Module BatchRepository.

Definition normalize (query : string) : string :=
  JsString.trim (JsString.toLowerCase query).

(** [`${page}-${limit}`] *)
Definition cacheKeyOf (page limit : Z) : string :=
  pretty page +:+ "-" +:+ pretty limit.

(** Seven days, in milliseconds (the process runs in a zone without
    daylight-saving shifts, so seven calendar days are seven times 24
    hours). *)
Definition PAGE_TTL_MS : Z := 7 * 24 * 60 * 60 * 1000.

(** [/^\d+$/.test(s)] *)
Definition isNumeric (s : string) : bool :=
  negb (bool_decide (s = EmptyString)) && JsString.forallb JsString.is_digit s.

Definition updateSearchMetadata (query : string) (page limit vehicleCount : Z)
    : M unit :=
  try_catch
    (let normalizedQuery := normalize query in
     if bool_decide (normalizedQuery = EmptyString) then ret tt
     else if isNumeric normalizedQuery then ret tt
     else
       searchDoc <- Firestore.command [normalizedQuery]
                      (gets (fun w => st_searches (w_st w) !! normalizedQuery)) ;;
       now <- date_now ;;
       match searchDoc with
       | Some meta =>
           Firestore.command [normalizedQuery]
             (modify_st (set_searches
                (<[normalizedQuery :=
                     mkSearchMeta (sm_query meta) now
                                  (sm_searchCount meta + 1) (sm_createdAt meta)]>)))
       | None =>
           Firestore.command [normalizedQuery]
             (modify_st (set_searches
                (<[normalizedQuery := mkSearchMeta normalizedQuery now 1 now]>)))
       end)
    (fun _ => ret tt).

(** Save complete page.  Path: [searches/{query}/cache/{page}-{limit}]. *)
Definition savePage (query : string) (page limit : Z) (vehicles : list Vehicle)
    (scrapeDuration : Z) : M bool :=
  try_catch
    (let normalizedQuery := normalize query in
     let cacheKey := cacheKeyOf page limit in
     now <- date_now ;;
     let expiresAt := now + PAGE_TTL_MS in
     let pageDoc :=
       mkPageDocument
         (mkPageMetadata page limit (Z.of_nat (length vehicles)) normalizedQuery
                         now expiresAt "copart" scrapeDuration)
         (imap (fun index v => <["pageIndex" := VNum (Z.of_nat index)]> v)
               vehicles) in
     Firestore.command [normalizedQuery; cacheKey]
       (modify_st (set_pages (<[(normalizedQuery, cacheKey) := pageDoc]>))) ;;
     updateSearchMetadata normalizedQuery page limit (Z.of_nat (length vehicles)) ;;
     ret true)
    (fun _ => ret false).

(** Get page.  Returns [None] if not found or expired. *)
Definition getPage (query : string) (page limit : Z) : M (option (list Vehicle)) :=
  try_catch
    (let normalizedQuery := normalize query in
     let cacheKey := cacheKeyOf page limit in
     pageDoc <- Firestore.command [normalizedQuery; cacheKey]
                  (gets (fun w => st_pages (w_st w) !! (normalizedQuery, cacheKey))) ;;
     match pageDoc with
     | None => ret None
     | Some data =>
         now <- date_now ;;
         if decide (pm_expiresAt (pd_metadata data) < now) then
           Firestore.command [normalizedQuery; cacheKey]
             (modify_st (set_pages (delete (normalizedQuery, cacheKey)))) ;;
           ret None
         else ret (Some (pd_vehicles data))
     end)
    (fun _ => ret None).

(** Update job status: a merging write of [status], [updatedAt] and the
    metadata fields (which are spread last) into [jobs/{batchId}]; an error
    is rethrown. *)
Definition updateJobStatus (batchId : string) (status : JobStatus)
    (metadata : gmap string Value) : M unit :=
  try_catch
    (now <- date_now ;;
     let fields : gmap string Value :=
       metadata ∪ <["status" := VStr (status_name status)]>
                    (<["updatedAt" := VNum now]> ∅) in
     Firestore.command [batchId]
       (modify_st (set_jobs (fun jobs =>
          <[batchId := fields ∪ default ∅ (jobs !! batchId)]> jobs))) ;;
     emit (EvJobStatus batchId (status_name status)))
    (fun error => throw error).

Definition getJobStatus (batchId : string) : M (option (gmap string Value)) :=
  try_catch
    (Firestore.command [batchId]
       (gets (fun w => st_jobs (w_st w) !! batchId)))
    (fun _ => ret None).

(** Check if page exists and is not expired. *)
Definition pageExists (query : string) (page limit : Z) : M bool :=
  try_catch
    (let normalizedQuery := normalize query in
     let cacheKey := cacheKeyOf page limit in
     pageDoc <- Firestore.command [normalizedQuery; cacheKey]
                  (gets (fun w => st_pages (w_st w) !! (normalizedQuery, cacheKey))) ;;
     match pageDoc with
     | None => ret false
     | Some data =>
         now <- date_now ;;
         ret (bool_decide (pm_expiresAt (pd_metadata data) >= now))
     end)
    (fun _ => ret false).








End BatchRepository.

(* ===================================================================== *)
(** * The worker process *)
(* ===================================================================== *)

(** [src/worker.ts] *)

(** A job as the broker hands it to the processor. *)
Record BullJob := mkBullJob {
  job_id : Z;
  job_data : ScrapeJobData;
  attemptsMade : Z;
}.

Module ScraptPressWorker.

Definition WORKER_ID : string := "worker-1".

(** [Math.round(ms / 1000)] *)
Definition roundSeconds (ms : Z) : Z := (ms + 500) / 1000.

(** The worker's wrapper: a failed status write is logged and dropped. *)
Definition updateJobStatus (batchId : string) (status : JobStatus)
    (metadata : gmap string Value) : M unit :=
  try_catch (BatchRepository.updateJobStatus batchId status metadata)
            (fun _ => ret tt).

(** Process a scraping job. *)
Definition processScrapeJob (job : BullJob) : M unit :=
  let batchId := jd_batchId (job_data job) in
  let query := jd_query (job_data job) in
  let page := jd_page (job_data job) in
  let limit := jd_limit (job_data job) in
  try_catch
    (startedAt <- date_now ;;
     updateJobStatus batchId processing
       (<["workerId" := VStr WORKER_ID]> (<["startedAt" := VNum startedAt]> ∅)) ;;
     scrapeStart <- date_now ;;
     vehicles <- Platform.scrape query page limit ;;
     now <- date_now ;;
     let scrapeDuration := roundSeconds (now - scrapeStart) in
     (if (0 <? length vehicles)%nat
      then BatchRepository.savePage query page limit vehicles scrapeDuration ;; ret tt
      else ret tt) ;;
     completedAt <- date_now ;;
     updateJobStatus batchId completed
       (<["vehiclesFound" := VNum (Z.of_nat (length vehicles))]>
          (<["scrapeDurationSeconds" := VNum scrapeDuration]>
             (<["completedAt" := VNum completedAt]> ∅))))
    (fun error =>
       failedAt <- date_now ;;
       updateJobStatus batchId failed
         (<["error" := VStr error]>
            (<["failedAt" := VNum failedAt]>
               (<["attempt" := VNum (attemptsMade job + 1)]> ∅))) ;;
       throw error).

End ScraptPressWorker.

(* ===================================================================== *)
(** * SearchController *)
(* ===================================================================== *)

(** [src/api/controllers/search.controller.ts] *)

Inductive Source := src_cache | src_redis | src_live | src_lock_wait | src_queued.

Record SearchOptions := mkSearchOptions {
  so_query : string;
  so_page : Z;
  so_limit : Z;
  so_clientIp : option string;
  so_apiKey : option string;
  so_async : bool;
}.

Record SearchResult := mkSearchResult {
  sr_success : bool;
  sr_source : Source;
  sr_cached : bool;
  sr_query : string;
  sr_page : Z;
  sr_limit : Z;
  sr_returned : Z;
  sr_vehicles : option (list Vehicle);
  sr_batchId : option string;
  sr_status : option JobStatus;
  sr_scrapeDurationSeconds : option Z;
}.

Module SearchController.

Import JobQueueSecurityService.

Definition nonEmpty {A} (l : list A) : bool := (0 <? length l)%nat.

(** [s || fallback] for an optional string. *)
Definition orElse (s : option string) (fallback : string) : string :=
  if truthy s then default fallback s else fallback.

Definition priorityValue (p : Priority) : Value :=
  VStr match p with high => "high" | normal => "normal" | low => "low" end.

(** Trigger prefetch of the next page in the background.  The work it
    starts runs interleaved with the others; what is recorded here is its
    launch. *)
Definition triggerPrefetch (query : string) (currentPage limitNum : Z) : M unit :=
  emit (EvPrefetch query (currentPage + 1) limitNum).

Definition hit (source : Source) (cached : bool) (query : string)
    (page limit : Z) (vehicles : list Vehicle) : SearchResult :=
  mkSearchResult true source cached query page limit
    (Z.of_nat (length vehicles)) (Some vehicles) None None None.

(** The loop of [waitForScraping], [fuel] iterations at most. *)
Fixpoint waitForScraping_loop (fuel : nat) (query : string) (page limit : Z)
    (startTime maxWaitMs : Z) : M SearchResult :=
  match fuel with
  | O => diverge
  | S fuel' =>
      now <- date_now ;;
      if decide (now - startTime < maxWaitMs) then
        sleep 2000 ;;
        cachedPage <- BatchRepository.getPage query page limit ;;
        match cachedPage with
        | Some vehicles =>
            if nonEmpty vehicles
            then ret (hit src_lock_wait false query page limit vehicles)
            else waitForScraping_loop fuel' query page limit startTime maxWaitMs
        | None =>
            waitForScraping_loop fuel' query page limit startTime maxWaitMs
        end
      else throw "Timeout waiting for scraping to complete"
  end.

(** Every iteration sleeps two seconds, so [maxWaitMs / 2000 + 2]
    iterations always reach the end of the loop. *)
Definition waitForScraping_fuel (maxWaitMs : Z) : nat :=
  Z.to_nat (maxWaitMs / 2000) + 2.

(** Wait for ongoing scraping to complete. *)
Definition waitForScraping (query : string) (page limit : Z) (maxWaitMs : Z)
    : M SearchResult :=
  startTime <- date_now ;;
  waitForScraping_loop (waitForScraping_fuel maxWaitMs) query page limit
    startTime maxWaitMs.

(** Perform actual scraping. *)
Definition performScraping (query : string) (page limit : Z) : M SearchResult :=
  scrapeStart <- date_now ;;
  vehicles <- Platform.scrape query page limit ;;
  now <- date_now ;;
  let scrapeDuration := ScraptPressWorker.roundSeconds (now - scrapeStart) in
  if nonEmpty vehicles then
    BatchRepository.savePage query page limit vehicles scrapeDuration ;;
    CacheService.cacheSearchResults query page limit vehicles ;;
    emit (EvSyncVehicles (length vehicles)) ;;
    triggerPrefetch query page limit ;;
    ret (mkSearchResult true src_live false query page limit
           (Z.of_nat (length vehicles)) (Some vehicles) None None
           (Some scrapeDuration))
  else throw "No vehicles found".

(** Truthiness of a field that may be absent. *)
Definition truthyV (v : option Value) : bool :=
  match v with
  | Some (VBool b) => b
  | Some (VNum n) => negb (bool_decide (n = 0))
  | Some (VStr s) => negb (bool_decide (s = EmptyString))
  | Some VNull | None => false
  end.

(** [v || fallback] *)
Definition orV (v : option Value) (fallback : Value) : Value :=
  if truthyV v then default fallback v else fallback.

(** A field inside a template literal. *)
Definition render (v : option Value) : string :=
  match v with
  | None => "undefined"
  | Some VNull => "null"
  | Some (VBool true) => "true"
  | Some (VBool false) => "false"
  | Some (VNum n) => pretty n
  | Some (VStr s) => s
  end.

(** [BatchRepository.getPage] as [getJobStatus] calls it, with fields of
    the job record cast to the parameter types: page and limit only enter
    the template literal of the cache key; a query that is not a string
    has no [toLowerCase], which the [catch] of [getPage] turns into
    [null]. *)
Definition getPageOfJob (query : Value) (page limit : option Value)
    : M (option (list Vehicle)) :=
  match query, page, limit with
  | VStr q, Some (VNum p), Some (VNum l) => BatchRepository.getPage q p l
  | VStr q, _, _ =>
      try_catch
        (let normalizedQuery := BatchRepository.normalize q in
         let cacheKey := render page +:+ "-" +:+ render limit in
         pageDoc <- Firestore.command [normalizedQuery; cacheKey]
                      (gets (fun w => st_pages (w_st w) !! (normalizedQuery, cacheKey))) ;;
         match pageDoc with
         | None => ret None
         | Some data =>
             now <- date_now ;;
             if decide (pm_expiresAt (pd_metadata data) < now) then
               Firestore.command [normalizedQuery; cacheKey]
                 (modify_st (set_pages (delete (normalizedQuery, cacheKey)))) ;;
               ret None
             else ret (Some (pd_vehicles data))
         end)
        (fun _ => ret None)
  | _, _, _ => ret None
  end.

(** What [getJobStatus] answers: an object with scalar fields and, for a
    completed job, the vehicles. *)
Record JobStatusResponse := mkJobStatusResponse {
  jr_fields : gmap string Value;
  jr_vehicles : option (list Vehicle);
}.

Definition jobError (message : string) : JobStatusResponse :=
  mkJobStatusResponse
    (<["success" := VBool false]> (<["error" := VStr message]> ∅)) None.

(** Get job status by batchId.  In an object literal the later fields
    win: in the unions below the later fields stand first. *)
Definition getJobStatus (batchId : string) : M JobStatusResponse :=
  try_catch
    (found <- BatchRepository.getJobStatus batchId ;;
     match found with
     | None => ret (jobError "Job not found")
     | Some jobStatus =>
         let query := jobStatus !! "query" in
         let page := jobStatus !! "page" in
         let limit := jobStatus !! "limit" in
         if decide (jobStatus !! "status" = Some (VStr "completed")) then
           vehicles <- getPageOfJob (orV query (VStr EmptyString)) page limit ;;
           (if nonEmpty (default [] vehicles) then
              CacheService.set
                ("search:" +:+ render query +:+ ":" +:+ render page
                   +:+ ":" +:+ render limit)
                (RVehicles (default [] vehicles)) 3600 ;;
              ret tt
            else ret tt) ;;
           let count := VNum (Z.of_nat (length (default [] vehicles))) in
           ret (mkJobStatusResponse
                  (delete "vehicles"
                     ((<["source" := orV (jobStatus !! "source") (VStr "cache")]>
                        (<["cached" := VBool true]>
                           (<["vehiclesFound" := count]>
                              (<["returned" := count]> ∅))))
                      ∪ jobStatus
                      ∪ (<["success" := VBool true]>
                           (<["status" := VStr "completed"]>
                              (<["query" := orV query (VStr EmptyString)]>
                                 (<["page" := orV page (VNum 1)]>
                                    (<["limit" := orV limit (VNum 10)]> ∅)))))))
                  (Some (default [] vehicles)))
         else
           ret (mkJobStatusResponse
                  ((<["source" := orV (jobStatus !! "source") (VStr "queued")]>
                      (<["cached" := VBool false]>
                         (<["returned" := VNum 0]>
                            (<["query" := orV query (VStr EmptyString)]>
                               (<["page" := orV page (VNum 1)]>
                                  (<["limit" := orV limit (VNum 10)]> ∅))))))
                   ∪ jobStatus
                   ∪ (<["success" := VBool true]> ∅))
                  None)
     end)
    (fun error => ret (jobError error)).

Section WithConfig.

Variable cfg : SecurityConfig.

Definition security_canSubmitJob :=
  canSubmitJob cfg CacheService.get CacheService.set.
Definition security_incrementConcurrentJobs :=
  incrementConcurrentJobs CacheService.get CacheService.set.
Definition security_decrementConcurrentJobs :=
  decrementConcurrentJobs CacheService.get CacheService.set.

(** Queue search job for async processing.  The batch id is a fresh
    random identifier. *)
Definition queueSearchJob (query : string) (page limit : Z)
    (clientIp apiKey : option string) : M SearchResult :=
  batchId <- random_suffix ;;
  let priority := calculatePriority cfg apiKey limit in
  try_catch
    (security_incrementConcurrentJobs (orElse clientIp "unknown") apiKey ;;
     JobQueueManager.addJob
       (mkJobData batchId query page limit clientIp apiKey priority) ;;
     createdAt <- date_now ;;
     BatchRepository.updateJobStatus batchId queued
       (<["query" := VStr query]>
          (<["page" := VNum page]>
             (<["limit" := VNum limit]>
                (<["priority" := priorityValue priority]>
                   (<["createdAt" := VNum createdAt]> ∅))))) ;;
     ret (mkSearchResult true src_queued false query page limit 0 None
            (Some batchId) (Some queued) None))
    (fun error =>
       security_decrementConcurrentJobs (orElse clientIp "unknown") apiKey ;;
       throw error).

(** Acquire lock and scrape synchronously; the lock is released in the
    [finally] block. *)
Definition acquireAndScrape (query : string) (page limit : Z) : M SearchResult :=
  lockId <- ScrapingLockService.acquireLock query page limit ;;
  if negb (truthy lockId) then throw "Could not acquire scraping lock"
  else
    try_finally
      (performScraping query page limit)
      (ScrapingLockService.releaseLock query page limit
         (default EmptyString lockId) ;; ret tt).

(** The synchronous path after a cache miss. *)
Definition syncAfterMiss (query : string) (page limit : Z) : M SearchResult :=
  locked <- ScrapingLockService.isLocked query page limit ;;
  waited <-
    (if locked : bool then
       waitResult <- waitForScraping query page limit 180000 ;;
       if sr_success waitResult then
         ret (Some (mkSearchResult
                      (sr_success waitResult) src_lock_wait false
                      (sr_query waitResult) (sr_page waitResult)
                      (sr_limit waitResult) (sr_returned waitResult)
                      (sr_vehicles waitResult) (sr_batchId waitResult)
                      (sr_status waitResult)
                      (sr_scrapeDurationSeconds waitResult)))
       else ret None
     else ret None) ;;
  match waited with
  | Some result => ret result
  | None => acquireAndScrape query page limit
  end.

(** Intelligent search with cache (L1 Redis, L2 Firestore), queue, and
    prefetch. *)
Definition intelligentSearch (options : SearchOptions) : M SearchResult :=
  let query := so_query options in
  let page := so_page options in
  let limit := so_limit options in
  let clientIp := so_clientIp options in
  let apiKey := so_apiKey options in
  securityCheck <- security_canSubmitJob (orElse clientIp "unknown") apiKey ;;
  if negb (allowed securityCheck)
  then throw (orElse (reason securityCheck) "Security check failed")
  else
  let queryValidation := validateQuery cfg query in
  if negb (qv_valid queryValidation)
  then throw (orElse (qv_reason queryValidation) "Invalid query")
  else
  let paginationValidation := validatePagination cfg page limit in
  if negb (pv_valid paginationValidation)
  then throw (orElse (pv_reason paginationValidation) "Invalid pagination")
  else
  let sanitizedQuery := default EmptyString (qv_sanitized queryValidation) in
  (* 1. L1 cache (Redis) *)
  l1 <- try_catch
          (redisResult <- CacheService.getCachedSearchResults
                            sanitizedQuery page limit ;;
           match redisResult with
           | Some (RVehicles vehicles) =>
               if nonEmpty vehicles then
                 triggerPrefetch sanitizedQuery page limit ;;
                 ret (Some (hit src_redis true sanitizedQuery page limit vehicles))
               else ret None
           | _ => ret None
           end)
          (fun _ => ret None) ;;
  match l1 with
  | Some result => ret result
  | None =>
  (* 2. L2 cache (Firestore) *)
  cachedPage <- BatchRepository.getPage sanitizedQuery page limit ;;
  if nonEmpty (default [] cachedPage) then
    let vehicles := default [] cachedPage in
    CacheService.cacheSearchResults sanitizedQuery page limit vehicles ;;
    triggerPrefetch sanitizedQuery page limit ;;
    ret (hit src_cache true sanitizedQuery page limit vehicles)
  else
  if so_async options
  then queueSearchJob sanitizedQuery page limit clientIp apiKey
  else syncAfterMiss sanitizedQuery page limit
  end.

End WithConfig.

End SearchController.

(* ===================================================================== *)
(** * Vocabulary of the properties *)
(* ===================================================================== *)

Definition locks_of (w : World) : gmap string LockInfo := st_locks (w_st w).

(** The lock map is mutated only through the methods of the lock service:
    what runs while the caller is suspended leaves it alone (it goes through
    the same methods, which appear as calls of their own in a history). *)
Definition env_keeps_locks (w : World) : Prop :=
  forall n s, st_locks (w_env w n s) = st_locks s.

(** Histories of calls on the lock service, by any request of the process, and
    the tokens handed out and not given back along them. *)
Module LockHistory.

Import ScrapingLockService.

Inductive LockCall :=
| CallAcquire (query : string) (page limit : Z)
| CallRelease (query : string) (page limit : Z) (token : string)
| CallIsLocked (query : string) (page limit : Z)
| CallCleanup
| CallClear
| CallSuspend (ms : Z).

(** A token granted for a key, with the time of the grant. *)
Record Grant := mkGrant { g_key : string; g_token : string; g_since : Z }.

#[global] Instance Grant_eq_dec : EqDecision Grant.
Proof. solve_decision. Defined.

(** One call: a successful acquire adds its grant, a successful release
    removes the grants of that key and token, clearing the map gives every
    grant back; time passes in [CallSuspend]. *)
Definition step (c : LockCall) (hw : list Grant * World) : list Grant * World :=
  let '(hs, w) := hw in
  match c with
  | CallAcquire q p l =>
      match acquireLock q p l w with
      | (Ok (Some token), w') =>
          (mkGrant (getLockKey q p l) token (w_now w) :: hs, w')
      | (_, w') => (hs, w')
      end
  | CallRelease q p l token =>
      match releaseLock q p l token w with
      | (Ok true, w') =>
          (filter (fun g => ~ (g_key g = getLockKey q p l /\ g_token g = token)) hs,
           w')
      | (_, w') => (hs, w')
      end
  | CallIsLocked q p l => (hs, (isLocked q p l w).2)
  | CallCleanup => (hs, (cleanupExpiredLocks w).2)
  | CallClear => ([], (clearAllLocks w).2)
  | CallSuspend ms => (hs, (suspend ms w).2)
  end.

Definition run (cs : list LockCall) (hw : list Grant * World) : list Grant * World :=
  fold_left (fun acc c => step c acc) cs hw.

(** A grant is live as long as it is not older than the lock timeout. *)
Definition live (now : Z) (g : Grant) : Prop :=
  now - g_since g <= LOCK_TIMEOUT_MS.

#[global] Instance live_dec now g : Decision (live now g).
Proof. unfold live. apply _. Defined.

(** The grants for [key] that are neither released nor expired. *)
Definition live_holders (key : string) (now : Z) (hs : list Grant) : list Grant :=
  filter (fun g => g_key g = key /\ live now g) hs.

End LockHistory.

(** [acquireLock] grants: it returns a token and records it, with the
    current time, under the key. *)
Definition granted (w : World) (query : string) (page limit : Z) : Prop :=
  exists token w',
    ScrapingLockService.acquireLock query page limit w = (Ok (Some token), w') /\
    token <> EmptyString /\
    locks_of w' =
      <[ScrapingLockService.getLockKey query page limit :=
          mkLockInfo query page limit (w_now w) token]> (locks_of w) /\
    w_now w' = w_now w /\ w_env w' = w_env w /\ w_trace w' = w_trace w.

(** Every live grant of a history is the lock the map holds for its key. *)
Definition tracked (hs : list LockHistory.Grant) (w : World) : Prop :=
  forall g, g ∈ hs -> LockHistory.live (w_now w) g ->
    exists info, locks_of w !! LockHistory.g_key g = Some info /\
                 startTime info = LockHistory.g_since g /\
                 lockId info = LockHistory.g_token g.

Definition exclusive (hs : list LockHistory.Grant) (now : Z) : Prop :=
  forall key, (length (LockHistory.live_holders key now hs) <= 1)%nat.

Definition lock_inv (hs : list LockHistory.Grant) (w : World) : Prop :=
  tracked hs w /\ exclusive hs (w_now w) /\ env_keeps_locks w.

(** Sample worlds: empty stores, a connected Redis client, nothing else
    running. *)
Definition emptyStores : Stores := mkStores ∅ true ∅ ∅ ∅ ∅ [].

Definition quietWorld (now : Z) : World :=
  mkWorld emptyStores now [] (fun _ s => s) 0 [] [] [] [] [].

(** The sleeps of a trace, oldest first. *)
Definition sleeps_of (trace : list Event) : list Z :=
  omap (fun e => match e with EvSleep ms => Some ms | _ => None end) (rev trace).

(** The status writes of a trace for one job, oldest first. *)
Definition statuses_of (batchId : string) (trace : list Event) : list string :=
  omap (fun e => match e with
                 | EvJobStatus b s => if decide (b = batchId) then Some s else None
                 | _ => None
                 end) (rev trace).

(** How often the counter of an identity was incremented and decremented. *)
Definition increments_of (identifier : string) (trace : list Event) : nat :=
  length (filter (fun e => e = EvIncrement identifier) trace).

Definition decrements_of (identifier : string) (trace : list Event) : nat :=
  length (filter (fun e => e = EvDecrement identifier) trace).

(** ** Vocabulary: frames and termination *)

(** [m] relates every world to the world it leaves behind. *)
Definition preserves {A} (R : relation World) (m : M A) : Prop :=
  forall w, R w (m w).2.

(** The relations that are framed. *)
Definition same_trace : relation World := fun w w' => w_trace w' = w_trace w.
Definition same_clock : relation World := fun w w' => w_now w' = w_now w.
Definition same_pages : relation World :=
  fun w w' => st_pages (w_st w') = st_pages (w_st w).
Definition fs_stays_healthy : relation World :=
  fun w w' => w_fs_faults w = [] -> w_fs_faults w' = [].

(** No decrement of any counter is recorded between two worlds. *)
Definition no_new_decrement : relation World :=
  fun w w' => forall identifier,
    decrements_of identifier (w_trace w') = decrements_of identifier (w_trace w).

(** [m] returns or throws (its loops, if any, have fuel enough). *)
Definition ends {A} (m : M A) : Prop := forall w, (m w).1 <> Diverged.

(** [m] always returns. *)
Definition total {A} (m : M A) : Prop := forall w, exists a w', m w = (Ok a, w').

(** ** Vocabulary: retries *)

(** The delay before the retry that follows attempt [n]. *)
Definition backoff (opts : RetryOrchestrator.RetryOptions) (n : Z) : Z :=
  Z.min (RetryOrchestrator.initialDelay opts
           * RetryOrchestrator.backoffMultiplier opts ^ (n - 1))
        (RetryOrchestrator.maxDelay opts).

(** An operation that ends (returns or throws) and records no event. *)
Definition silent {A} (m : M A) : Prop :=
  forall w, (m w).1 <> Diverged /\ w_trace (m w).2 = w_trace w.

(** A hook that returns normally and records no event. *)
Definition harmless (hook : Z -> string -> M unit) : Prop :=
  forall attempt error w,
    exists w', hook attempt error w = (Ok tt, w') /\ w_trace w' = w_trace w.

(** ** Vocabulary: admission *)

(** The limits that apply to an identity. *)
Definition maxRequestsFor (cfg : JobQueueSecurityService.SecurityConfig)
    (apiKey : option string) : Z :=
  if JobQueueSecurityService.truthy apiKey
  then JobQueueSecurityService.perApiKey_maxRequests cfg
  else JobQueueSecurityService.perIp_maxRequests cfg.

Definition windowMsFor (cfg : JobQueueSecurityService.SecurityConfig)
    (apiKey : option string) : Z :=
  if JobQueueSecurityService.truthy apiKey
  then JobQueueSecurityService.perApiKey_windowMs cfg
  else JobQueueSecurityService.perIp_windowMs cfg.

Definition maxJobsFor (cfg : JobQueueSecurityService.SecurityConfig)
    (apiKey : option string) : Z :=
  if JobQueueSecurityService.truthy apiKey
  then JobQueueSecurityService.maxJobs_perApiKey cfg
  else JobQueueSecurityService.maxJobs_perIp cfg.

(** The world with other faults pending on the Redis client. *)
Definition with_redis_faults (faults : list bool) (w : World) : World :=
  mkWorld (w_st w) (w_now w) (w_rng w) (w_env w) (w_tick w)
          faults (w_fs_faults w) (w_queue_faults w) (w_scrapes w) (w_trace w).

(** ** Vocabulary: pages and jobs *)

(** What [savePage] stores for a list of vehicles: each record with its
    position in the page. *)
Definition indexed (vehicles : list Vehicle) : list Vehicle :=
  imap (fun index v => <["pageIndex" := VNum (Z.of_nat index)]> v) vehicles.

(** The persisted status, and any persisted field, of a job. *)
Definition status_of (w : World) (batchId : string) : option Value :=
  st_jobs (w_st w) !! batchId ≫= (fun doc => doc !! "status").

Definition field_of (w : World) (batchId field : string) : option Value :=
  st_jobs (w_st w) !! batchId ≫= (fun doc => doc !! field).

(** ** Vocabulary: the synchronous path *)



(** ** Sample inputs *)

(** Calls on the lock service: a grant, a minute later a second request for
    the same key (written differently), and a query of the lock. *)
Definition sample_calls : list LockHistory.LockCall :=
  [LockHistory.CallAcquire "Honda" 1 10; LockHistory.CallSuspend 60000;
   LockHistory.CallAcquire " honda" 1 10; LockHistory.CallIsLocked "honda" 1 10].

Definition sample_lock : LockInfo := mkLockInfo "honda" 1 10 1000 "1000-abc".

(** The key is locked since one second. *)
Definition held_world : World :=
  set_st (set_locks (<[ScrapingLockService.getLockKey "honda" 1 10 := sample_lock]>))
         (quietWorld 2000).

(** The key is locked since 15 minutes and one millisecond. *)
Definition stale_world : World :=
  set_st (set_locks (<[ScrapingLockService.getLockKey "honda" 1 10 := sample_lock]>))
         (quietWorld 901001).

Definition always_blocked : M (list Vehicle) := throw "blocked".

Definition seven_attempts : RetryOrchestrator.PartialRetryOptions :=
  RetryOrchestrator.mkPartial (Some 7) (Some 1000) (Some 10000) (Some 2) None.

Definition failing_fetch : M (list Vehicle) :=
  emit (EvScrape "honda" 1 10) ;; throw "navigation timeout".

Definition broken_hook : Z -> string -> M unit :=
  fun _ _ => throw "cleanup failed".

Definition hooked_options : RetryOrchestrator.PartialRetryOptions :=
  RetryOrchestrator.mkPartial None None None None (Some broken_hook).

Definition throwing_get : string -> M (option RedisVal) :=
  fun _ => throw "ECONNREFUSED".

(** A cache whose reads of the rate-limit counters throw, while the other
    keys are served by the cache service. *)
Definition ratelimit_broken_get : string -> M (option RedisVal) :=
  fun key =>
    if JsString.startsWith "ratelimit:" key then throw "ECONNRESET"
    else CacheService.get key.

Definition client : string := "203.0.113.7".

(** An address with three jobs counted, and a Redis client whose next
    command throws. *)
Definition busy_world : World :=
  mkWorld
    (set_redis (<["concurrent:203.0.113.7" := (RNum 3, 3600)]>) emptyStores)
    0 [] (fun _ s => s) 0 [true] [] [] [] [].

(** The same address, with a healthy Redis client. *)
Definition counted_world : World :=
  mkWorld
    (set_redis (<["concurrent:203.0.113.7" := (RNum 3, 3600)]>) emptyStores)
    0 [] (fun _ s => s) 0 [] [] [] [] [].

(** A connected Redis client that fails on its next three commands. *)
Definition failing_redis_world : World :=
  mkWorld
    (set_redis (<["concurrent:203.0.113.7" := (RNum 3, 3600)]>) emptyStores)
    0 [] (fun _ s => s) 0 [true; true; true] [] [] [] [].

(** No connected Redis client. *)
Definition offline_world : World :=
  mkWorld (mkStores ∅ false ∅ ∅ ∅ ∅ []) 0 [] (fun _ s => s) 0 [] [] [] [] [].

Definition sample_vehicle : Vehicle :=
  <["lot_number" := VStr "48213375"]> (<["make" := VStr "HONDA"]> ∅).

Definition sample_data : ScrapeJobData :=
  mkJobData "b-1" "honda" 1 10 (Some client) None normal.

Definition sample_job (attemptsMade : Z) : BullJob :=
  mkBullJob 1 sample_data attemptsMade.

(** The fetcher is blocked on its first call and delivers on its second. *)
Definition flaky_world : World :=
  mkWorld emptyStores 0 [] (fun _ s => s) 0 [] [] []
    [mkScrape 5000 (inl "blocked"); mkScrape 120000 (inr [sample_vehicle])] [].

Definition async_search (page : Z) : SearchOptions :=
  mkSearchOptions "honda" page 10 (Some client) None true.

(** Three batch ids to draw, and a fetcher that delivers three times. *)
Definition submit_world : World :=
  mkWorld emptyStores 0 ["b-1"; "b-2"; "b-3"] (fun _ s => s) 0 [] [] []
    [mkScrape 120000 (inr [<["lot_number" := VStr "1"]> ∅]);
     mkScrape 120000 (inr [<["lot_number" := VStr "2"]> ∅]);
     mkScrape 120000 (inr [<["lot_number" := VStr "3"]> ∅])] [].

(** One asynchronous search for a page, and the worker processing the job it
    queued. *)
Definition run_async_job (page : Z) (w : World) : World :=
  let w1 := (SearchController.intelligentSearch
               JobQueueSecurityService.defaultConfig (async_search page) w).2 in
  match last (st_queue (w_st w1)) with
  | Some message =>
      (ScraptPressWorker.processScrapeJob
         (mkBullJob page (qj_data message) 0) w1).2
  | None => w1
  end.

Definition after_three_jobs : World :=
  run_async_job 3 (run_async_job 2 (run_async_job 1 submit_world)).

Definition stored_page : PageDocument :=
  mkPageDocument
    (mkPageMetadata 1 10 1 "honda" 5000 (5000 + BatchRepository.PAGE_TTL_MS)
                    "copart" 3)
    [<["lot_number" := VStr "48213375"]> (<["pageIndex" := VNum 0]> ∅)].


(** ** Vocabulary: lock keys and waiting *)

(** A string without the separator of the lock keys. *)
Definition colon_free (s : string) : bool :=
  JsString.forallb (fun c => negb (bool_decide (c = ":"%char))) s.

(** The normal form of a query in a lock key. *)
Definition lockQuery (query : string) : string :=
  JsString.trim (JsString.toLowerCase query).

(** A string of ASCII characters only (every code below 128).  On these
    strings [toLowerCase], [trim], the class [\s] and [length] of JavaScript
    are the functions of [JsString]. *)
Definition ascii_only (s : string) : bool :=
  JsString.forallb (fun c => Nat.ltb (nat_of_ascii c) 128) s.

(** ** Vocabulary: strategies *)

(** Run in order from [w], every strategy of the list throws; [w'] is the
    world the last one leaves and [e'] its error ([e] if there is none). *)
Inductive all_throw {T} :
    list (M T) -> World -> option string -> World -> option string -> Prop :=
| all_throw_nil w e : all_throw [] w e w e
| all_throw_cons strategy rest w e e1 w1 w' e' :
    strategy w = (Throw e1, w1) ->
    all_throw rest w1 (Some e1) w' e' ->
    all_throw (strategy :: rest) w e w' e'.

(** Strategies that throw their own name. *)
Definition refusing (name : string) : M (list Vehicle) := throw name.

(** ** Vocabulary: retries that fail *)

(** What the [catch] block of [executeWithRetry] does when attempt
    [attempt] has thrown [error]: if attempts are left, the hook and then
    the wait. *)
Definition afterFailure (opts : RetryOrchestrator.RetryOptions) (attempt : Z)
    (error : string) : M unit :=
  if decide (attempt < RetryOrchestrator.maxAttempts opts) then
    match RetryOrchestrator.onRetry opts with
    | Some hook => hook attempt error
    | None => ret tt
    end ;;
    sleep (RetryOrchestrator.calculateDelay attempt opts)
  else ret tt.

(** From [w], the attempts [attempt], ..., [attempt + count - 1] all throw,
    each followed by what the [catch] block does; [w'] is the world after
    the last of them and [e'] its error ([e] if there is none). *)
Inductive attempts_fail {T} (fn : M T) (opts : RetryOrchestrator.RetryOptions) :
    Z -> nat -> World -> option string -> World -> option string -> Prop :=
| attempts_fail_none attempt w e : attempts_fail fn opts attempt 0 w e w e
| attempts_fail_next attempt count w e e1 w1 w2 w' e' :
    fn w = (Throw e1, w1) ->
    afterFailure opts attempt e1 w1 = (Ok tt, w2) ->
    attempts_fail fn opts (attempt + 1) count w2 (Some e1) w' e' ->
    attempts_fail fn opts attempt (S count) w e w' e'.

(** ** Vocabulary: the cache *)

(** The key space of Redis. *)
Definition redis_of (w : World) : gmap string (RedisVal * Z) := st_redis (w_st w).

(** A connected client with no fault pending. *)
Definition redis_healthy (w : World) : Prop :=
  st_redis_up (w_st w) = true /\ w_redis_faults w = [].

(** The world with another key space. *)
Definition with_redis (f : gmap string (RedisVal * Z) -> gmap string (RedisVal * Z))
    (w : World) : World :=
  set_st (set_redis f) w.

(** A connected client whose next command fails. *)
Definition glitch_world : World :=
  mkWorld (set_redis (<["search:honda:1:10" := (RVehicles [sample_vehicle], 3600)]>)
                     emptyStores)
          0 [] (fun _ s => s) 0 [true] [] [] [] [].

(** ** Vocabulary: counting requests *)

(** [n] calls of a check in a row, with their answers in order. *)
Fixpoint requests (n : nat) (check : M JobQueueSecurityService.SecurityCheckResult)
    : M (list JobQueueSecurityService.SecurityCheckResult) :=
  match n with
  | O => ret []
  | S n' => r <- check ;; rs <- requests n' check ;; ret (r :: rs)
  end.

(** The answer to a request over the rate limit. *)
Definition rateLimited (cfg : JobQueueSecurityService.SecurityConfig)
    (apiKey : option string) : JobQueueSecurityService.SecurityCheckResult :=
  JobQueueSecurityService.mkCheck false
    (Some ("Rate limit exceeded. Max " +:+ pretty (maxRequestsFor cfg apiKey)
             +:+ " requests per "
             +:+ pretty (JobQueueSecurityService.ceilSeconds (windowMsFor cfg apiKey))
             +:+ "s"))
    (Some (JobQueueSecurityService.ceilSeconds (windowMsFor cfg apiKey))).

(** The count stored under a key. *)
Definition count_at (w : World) (key : string) : Z :=
  JobQueueSecurityService.countOf (fst <$> redis_of w !! key).

(** ** Vocabulary: strings of queries *)

(** The character [c] occurs in [s]. *)
Fixpoint occurs (c : ascii) (s : string) : bool :=
  match s with
  | EmptyString => false
  | String x s' => bool_decide (x = c) || occurs c s'
  end.

(** Nothing but white space. *)
Definition blank (s : string) : bool := JsString.forallb JsString.is_space s.

(** [trimEnd] by recursion on the string: a white-space character is dropped
    when nothing but white space follows it. *)
Fixpoint trimEnd_rec (s : string) : string :=
  match s with
  | EmptyString => EmptyString
  | String c s' =>
      match trimEnd_rec s' with
      | EmptyString => if JsString.is_space c then EmptyString else String c EmptyString
      | r => String c r
      end
  end.

(** ** Vocabulary: histories of the scraping queue *)

Module QueueHistory.

Import ScrapingQueueService.

(** What happens to the queue service: calls of its methods by the
    requests, the two timers of the constructor, and the end of the
    function of a running task. *)
Inductive Op :=
| OpAdd (taskId query : string) (priority : Z)
| OpTick
| OpSettle (taskId : string) (succeeded : bool)
| OpPause
| OpResume
| OpClear
| OpConfigure (maxConcurrency : option Z)
| OpClean.

(** The service together with what an observer keeps track of: the tasks
    started and not yet settled, the times of all starts (oldest first),
    and how many tasks were accepted and how many cleared. *)
Record State := mkState {
  service : Service;
  running : list QueueTask;
  starts : list Z;
  accepted : nat;
  cleared : nat;
}.

Definition initialState : State := mkState initial [] [] 0 0.

(** One event at time [now].  The function of a task can only end while
    the task is running. *)
Definition step (ev : Z * Op) (st : State) : State :=
  let '(now, op) := ev in
  let s := service st in
  match op with
  | OpAdd taskId query priority =>
      match addTask taskId query priority now s with
      | inr s' => mkState s' (running st) (starts st) (S (accepted st)) (cleared st)
      | inl _ => st
      end
  | OpTick =>
      match processQueue now s with
      | (s', Some task) =>
          mkState s' (task :: running st) (starts st ++ [now])
                  (accepted st) (cleared st)
      | (s', None) =>
          mkState s' (running st) (starts st) (accepted st) (cleared st)
      end
  | OpSettle taskId succeeded =>
      match List.find (fun t => bool_decide (id t = taskId)) (running st) with
      | Some task =>
          mkState (settle task succeeded s)
                  (List.filter (fun t => negb (bool_decide (id t = taskId)))
                               (running st))
                  (starts st) (accepted st) (cleared st)
      | None => st
      end
  | OpPause => mkState (pause s) (running st) (starts st) (accepted st) (cleared st)
  | OpResume => mkState (resume s) (running st) (starts st) (accepted st) (cleared st)
  | OpClear =>
      mkState (clear s) (running st) (starts st) (accepted st)
              (cleared st + length (tasks s))
  | OpConfigure n =>
      mkState (configure n s) (running st) (starts st) (accepted st) (cleared st)
  | OpClean =>
      mkState (cleanTimestamps now s) (running st) (starts st)
              (accepted st) (cleared st)
  end.

Definition run (history : list (Z * Op)) (st : State) : State :=
  fold_left (fun acc ev => step ev acc) history st.

(** The clock never goes back along a history that starts at [now]. *)
Fixpoint chronological (now : Z) (history : list (Z * Op)) : Prop :=
  match history with
  | [] => True
  | (t, _) :: rest => now <= t /\ chronological t rest
  end.

(** The largest concurrency limit set along a history. *)
Definition largestLimit (history : list (Z * Op)) : Z :=
  fold_left (fun acc ev => match ev.2 with
                           | OpConfigure (Some n) => Z.max acc n
                           | _ => acc
                           end)
            history (maxConcurrency initial).

(** How many tasks were started in the ten seconds up to [T]. *)
Definition startsInWindow (T : Z) (times : list Z) : nat :=
  length (filter (fun t => T - intervalMs < t <= T) times).

(** What holds of the times of the starts at time [now]: none lies in the
    future, the service remembers all those of the last twenty seconds,
    and no window holds more than five. *)
Definition paced (now : Z) (st : State) : Prop :=
  Forall (fun t => t <= now) (starts st) /\
  (forall cutoff, now - intervalMs * 2 <= cutoff ->
     filter (fun t => t > cutoff) (requestTimestamps (service st))
     = filter (fun t => t > cutoff) (starts st)) /\
  (forall T, (startsInWindow T (starts st) <= 5)%nat).

(** What holds of the service and its observer at every moment: no two
    tasks, waiting or running, have the same id; the set of active ids
    is that of the running tasks; every accepted task is waiting, running,
    settled or cleared; the limit and the number of running tasks are
    bounded by [limit]. *)
Definition consistent (limit : Z) (st : State) : Prop :=
  let s := service st in
  NoDup ((id <$> tasks s) ++ (id <$> running st)) /\
  activeTasks s = list_to_set (id <$> running st) /\
  completedCount s + failedCount s + Z.of_nat (length (running st))
    + Z.of_nat (length (tasks s)) + Z.of_nat (cleared st)
    = Z.of_nat (accepted st) /\
  maxConcurrency s <= limit /\
  Z.of_nat (length (running st)) <= limit.

(** The limit after an event. *)
Definition limitAfter (ev : Z * Op) (limit : Z) : Z :=
  match ev.2 with
  | OpConfigure (Some n) => Z.max limit n
  | _ => limit
  end.

End QueueHistory.

(** A busy minute of the queue. *)
Definition sample_queue_history : list (Z * QueueHistory.Op) :=
  [(0, QueueHistory.OpAdd "a" "honda" 0); (0, QueueHistory.OpAdd "b" "bmw" 5);
   (0, QueueHistory.OpAdd "c" "audi" 5); (0, QueueHistory.OpAdd "b" "bmw" 9);
   (1000, QueueHistory.OpTick); (2000, QueueHistory.OpTick);
   (2500, QueueHistory.OpSettle "b" true); (2600, QueueHistory.OpAdd "b" "bmw" 1);
   (3000, QueueHistory.OpTick); (4000, QueueHistory.OpTick);
   (5000, QueueHistory.OpTick); (6000, QueueHistory.OpSettle "c" false)].

(** ** Vocabulary: the page store *)

Definition pages_of (w : World) : gmap (string * string) PageDocument :=
  st_pages (w_st w).

Definition searches_of (w : World) : gmap string SearchMeta :=
  st_searches (w_st w).

Definition jobs_of (w : World) : gmap string (gmap string Value) :=
  st_jobs (w_st w).

(** A page past its time to live. *)
Definition expired (now : Z) (doc : PageDocument) : Prop :=
  pm_expiresAt (pd_metadata doc) < now.

#[global] Instance expired_dec now doc : Decision (expired now doc).
Proof. unfold expired. apply _. Defined.

(** The world with another collection of pages. *)
Definition with_pages
    (f : gmap (string * string) PageDocument -> gmap (string * string) PageDocument)
    (w : World) : World :=
  set_st (set_pages f) w.

(** A page of ten days ago, still stored, and a fresh one. *)
Definition old_page : PageDocument :=
  mkPageDocument
    (mkPageMetadata 1 10 1 "honda" 0 BatchRepository.PAGE_TTL_MS "copart" 3)
    [<["lot_number" := VStr "48213375"]> (<["pageIndex" := VNum 0]> ∅)].

Definition attic_world : World :=
  mkWorld
    (set_searches (<["honda" := mkSearchMeta "honda" 0 1 0]>)
       (set_pages (<[("honda", "1-10") := old_page]>)
          (set_pages (<[("48213375", "1-10") := old_page]>)
             (set_pages (<[("honda", "2-10") := stored_page]>) emptyStores))))
    (BatchRepository.PAGE_TTL_MS + 1000) [] (fun _ s => s) 0 [] [] [] [] [].

(** ** Vocabulary: the asynchronous path *)

(** Nothing but Redis and the trace differs between two worlds. *)
Definition beside_redis : relation World :=
  fun w w' =>
    st_locks (w_st w') = st_locks (w_st w) /\
    st_pages (w_st w') = st_pages (w_st w) /\
    st_searches (w_st w') = st_searches (w_st w) /\
    st_jobs (w_st w') = st_jobs (w_st w) /\
    st_queue (w_st w') = st_queue (w_st w) /\
    w_now w' = w_now w /\
    w_fs_faults w' = w_fs_faults w /\
    w_queue_faults w' = w_queue_faults w /\
    w_scrapes w' = w_scrapes w.

(** The identifier that [queueSearchJob] draws in [w]. *)
Definition nextBatchId (w : World) : string :=
  default EmptyString (head (w_rng w)).

(** The message that [queueSearchJob] hands to the broker in [w]. *)
Definition submitted (cfg : JobQueueSecurityService.SecurityConfig) (query : string) (page limit : Z)
    (clientIp apiKey : option string) (w : World) : QueuedJob :=
  mkQueuedJob
    (mkJobData (nextBatchId w) query page limit clientIp apiKey
       (JobQueueSecurityService.calculatePriority cfg apiKey limit))
    3 2000 true 0.

Definition queue_of (w : World) : list QueuedJob := st_queue (w_st w).

(** The store refuses the next command. *)
Definition store_refuses (w : World) : Prop :=
  exists rest, w_fs_faults w = true :: rest.

(** The broker refuses, or takes, the next command. *)
Definition broker_refuses (w : World) : Prop :=
  exists rest, w_queue_faults w = true :: rest.

Definition broker_accepts (w : World) : Prop :=
  w_queue_faults w = [] \/ exists rest, w_queue_faults w = false :: rest.

(** The broker takes the job and the store refuses the status. *)
Definition orphan_world : World :=
  mkWorld emptyStores 1000 ["b-1"] (fun _ s => s) 0 [] [true] [] [] [].

(** What runs while a request is suspended leaves the document of the job
    alone. *)
Definition env_keeps_job (w : World) (batchId : string) : Prop :=
  forall n s, st_jobs (w_env w n s) !! batchId = st_jobs s !! batchId.

(** The fields that the worker writes into the document of a job. *)
Definition workerFields : list string :=
  ["status"; "updatedAt"; "workerId"; "startedAt"; "vehiclesFound";
   "scrapeDurationSeconds"; "completedAt"].

(** A job as the broker hands it over, for a message of the queue. *)
Definition delivered (message : QueuedJob) : BullJob :=
  mkBullJob 1 (qj_data message) 0.

(** ** Vocabulary: the synchronous path and its lock *)

(** The lock map of the later world is that of the earlier one, as long as
    what runs during suspensions leaves it alone. *)
Definition keeps_locks : relation World :=
  fun w w' =>
    w_env w' = w_env w /\ (env_keeps_locks w -> locks_of w' = locks_of w).


(* ===================================================================== *)
(** * Properties *)
(* ===================================================================== *)

(** ** Running the monad *)

Ltac mrun :=
  unfold bind, ret, throw, diverge, try_catch, try_finally, gets, modify_st,
    modify, date_now, get_world, emit; cbn.

Lemma bind_ok {A B} (m : M A) (k : A -> M B) w a w1 :
  m w = (Ok a, w1) -> bind m k w = k a w1.
Proof. intros H. unfold bind. rewrite H. reflexivity. Qed.

Lemma bind_throw {A B} (m : M A) (k : A -> M B) w e w1 :
  m w = (Throw e, w1) -> bind m k w = (Throw e, w1).
Proof. intros H. unfold bind. rewrite H. reflexivity. Qed.

Lemma try_catch_ok {A} (m : M A) h w a w1 :
  m w = (Ok a, w1) -> try_catch m h w = (Ok a, w1).
Proof. intros H. unfold try_catch. rewrite H. reflexivity. Qed.

Lemma try_catch_throw {A} (m : M A) h w e w1 :
  m w = (Throw e, w1) -> try_catch m h w = h e w1.
Proof. intros H. unfold try_catch. rewrite H. reflexivity. Qed.

(** ** Frame rules: what an operation leaves as it is *)

Section Frames.

Context (R : relation World) `{!PreOrder R}.

Lemma preserves_ret {A} (a : A) : preserves R (ret a).
Proof. intros w. reflexivity. Qed.

Lemma preserves_throw {A} e : preserves R (@throw A e).
Proof. intros w. reflexivity. Qed.

Lemma preserves_diverge {A} : preserves R (@diverge A).
Proof. intros w. reflexivity. Qed.

Lemma preserves_gets {A} (f : World -> A) : preserves R (gets f).
Proof. intros w. reflexivity. Qed.

Lemma preserves_date_now : preserves R date_now.
Proof. intros w. reflexivity. Qed.

Lemma preserves_bind {A B} (m : M A) (k : A -> M B) :
  preserves R m -> (forall a, preserves R (k a)) -> preserves R (bind m k).
Proof.
  intros Hm Hk w. unfold bind. specialize (Hm w).
  destruct (m w) as [[a|e|] w1]; cbn in *; [|assumption..].
  etransitivity; [exact Hm|apply Hk].
Qed.

Lemma preserves_try_catch {A} (m : M A) (h : string -> M A) :
  preserves R m -> (forall e, preserves R (h e)) -> preserves R (try_catch m h).
Proof.
  intros Hm Hh w. unfold try_catch. specialize (Hm w).
  destruct (m w) as [[a|e|] w1]; cbn in *; [assumption| |assumption].
  etransitivity; [exact Hm|apply Hh].
Qed.

Lemma preserves_try_finally {A} (m : M A) (fin : M unit) :
  preserves R m -> preserves R fin -> preserves R (try_finally m fin).
Proof.
  intros Hm Hf w. unfold try_finally. specialize (Hm w).
  destruct (m w) as [[a|e|] w1]; cbn in *; [| |assumption];
    specialize (Hf w1); destruct (fin w1) as [[[]|e'|] w2]; cbn in *;
    etransitivity; eauto.
Qed.

Lemma preserves_modify (f : World -> World) :
  (forall w, R w (f w)) -> preserves R (modify f).
Proof. intros Hf w. apply Hf. Qed.

End Frames.

(** The frame tactic: split an operation along its binds, handlers and case
    distinctions, and close the primitive steps with [tac]. *)
Ltac frame_step tac :=
  lazymatch goal with
  | |- preserves _ (bind _ _) => apply preserves_bind; [apply _| |intros ?]
  | |- preserves _ (try_catch _ _) => apply preserves_try_catch; [apply _| |intros ?]
  | |- preserves _ (try_finally _ _) => apply preserves_try_finally; [apply _| |]
  | |- preserves _ (ret _) => apply preserves_ret; apply _
  | |- preserves _ (throw _) => apply preserves_throw; apply _
  | |- preserves _ diverge => apply preserves_diverge; apply _
  | |- preserves _ (gets _) => apply preserves_gets; apply _
  | |- preserves _ date_now => apply preserves_date_now; apply _
  | |- preserves _ (match ?x with _ => _ end) => destruct x
  | |- preserves _ (if ?x then _ else _) => destruct x
  | |- _ => tac
  end.

Ltac frame tac := repeat frame_step tac.

#[local] Instance same_trace_po : PreOrder same_trace.
Proof. split; [intros w; reflexivity|intros a b c; unfold same_trace; congruence]. Qed.
#[local] Instance same_clock_po : PreOrder same_clock.
Proof. split; [intros w; reflexivity|intros a b c; unfold same_clock; congruence]. Qed.
#[local] Instance same_pages_po : PreOrder same_pages.
Proof. split; [intros w; reflexivity|intros a b c; unfold same_pages; congruence]. Qed.
#[local] Instance fs_stays_healthy_po : PreOrder fs_stays_healthy.
Proof. split; [intros w; unfold fs_stays_healthy; auto|intros a b c; unfold fs_stays_healthy; auto]. Qed.

(** A primitive step, checked by running it. *)
Ltac prim :=
  let w := fresh "w" in
  intros w;
  unfold same_trace, same_clock, same_pages, fs_stays_healthy,
    Firestore.next_fault, CacheService.next_fault, JobQueueManager.next_fault,
    random_suffix, modify_st, modify, suspend, emit, set_st;
  cbn; repeat case_match; cbn; try reflexivity; try congruence.

Ltac open_ops :=
  progress unfold
    BatchRepository.savePage, BatchRepository.getPage,
    BatchRepository.updateSearchMetadata, BatchRepository.updateJobStatus,
    BatchRepository.getJobStatus, Firestore.command,
    CacheService.get, CacheService.set, CacheService.client_get,
    CacheService.client_setEx, CacheService.connected,
    CacheService.cacheSearchResults, CacheService.getCachedSearchResults,
    ScraptPressWorker.updateJobStatus.

Ltac frames := frame ltac:(first [open_ops | prim]).

Lemma savePage_same_trace q p l vs d :
  preserves same_trace (BatchRepository.savePage q p l vs d).
Proof. frames. Qed.


Lemma getPage_same_trace q p l :
  preserves same_trace (BatchRepository.getPage q p l).
Proof. frames. Qed.

Lemma savePage_fs_stays_healthy q p l vs d :
  preserves fs_stays_healthy (BatchRepository.savePage q p l vs d).
Proof. frames. Qed.

(** ** Operations that end *)

Lemma ends_ret {A} (a : A) : ends (ret a).
Proof. intros w. discriminate. Qed.

Lemma ends_throw {A} e : ends (@throw A e).
Proof. intros w. discriminate. Qed.

Lemma ends_gets {A} (f : World -> A) : ends (gets f).
Proof. intros w. discriminate. Qed.

Lemma ends_date_now : ends date_now.
Proof. intros w. discriminate. Qed.

Lemma ends_modify f : ends (modify f).
Proof. intros w. discriminate. Qed.

Lemma ends_bind {A B} (m : M A) (k : A -> M B) :
  ends m -> (forall a, ends (k a)) -> ends (bind m k).
Proof.
  intros Hm Hk w. unfold bind. specialize (Hm w).
  destruct (m w) as [[a|e|] w1]; cbn in *; [apply Hk|discriminate|congruence].
Qed.

Lemma ends_try_catch {A} (m : M A) (h : string -> M A) :
  ends m -> (forall e, ends (h e)) -> ends (try_catch m h).
Proof.
  intros Hm Hh w. unfold try_catch. specialize (Hm w).
  destruct (m w) as [[a|e|] w1]; cbn in *; [discriminate|apply Hh|congruence].
Qed.

Lemma ends_try_finally {A} (m : M A) (fin : M unit) :
  ends m -> ends fin -> ends (try_finally m fin).
Proof.
  intros Hm Hf w. unfold try_finally. specialize (Hm w).
  destruct (m w) as [[a|e|] w1]; cbn in *; [| |congruence];
    specialize (Hf w1); destruct (fin w1) as [[[]|e'|] w2]; cbn in *;
    congruence.
Qed.

Lemma total_ends {A} (m : M A) : total m -> ends m.
Proof. intros Hm w. destruct (Hm w) as (a & w' & ->). discriminate. Qed.

(** A [try] whose handler returns always returns. *)
Lemma total_try_catch {A} (m : M A) (h : string -> M A) :
  ends m -> (forall e, total (h e)) -> total (try_catch m h).
Proof.
  intros Hm Hh w. unfold try_catch. specialize (Hm w).
  destruct (m w) as [[a|e|] w1]; cbn in *; [eauto|apply Hh|congruence].
Qed.

Lemma total_ret {A} (a : A) : total (ret a).
Proof. intros w. eexists _, _. reflexivity. Qed.

Lemma total_bind {A B} (m : M A) (k : A -> M B) :
  total m -> (forall a, total (k a)) -> total (bind m k).
Proof.
  intros Hm Hk w. unfold bind. destruct (Hm w) as (a & w1 & ->). apply Hk.
Qed.

Ltac ends_prim :=
  let w := fresh "w" in
  intros w;
  unfold Firestore.next_fault, CacheService.next_fault,
    JobQueueManager.next_fault, random_suffix, modify_st, modify, suspend,
    emit;
  cbn; repeat case_match; cbn; discriminate.

Ltac ends_step :=
  lazymatch goal with
  | |- ends (bind _ _) => apply ends_bind; [|intros ?]
  | |- ends (try_catch _ _) => apply ends_try_catch; [|intros ?]
  | |- ends (try_finally _ _) => apply ends_try_finally
  | |- ends (ret _) => apply ends_ret
  | |- ends (throw _) => apply ends_throw
  | |- ends (gets _) => apply ends_gets
  | |- ends date_now => apply ends_date_now
  | |- ends (match ?x with _ => _ end) => destruct x
  | |- ends (if ?x then _ else _) => destruct x
  | |- _ => first [open_ops | progress unfold sleep | ends_prim]
  end.

Ltac ends_tac := repeat ends_step.


Lemma savePage_total q p l vs d : total (BatchRepository.savePage q p l vs d).
Proof.
  unfold BatchRepository.savePage. apply total_try_catch; [ends_tac|].
  intros e. apply total_ret.
Qed.

Lemma updateSearchMetadata_total q p l c :
  total (BatchRepository.updateSearchMetadata q p l c).
Proof.
  unfold BatchRepository.updateSearchMetadata. apply total_try_catch; [ends_tac|].
  intros e. apply total_ret.
Qed.

(** ** The lock service *)

Section LockService.

Import ScrapingLockService LockHistory.

Lemma acquireLock_held w query page limit info :
  locks_of w !! getLockKey query page limit = Some info ->
  w_now w - startTime info <= LOCK_TIMEOUT_MS ->
  acquireLock query page limit w = (Ok None, w).
Proof.
  intros Hget Hlive. unfold acquireLock, locks_get. mrun.
  unfold locks_of in Hget. rewrite Hget. cbn.
  destruct (decide _) as [Hgt|_]; [lia|]. reflexivity.
Qed.

Lemma acquireLock_absent w query page limit :
  locks_of w !! getLockKey query page limit = None ->
  granted w query page limit.
Proof.
  intros Hget. unfold granted, acquireLock, locks_get, locks_set. mrun.
  unfold locks_of in *. rewrite Hget. cbn.
  unfold random_suffix; cbn.
  assert (Hne : forall a b : string, a +:+ "-" +:+ b <> "")
    by (intros [|] b; discriminate).
  destruct (w_rng w); cbn; do 2 eexists; (split; [reflexivity|]); cbn; auto.
Qed.

Lemma acquireLock_expired w query page limit info :
  locks_of w !! getLockKey query page limit = Some info ->
  w_now w - startTime info > LOCK_TIMEOUT_MS ->
  granted w query page limit.
Proof.
  intros Hget Hexp.
  unfold granted, acquireLock, locks_get, locks_set, locks_delete. mrun.
  unfold locks_of in *. rewrite Hget. cbn.
  destruct (decide _) as [_|Hle]; [|lia]. cbn.
  unfold random_suffix; cbn.
  assert (Hne : forall a b : string, a +:+ "-" +:+ b <> "")
    by (intros [|] b; discriminate).
  destruct (w_rng w); cbn;
    do 2 eexists; (split; [reflexivity|]); cbn; rewrite insert_delete_eq; auto.
Qed.

Lemma acquireLock_cases w query page limit :
  (exists info, locks_of w !! getLockKey query page limit = Some info /\
                w_now w - startTime info <= LOCK_TIMEOUT_MS /\
                acquireLock query page limit w = (Ok None, w))
  \/
  ((forall info, locks_of w !! getLockKey query page limit = Some info ->
                 w_now w - startTime info > LOCK_TIMEOUT_MS) /\
   granted w query page limit).
Proof.
  destruct (locks_of w !! getLockKey query page limit) as [info|] eqn:Hget.
  - destruct (decide (w_now w - startTime info > LOCK_TIMEOUT_MS)) as [Hexp|Hlive].
    + right. split; [intros ? [= <-]; exact Hexp|].
      eapply acquireLock_expired; eauto.
    + left. exists info. split; [reflexivity|]. split; [lia|].
      eapply acquireLock_held; eauto; lia.
  - right. split; [intros ? [=]|]. now apply acquireLock_absent.
Qed.

Lemma releaseLock_spec w query page limit token :
  releaseLock query page limit token w =
    match locks_of w !! getLockKey query page limit with
    | None => (Ok false, w)
    | Some info =>
        if decide (lockId info = token)
        then (Ok true, set_st (set_locks (delete (getLockKey query page limit))) w)
        else (Ok false, w)
    end.
Proof.
  unfold releaseLock, locks_get, locks_delete, locks_of. mrun.
  destruct (st_locks (w_st w) !! _) as [info|]; cbn; [|reflexivity].
  destruct (decide (lockId info <> token)), (decide (lockId info = token));
    try reflexivity; try contradiction.
Qed.

Lemma isLocked_spec w query page limit :
  isLocked query page limit w =
    match locks_of w !! getLockKey query page limit with
    | None => (Ok false, w)
    | Some info =>
        if decide (w_now w - startTime info > LOCK_TIMEOUT_MS)
        then (Ok false, set_st (set_locks (delete (getLockKey query page limit))) w)
        else (Ok true, w)
    end.
Proof.
  unfold isLocked, locks_get, locks_delete, locks_of. mrun.
  destruct (st_locks (w_st w) !! _) as [info|]; cbn; [|reflexivity].
  destruct (decide _); reflexivity.
Qed.

Lemma cleanupExpiredLocks_world w :
  (cleanupExpiredLocks w).2 =
    set_st (set_locks (filter (fun kv : string * LockInfo =>
      bool_decide (w_now w - startTime kv.2 > LOCK_TIMEOUT_MS) = false))) w.
Proof. reflexivity. Qed.

Lemma live_holders_nil_iff key now hs :
  live_holders key now hs = [] <->
  (forall g, g ∈ hs -> g_key g = key -> ~ live now g).
Proof.
  unfold live_holders. split.
  - intros Hnil g Hin Hk Hl.
    assert (g ∈ filter (fun g => g_key g = key /\ live now g) hs) as Hg
      by (apply list_elem_of_filter; auto).
    rewrite Hnil in Hg. inversion Hg.
  - intros Hno. induction hs as [|g hs IH]; [reflexivity|].
    rewrite filter_cons. destruct (decide _) as [[Hk Hl]|_].
    + exfalso. eapply Hno; eauto. left.
    + apply IH. intros g' Hin. apply Hno. now right.
Qed.

Lemma live_holders_filter_le key now (P : Grant -> Prop)
    `{!forall g, Decision (P g)} hs :
  (length (live_holders key now (filter P hs))
     <= length (live_holders key now hs))%nat.
Proof.
  unfold live_holders. induction hs as [|g hs IH]; [reflexivity|].
  rewrite (filter_cons P). rewrite (filter_cons _ g hs).
  destruct (decide (P g)); [rewrite filter_cons|];
    destruct (decide (g_key g = key /\ live now g)); cbn; lia.
Qed.

Lemma live_holders_later key now now' hs :
  now <= now' ->
  (length (live_holders key now' hs) <= length (live_holders key now hs))%nat.
Proof.
  intros Hle. unfold live_holders. induction hs as [|g hs IH]; [reflexivity|].
  rewrite !filter_cons.
  destruct (decide (g_key g = key /\ live now' g)) as [[Hk Hl]|];
    destruct (decide (g_key g = key /\ live now g)) as [|Hn]; cbn; try lia.
  exfalso. apply Hn. split; [assumption|]. unfold live in *. lia.
Qed.

(** Each call of a history keeps the invariant: live grants are the locks
    of the map, at most one per key. *)
Lemma step_lock_inv c hs w :
  lock_inv hs w -> lock_inv (step c (hs, w)).1 (step c (hs, w)).2.
Proof.
  intros (Htr & Hex & Henv).
  destruct c as [q p l|q p l token|q p l| | |ms]; cbn [step].
  - (* acquire *)
    destruct (acquireLock_cases w q p l)
      as [(info & _ & _ & ->)
         |(Hfree & token & w' & -> & _ & Hlocks & Hnow & Henv' & _)];
      cbn [fst snd]; [repeat split; assumption|].
    assert (Hnone : forall g, g ∈ hs -> g_key g = getLockKey q p l ->
                              ~ live (w_now w) g).
    { intros g Hin Hk Hl. destruct (Htr g Hin Hl) as (info & Hget & Hst & _).
      rewrite Hk in Hget. specialize (Hfree info Hget). unfold live in Hl. lia. }
    repeat split.
    + intros g Hin Hl. rewrite Hnow in Hl. rewrite Hlocks.
      apply elem_of_cons in Hin as [->|Hin].
      * cbn. rewrite lookup_insert_eq. eauto.
      * destruct (decide (g_key g = getLockKey q p l)) as [Hk|Hk].
        { exfalso. eapply Hnone; eauto. }
        rewrite lookup_insert_ne by congruence. auto.
    + intros key. rewrite Hnow. unfold live_holders. rewrite filter_cons.
      destruct (decide _) as [[Hk _]|_]; [|apply Hex].
      cbn in Hk. subst key. fold (live_holders (getLockKey q p l) (w_now w) hs).
      apply live_holders_nil_iff in Hnone. rewrite Hnone. cbn. lia.
    + unfold env_keeps_locks. rewrite Henv'. exact Henv.
  - (* release *)
    rewrite releaseLock_spec.
    destruct (locks_of w !! getLockKey q p l) as [info|] eqn:Hget;
      [|cbn; repeat split; assumption].
    destruct (decide (lockId info = token)) as [Htok|Htok];
      [|cbn; repeat split; assumption].
    cbn [fst snd]. repeat split.
    + intros g [Hkeep Hin]%list_elem_of_filter Hl. cbn in Hl.
      destruct (Htr g Hin Hl) as (info' & Hget' & Hst & Hid).
      destruct (decide (g_key g = getLockKey q p l)) as [Hk|Hk].
      * exfalso. apply Hkeep. split; [assumption|].
        rewrite Hk, Hget in Hget'. congruence.
      * exists info'. unfold locks_of. cbn.
        rewrite lookup_delete_ne by congruence. auto.
    + intros key. cbn. etransitivity; [apply live_holders_filter_le|apply Hex].
    + exact Henv.
  - (* isLocked *)
    rewrite isLocked_spec.
    destruct (locks_of w !! getLockKey q p l) as [info|] eqn:Hget;
      [|cbn; repeat split; assumption].
    destruct (decide _) as [Hexp|Hlive]; [|cbn; repeat split; assumption].
    cbn [fst snd]. repeat split; [|exact Hex|exact Henv].
    intros g Hin Hl. cbn in Hl.
    destruct (Htr g Hin Hl) as (info' & Hget' & Hst & Hid).
    destruct (decide (g_key g = getLockKey q p l)) as [Hk|Hk].
    * exfalso. rewrite Hk, Hget in Hget'. injection Hget' as <-.
      unfold live in Hl. lia.
    * exists info'. unfold locks_of. cbn.
      rewrite lookup_delete_ne by congruence. auto.
  - (* cleanup *)
    cbn [fst snd]. rewrite cleanupExpiredLocks_world.
    repeat split; [|exact Hex|exact Henv].
    intros g Hin Hl. cbn in Hl.
    destruct (Htr g Hin Hl) as (info & Hget & Hst & Hid).
    exists info. repeat split; try assumption.
    unfold locks_of. cbn. apply map_lookup_filter_Some. split; [exact Hget|].
    cbn. apply bool_decide_eq_false. unfold live in Hl. lia.
  - (* clear *)
    cbn [fst snd]. repeat split; [|intros key; cbn; lia|exact Henv].
    intros g Hin. inversion Hin.
  - (* suspend *)
    cbn [fst snd]. unfold suspend, modify. cbn.
    repeat split.
    + intros g Hin Hl. cbn in Hl.
      assert (Hl' : live (w_now w) g) by (unfold live in *; lia).
      destruct (Htr g Hin Hl') as (info & Hget & ?).
      exists info. split; [|assumption].
      unfold locks_of. cbn. rewrite Henv. exact Hget.
    + intros key. cbn. etransitivity; [|apply Hex].
      apply live_holders_later. lia.
    + exact Henv.
Qed.

Lemma run_lock_inv cs hs w :
  lock_inv hs w -> lock_inv (run cs (hs, w)).1 (run cs (hs, w)).2.
Proof.
  revert hs w. induction cs as [|c cs IH]; intros hs w Hinv; [exact Hinv|].
  change (run (c :: cs) (hs, w)) with (run cs (step c (hs, w))).
  pose proof (step_lock_inv c hs w Hinv) as Hstep.
  destruct (step c (hs, w)) as [hs' w']. now apply IH.
Qed.

Lemma lock_inv_initial w :
  locks_of w = ∅ -> env_keeps_locks w -> lock_inv [] w.
Proof.
  intros _ Henv. repeat split; [|intros key; cbn; lia|exact Henv].
  intros g Hin. inversion Hin.
Qed.

Lemma waitForLock_loop_ends fuel q p l startWait maxWaitMs w :
  maxWaitMs - (w_now w - startWait) <= 2000 * Z.of_nat fuel ->
  (waitForLock_loop (S fuel) q p l startWait maxWaitMs w).1 <> Diverged.
Proof.
  revert w. induction fuel as [|fuel IH]; intros w Hfuel;
    cbn [waitForLock_loop]; unfold bind at 1; rewrite isLocked_spec;
    (destruct (locks_of w !! getLockKey q p l) as [info|];
     [destruct (decide (w_now w - startTime info > LOCK_TIMEOUT_MS))|]);
    try discriminate;
    unfold bind at 1, date_now at 1, gets; cbv beta iota;
    (destruct (decide (w_now w - startWait >= maxWaitMs)) as [Hge|Hlt];
     [discriminate|]).
  - lia.
  - unfold bind at 1. unfold sleep, bind, emit, suspend, modify.
    cbv beta iota. apply IH. cbn. lia.
Qed.

(** The fuel of [waitForLock] is enough: the wait always ends. *)
Lemma waitForLock_ends q p l maxWaitMs w :
  (waitForLock q p l maxWaitMs w).1 <> Diverged.
Proof.
  unfold waitForLock, waitForLock_fuel, bind, date_now, gets. cbv beta iota.
  replace (Z.to_nat (maxWaitMs / 2000) + 2)%nat
    with (S (Z.to_nat (maxWaitMs / 2000) + 1)) by lia.
  apply waitForLock_loop_ends.
  pose proof (Z.mod_pos_bound maxWaitMs 2000 ltac:(lia)).
  pose proof (Z.div_mod maxWaitMs 2000 ltac:(lia)).
  destruct (decide (0 <= maxWaitMs)) as [Hpos|Hneg].
  - assert (0 <= maxWaitMs / 2000) by (apply Z.div_pos; lia). lia.
  - lia.
Qed.

(** C1.  Along every history of calls on the lock service that starts
    with an empty lock map, at any instant: (1) each key has at most one
    live (granted, neither released nor expired) lock; (2) while a key has
    a live holder, [acquireLock] for that key returns no token and changes
    nothing; (3) so an [acquireLock] that returns a token finds every
    earlier grant of the key released or expired; (4) and an acquire for a
    key whose lock is absent or expired does succeed and records the new
    holder. *)
Theorem lock_mutual_exclusion (w0 : World) (cs : list LockCall) :
  locks_of w0 = ∅ ->
  env_keeps_locks w0 ->
  let hs := (run cs ([], w0)).1 in
  let w := (run cs ([], w0)).2 in
  (forall key, (length (live_holders key (w_now w) hs) <= 1)%nat) /\
  (forall query page limit,
      live_holders (getLockKey query page limit) (w_now w) hs <> [] ->
      acquireLock query page limit w = (Ok None, w)) /\
  (forall query page limit token w',
      acquireLock query page limit w = (Ok (Some token), w') ->
      live_holders (getLockKey query page limit) (w_now w) hs = []) /\
  (forall query page limit,
      (forall info, locks_of w !! getLockKey query page limit = Some info ->
                    w_now w - startTime info > LOCK_TIMEOUT_MS) ->
      exists token w',
        acquireLock query page limit w = (Ok (Some token), w') /\
        locks_of w' !! getLockKey query page limit =
          Some (mkLockInfo query page limit (w_now w) token)).
Proof.
  intros Hempty Henv hs w.
  destruct (run_lock_inv cs [] w0 (lock_inv_initial w0 Hempty Henv))
    as (Htr & Hex & _). fold hs w in Htr, Hex.
  assert (Hheld : forall query page limit,
    live_holders (getLockKey query page limit) (w_now w) hs <> [] ->
    acquireLock query page limit w = (Ok None, w)).
  { intros q p l Hne.
    destruct (live_holders (getLockKey q p l) (w_now w) hs) as [|g rest] eqn:Hl;
      [contradiction|].
    assert (Hg : g ∈ live_holders (getLockKey q p l) (w_now w) hs)
      by (rewrite Hl; left).
    apply list_elem_of_filter in Hg as [[Hk Hlive] Hin].
    destruct (Htr g Hin Hlive) as (info & Hget & Hst & _).
    rewrite Hk in Hget. eapply acquireLock_held; eauto.
    unfold live in Hlive. lia. }
  split; [exact Hex|]. split; [exact Hheld|]. split.
  - intros q p l token w' Hacq.
    destruct (live_holders (getLockKey q p l) (w_now w) hs) eqn:Hl; [reflexivity|].
    rewrite Hheld in Hacq by (rewrite Hl; discriminate). discriminate.
  - intros q p l Hfree.
    destruct (acquireLock_cases w q p l)
      as [(info & Hget & Hlive & _)|(_ & token & w' & Hacq & _ & Hlocks & _)].
    + specialize (Hfree info Hget). lia.
    + exists token, w'. split; [exact Hacq|].
      rewrite Hlocks. apply lookup_insert_eq.
Qed.

(** C2.  For a key that holds a lock, [releaseLock] with a token other than
    the holder's [lockId] returns [false] and leaves the world (so the lock
    map) unchanged; with the holder's token it returns [true] and removes
    the lock; it returns [true] exactly when the token matches. *)
Theorem releaseLock_needs_owner_token (w : World) (query : string)
    (page limit : Z) (token : string) (info : LockInfo) :
  locks_of w !! getLockKey query page limit = Some info ->
  (lockId info <> token ->
     releaseLock query page limit token w = (Ok false, w)) /\
  (lockId info = token ->
     exists w', releaseLock query page limit token w = (Ok true, w') /\
                locks_of w' = delete (getLockKey query page limit) (locks_of w)) /\
  ((releaseLock query page limit token w).1 = Ok true <-> lockId info = token).
Proof.
  intros Hget. rewrite releaseLock_spec, Hget.
  destruct (decide (lockId info = token)) as [Heq|Hne].
  - split; [contradiction|]. split; [|cbn; tauto].
    intros _. eexists. split; reflexivity.
  - split; [reflexivity|]. split; [contradiction|].
    cbn. split; [discriminate|contradiction].
Qed.

(** C8.  A lock that was acquired more than the lock timeout (15 minutes)
    ago and is still in the map is reported as not locked by [isLocked],
    which removes it from the map. *)
Theorem isLocked_expired_is_absent (w : World) (query : string)
    (page limit : Z) (info : LockInfo) :
  locks_of w !! getLockKey query page limit = Some info ->
  w_now w - startTime info > LOCK_TIMEOUT_MS ->
  LOCK_TIMEOUT_MS = 15 * 60 * 1000 /\
  exists w', isLocked query page limit w = (Ok false, w') /\
             locks_of w' = delete (getLockKey query page limit) (locks_of w) /\
             locks_of w' !! getLockKey query page limit = None.
Proof.
  intros Hget Hexp. split; [reflexivity|].
  rewrite isLocked_spec, Hget.
  destruct (decide _) as [_|Hle]; [|lia].
  eexists. split; [reflexivity|]. split; [reflexivity|].
  unfold locks_of. cbn. apply lookup_delete_eq.
Qed.

(** The same from the acquisition on: a lock that was granted and is still
    the lock of its key more than the timeout later counts as absent. *)
Lemma acquired_lock_expires w query page limit token w1 w2 :
  acquireLock query page limit w = (Ok (Some token), w1) ->
  locks_of w2 !! getLockKey query page limit
    = locks_of w1 !! getLockKey query page limit ->
  w_now w2 - w_now w > LOCK_TIMEOUT_MS ->
  exists w3, isLocked query page limit w2 = (Ok false, w3) /\
             locks_of w3 !! getLockKey query page limit = None.
Proof.
  intros Hacq Hsame Hlate.
  destruct (acquireLock_cases w query page limit)
    as [(info & _ & _ & Hnone)|(_ & token' & w1' & Hacq' & _ & Hlocks & _)].
  - rewrite Hnone in Hacq. discriminate.
  - rewrite Hacq' in Hacq. injection Hacq as -> ->.
    rewrite Hlocks, lookup_insert_eq in Hsame.
    rewrite isLocked_spec, Hsame. cbn [startTime].
    destruct (decide _) as [_|Hle]; [|lia].
    eexists. split; [reflexivity|].
    unfold locks_of. cbn. apply lookup_delete_eq.
Qed.

End LockService.

Section LockWitnesses.
Import ScrapingLockService LockHistory.

Lemma lock_mutual_exclusion_witness :
  locks_of (quietWorld 1000) = ∅ /\
  env_keeps_locks (quietWorld 1000) /\
  let w := (run sample_calls ([], quietWorld 1000)).2 in
  acquireLock "HONDA " 1 10 w = (Ok None, w).
Proof.
  split; [reflexivity|]. split; [intros n s; reflexivity|].
  apply (lock_mutual_exclusion (quietWorld 1000) sample_calls);
    [reflexivity|intros n s; reflexivity|].
  vm_compute. discriminate.
Defined.

Lemma releaseLock_needs_owner_token_witness :
  locks_of held_world !! getLockKey "honda" 1 10 = Some sample_lock /\
  releaseLock "honda" 1 10 "1000-xyz" held_world = (Ok false, held_world) /\
  (releaseLock "honda" 1 10 "1000-abc" held_world).1 = Ok true.
Proof.
  assert (Hheld : locks_of held_world !! getLockKey "honda" 1 10
                  = Some sample_lock) by (vm_compute; reflexivity).
  split; [exact Hheld|].
  pose proof (releaseLock_needs_owner_token held_world "honda" 1 10
                "1000-xyz" sample_lock Hheld) as (Hwrong & _ & _).
  pose proof (releaseLock_needs_owner_token held_world "honda" 1 10
                "1000-abc" sample_lock Hheld) as (_ & _ & Hright).
  split; [apply Hwrong; discriminate|apply Hright; reflexivity].
Defined.

Lemma isLocked_expired_is_absent_witness :
  locks_of stale_world !! getLockKey "honda" 1 10 = Some sample_lock /\
  w_now stale_world - startTime sample_lock > LOCK_TIMEOUT_MS /\
  exists w', isLocked "honda" 1 10 stale_world = (Ok false, w') /\
             locks_of w' !! getLockKey "honda" 1 10 = None.
Proof.
  assert (Hheld : locks_of stale_world !! getLockKey "honda" 1 10
                  = Some sample_lock) by (vm_compute; reflexivity).
  assert (Hold : w_now stale_world - startTime sample_lock > LOCK_TIMEOUT_MS)
    by (vm_compute; reflexivity).
  split; [exact Hheld|]. split; [exact Hold|].
  destruct (isLocked_expired_is_absent stale_world "honda" 1 10 sample_lock
              Hheld Hold) as (_ & w' & Hres & _ & Hgone).
  exists w'. split; assumption.
Defined.
End LockWitnesses.

(** ** The retry orchestrator *)

Section Retry.

Import RetryOrchestrator.

Lemma sleeps_of_app trace delays :
  sleeps_of (rev (map EvSleep delays) ++ trace) = sleeps_of trace ++ delays.
Proof.
  unfold sleeps_of. rewrite rev_app_distr, rev_involutive, omap_app.
  f_equal. induction delays as [|d ds IH]; [reflexivity|]. cbn. now rewrite IH.
Qed.

Lemma attempts_from_trace {T} (fn : M T) (opts : RetryOptions) :
  silent fn ->
  (forall hook, onRetry opts = Some hook -> harmless hook) ->
  forall remaining attempt startTime lastError w,
    Z.of_nat remaining = Z.max 0 (maxAttempts opts - attempt + 1) ->
    exists r w',
      attempts_from remaining attempt fn opts startTime lastError w = (Ok r, w') /\
      (success r = true -> attempt <= attempts r) /\
      let retries := if success r then attempts r - attempt
                     else maxAttempts opts - attempt in
      w_trace w' =
        rev (map EvSleep (map (backoff opts) (seqZ attempt retries))) ++ w_trace w.
Proof.
  intros Hfn Hhook. induction remaining as [|remaining IH];
    intros attempt startTime lastError w Hrem.
  - cbn. mrun. do 2 eexists. split; [reflexivity|]. cbn.
    split; [discriminate|]. rewrite seqZ_nil by lia. reflexivity.
  - cbn [attempts_from]. unfold bind at 1. unfold try_catch.
    unfold bind at 1. destruct (Hfn w) as [Hnd Htr].
    destruct (fn w) as [[data|e|] w1] eqn:Hrun; cbn in Hnd, Htr; [| |congruence].
    + mrun. do 2 eexists. split; [reflexivity|]. cbn.
      split; [lia|]. rewrite Z.sub_diag, seqZ_nil by lia. cbn. congruence.
    + destruct (decide (attempt < maxAttempts opts)) as [Hlt|Hge].
      * assert (Hh : exists w2, match onRetry opts with
                                | Some hook => hook attempt e
                                | None => ret tt
                                end w1 = (Ok tt, w2) /\ w_trace w2 = w_trace w1).
        { destruct (onRetry opts) as [hook|] eqn:Hon.
          - apply (Hhook hook eq_refl).
          - eexists. split; reflexivity. }
        destruct Hh as (w2 & Hh & Htr2).
        unfold bind at 1. unfold bind at 1. rewrite Hh.
        unfold sleep. mrun. unfold suspend, modify. cbn.
        edestruct (IH (attempt + 1) startTime (Some e))
          as (r & w' & Hrec & Hatt & Htrace); [lia|].
        rewrite Hrec. exists r, w'. split; [reflexivity|].
        split; [intros Hs; specialize (Hatt Hs); lia|].
        rewrite Htrace. cbn [w_trace].
        assert (Hcount : (if success r then attempts r - attempt
                          else maxAttempts opts - attempt) =
                         Z.succ (if success r then attempts r - (attempt + 1)
                                 else maxAttempts opts - (attempt + 1)))
          by (destruct (success r); lia).
        cbn zeta. rewrite Hcount.
        assert (Hpos : 0 <= (if success r then attempts r - (attempt + 1)
                             else maxAttempts opts - (attempt + 1))).
        { destruct (success r); [specialize (Hatt eq_refl)|]; lia. }
        rewrite (seqZ_cons attempt) by lia. rewrite Z.pred_succ.
        cbn [map rev]. rewrite <- app_assoc. cbn.
        unfold backoff, calculateDelay. rewrite Htr2, Htr.
        replace (Z.succ attempt) with (attempt + 1) by lia. reflexivity.
      * mrun.
        edestruct (IH (attempt + 1) startTime (Some e))
          as (r & w' & Hrec & Hatt & Htrace); [lia|].
        rewrite Hrec. exists r, w'. split; [reflexivity|].
        assert (remaining = 0%nat) by lia. subst remaining.
        cbn in Hrec. injection Hrec as <- <-. cbn.
        split; [discriminate|]. rewrite seqZ_nil by lia. cbn. congruence.
Qed.

Lemma attempts_from_returns {T} (fn : M T) (opts : RetryOptions) :
  (forall w, (fn w).1 <> Diverged) ->
  (forall hook, onRetry opts = Some hook ->
     forall attempt error w, exists w', hook attempt error w = (Ok tt, w')) ->
  forall remaining attempt startTime lastError w,
    exists r w',
      attempts_from remaining attempt fn opts startTime lastError w = (Ok r, w').
Proof.
  intros Hfn Hhook. induction remaining as [|remaining IH];
    intros attempt startTime lastError w.
  - cbn. mrun. eauto.
  - cbn [attempts_from]. unfold bind at 1. unfold try_catch.
    unfold bind at 1. specialize (Hfn w).
    destruct (fn w) as [[data|e|] w1] eqn:Hrun; cbn in Hfn; [| |congruence].
    + mrun. eauto.
    + destruct (decide (attempt < maxAttempts opts)) as [Hlt|Hge].
      * assert (Hh : exists w2, match onRetry opts with
                                | Some hook => hook attempt e
                                | None => ret tt
                                end w1 = (Ok tt, w2)).
        { destruct (onRetry opts) as [hook|] eqn:Hon.
          - apply (Hhook hook eq_refl).
          - eexists. reflexivity. }
        destruct Hh as (w2 & Hh).
        unfold bind at 1. unfold bind at 1. rewrite Hh.
        unfold sleep. mrun. unfold suspend, modify. cbn. apply IH.
      * mrun. apply IH.
Qed.

Lemma attempts_from_hook_throws {T} (fn : M T) (opts : RetryOptions)
    remaining attempt startTime lastError w hook e w1 e' w2 :
  fn w = (Throw e, w1) ->
  attempt < maxAttempts opts ->
  onRetry opts = Some hook ->
  hook attempt e w1 = (Throw e', w2) ->
  attempts_from (S remaining) attempt fn opts startTime lastError w
    = (Throw e', w2).
Proof.
  intros Hfn Hlt Hon Hhook. cbn [attempts_from].
  unfold bind at 1. unfold try_catch. unfold bind at 1. rewrite Hfn.
  destruct (decide (attempt < maxAttempts opts)) as [_|]; [|contradiction].
  rewrite Hon. unfold bind at 1. unfold bind at 1. rewrite Hhook. reflexivity.
Qed.

(** C6.  The delay computed before the retry that follows attempt [n] is
    [min (initialDelay * backoffMultiplier ^ (n - 1)) maxDelay]; when the
    operation and the hook record no event of their own, the sleeps of
    [executeWithRetry] are exactly these delays for the attempts 1, 2, ...
    that were followed by a retry; and with initial delay 1000, multiplier
    2 and cap 10000 the delays are 1000, 2000, 4000, 8000, 10000 and 10000
    from then on. *)
Theorem executeWithRetry_backoff_delays (T : Type) (fn : M T)
    (options : PartialRetryOptions) (w : World) :
  let opts := mergeOptions options in
  silent fn ->
  (forall hook, onRetry opts = Some hook -> harmless hook) ->
  (forall n, calculateDelay n opts =
             Z.min (initialDelay opts * backoffMultiplier opts ^ (n - 1))
                   (maxDelay opts)) /\
  (exists r w',
     executeWithRetry fn options w = (Ok r, w') /\
     let retries := if success r then attempts r - 1 else maxAttempts opts - 1 in
     sleeps_of (w_trace w') =
       sleeps_of (w_trace w) ++
       map (fun n => Z.min (initialDelay opts * backoffMultiplier opts ^ (n - 1))
                           (maxDelay opts))
           (seqZ 1 retries)) /\
  (initialDelay opts = 1000 -> backoffMultiplier opts = 2 ->
   maxDelay opts = 10000 ->
   map (fun n => calculateDelay n opts) (seqZ 1 6)
     = [1000; 2000; 4000; 8000; 10000; 10000] /\
   forall n, 5 <= n -> calculateDelay n opts = 10000).
Proof.
  intros opts Hfn Hhook. split; [reflexivity|]. split.
  - unfold executeWithRetry, bind, date_now, gets. cbv beta iota. fold opts.
    destruct (attempts_from_trace fn opts Hfn Hhook
                (Z.to_nat (maxAttempts opts)) 1 (w_now w) None w)
      as (r & w' & Hrun & _ & Htrace); [lia|].
    exists r, w'. split; [exact Hrun|]. cbn zeta in *.
    rewrite Htrace. apply sleeps_of_app.
  - intros Hi Hb Hm. unfold calculateDelay. rewrite Hi, Hb, Hm.
    split; [reflexivity|]. intros n Hn.
    assert (2 ^ 4 <= 2 ^ (n - 1)) by (apply Z.pow_le_mono_r; lia).
    change (2 ^ 4) with 16 in *. lia.
Qed.

(** C7 (as amended).  When the [onRetry] hook throws after a failed attempt
    that has a retry left, [executeWithRetry] rejects with the hook's error
    at once: no sleep, no further attempt, no result record; this holds at
    the first attempt and at every later one.  As long as the hook returns
    normally (and the operation ends), the loop runs on and
    [executeWithRetry] returns its result record. *)
Theorem onRetry_failure_aborts_retry (T : Type) (fn : M T)
    (options : PartialRetryOptions) (w : World) :
  let opts := mergeOptions options in
  (forall hook e w1 e' w2,
      onRetry opts = Some hook ->
      1 < maxAttempts opts ->
      fn w = (Throw e, w1) ->
      hook 1 e w1 = (Throw e', w2) ->
      executeWithRetry fn options w = (Throw e', w2)) /\
  (forall hook remaining attempt startTime lastError e w1 e' w2,
      onRetry opts = Some hook ->
      attempt < maxAttempts opts ->
      fn w = (Throw e, w1) ->
      hook attempt e w1 = (Throw e', w2) ->
      attempts_from (S remaining) attempt fn opts startTime lastError w
        = (Throw e', w2)) /\
  ((forall w0, (fn w0).1 <> Diverged) ->
   (forall hook, onRetry opts = Some hook ->
      forall attempt error w0, exists w', hook attempt error w0 = (Ok tt, w')) ->
   exists r w', executeWithRetry fn options w = (Ok r, w')).
Proof.
  intros opts. split; [|split].
  - intros hook e w1 e' w2 Hon Hmax Hfn Hhook.
    unfold executeWithRetry, bind, date_now, gets. cbv beta iota. fold opts.
    destruct (Z.to_nat (maxAttempts opts)) as [|remaining] eqn:Hn; [lia|].
    eapply attempts_from_hook_throws; eauto.
  - intros hook remaining attempt startTime lastError e w1 e' w2 Hon Hlt Hfn Hhook.
    eapply attempts_from_hook_throws; eauto.
  - intros Hfn Hhook.
    unfold executeWithRetry, bind, date_now, gets. cbv beta iota. fold opts.
    apply attempts_from_returns; assumption.
Qed.

End Retry.

Section RetryWitnesses.
Import RetryOrchestrator.

Lemma executeWithRetry_backoff_delays_witness :
  silent always_blocked /\
  (forall hook, onRetry (mergeOptions seven_attempts) = Some hook -> harmless hook) /\
  exists r w',
    executeWithRetry always_blocked seven_attempts (quietWorld 0) = (Ok r, w') /\
    success r = false /\ attempts r = 7 /\
    sleeps_of (w_trace w') = [1000; 2000; 4000; 8000; 10000; 10000].
Proof.
  assert (Hs : silent always_blocked)
    by (intros w; split; [discriminate|reflexivity]).
  assert (Hh : forall hook, onRetry (mergeOptions seven_attempts) = Some hook ->
                            harmless hook) by (intros hook [=]).
  split; [exact Hs|]. split; [exact Hh|].
  destruct (executeWithRetry_backoff_delays _ always_blocked seven_attempts
              (quietWorld 0) Hs Hh) as (_ & (r & w' & Hrun & Hsleeps) & _).
  exists r, w'. split; [exact Hrun|].
  vm_compute in Hrun. injection Hrun as <- <-.
  split; [reflexivity|]. split; [reflexivity|]. exact Hsleeps.
Defined.

(** C7 as stated fails: the operation fails once, the hook
    throws, and [executeWithRetry] rejects with the hook's error after this
    single attempt of three instead of returning a result record. *)
Lemma onRetry_failure_escapes :
  (executeWithRetry failing_fetch hooked_options (quietWorld 0)).1
    = Throw "cleanup failed" /\
  w_trace (executeWithRetry failing_fetch hooked_options (quietWorld 0)).2
    = [EvScrape "honda" 1 10] /\
  ~ exists r w',
      executeWithRetry failing_fetch hooked_options (quietWorld 0) = (Ok r, w').
Proof.
  split; [reflexivity|]. split; [reflexivity|].
  intros (r & w' & Hrun). vm_compute in Hrun. discriminate.
Qed.

Lemma onRetry_failure_aborts_retry_witness :
  onRetry (mergeOptions hooked_options) = Some broken_hook /\
  1 < maxAttempts (mergeOptions hooked_options) /\
  exists w1,
    failing_fetch (quietWorld 0) = (Throw "navigation timeout", w1) /\
    broken_hook 1 "navigation timeout" w1 = (Throw "cleanup failed", w1) /\
    executeWithRetry failing_fetch hooked_options (quietWorld 0)
      = (Throw "cleanup failed", w1).
Proof.
  split; [reflexivity|]. split; [reflexivity|].
  eexists. split; [reflexivity|]. split; [reflexivity|].
  apply (proj1 (onRetry_failure_aborts_retry _ failing_fetch hooked_options
                  (quietWorld 0)) broken_hook "navigation timeout" _
               "cleanup failed" _ eq_refl eq_refl eq_refl eq_refl).
Defined.
End RetryWitnesses.

(** ** Admission *)

Section Admission.

Import JobQueueSecurityService.

Lemma CacheService_get_down key w :
  st_redis_up (w_st w) = false -> CacheService.get key w = (Ok None, w).
Proof.
  intros Hdown. unfold CacheService.get, CacheService.connected. mrun.
  rewrite Hdown. reflexivity.
Qed.

Lemma CacheService_set_down key v ttl w :
  st_redis_up (w_st w) = false -> CacheService.set key v ttl w = (Ok false, w).
Proof.
  intros Hdown. unfold CacheService.set, CacheService.connected. mrun.
  rewrite Hdown. reflexivity.
Qed.

Lemma CacheService_get_fault key w rest :
  st_redis_up (w_st w) = true ->
  w_redis_faults w = true :: rest ->
  CacheService.get key w = (Ok None, with_redis_faults rest w).
Proof.
  intros Hup Hfault.
  unfold CacheService.get, CacheService.connected, CacheService.client_get,
    CacheService.next_fault.
  mrun. rewrite Hup. cbn. rewrite Hfault. reflexivity.
Qed.

Lemma CacheService_set_fault key v ttl w rest :
  st_redis_up (w_st w) = true ->
  w_redis_faults w = true :: rest ->
  CacheService.set key v ttl w = (Ok false, with_redis_faults rest w).
Proof.
  intros Hup Hfault.
  unfold CacheService.set, CacheService.connected, CacheService.client_setEx,
    CacheService.next_fault.
  mrun. rewrite Hup. cbn. rewrite Hfault. reflexivity.
Qed.

Section AnyCache.

Variable cfg : SecurityConfig.
Variable cache_get : string -> M (option RedisVal).
Variable cache_set : string -> RedisVal -> Z -> M bool.
Variables (clientIp : string) (apiKey : option string).

Lemma checkRateLimit_read_throws w e w1 :
  cache_get (rateLimitKey clientIp apiKey) w = (Throw e, w1) ->
  checkRateLimit cfg cache_get cache_set clientIp apiKey w = (Ok allow, w1).
Proof.
  intros Hget. unfold checkRateLimit, try_catch, bind. rewrite Hget.
  reflexivity.
Qed.

Lemma checkRateLimit_write_throws w cell w1 e w2 :
  cache_get (rateLimitKey clientIp apiKey) w = (Ok cell, w1) ->
  countOf cell < maxRequestsFor cfg apiKey ->
  cache_set (rateLimitKey clientIp apiKey) (RNum (countOf cell + 1))
            (ceilSeconds (windowMsFor cfg apiKey)) w1 = (Throw e, w2) ->
  checkRateLimit cfg cache_get cache_set clientIp apiKey w = (Ok allow, w2).
Proof.
  intros Hget Hlt Hset. unfold checkRateLimit, try_catch, bind. rewrite Hget.
  fold (maxRequestsFor cfg apiKey). fold (windowMsFor cfg apiKey).
  destruct (decide _) as [Hge|_]; [lia|]. rewrite Hset. reflexivity.
Qed.

Lemma checkConcurrentJobs_read_throws w e w1 :
  cache_get (concurrentKey clientIp apiKey) w = (Throw e, w1) ->
  checkConcurrentJobs cfg cache_get clientIp apiKey w = (Ok allow, w1).
Proof.
  intros Hget. unfold checkConcurrentJobs, try_catch, bind. rewrite Hget.
  reflexivity.
Qed.

Lemma canSubmitJob_after_rate_limit w r w1 :
  checkRateLimit cfg cache_get cache_set clientIp apiKey w = (Ok r, w1) ->
  allowed r = true ->
  canSubmitJob cfg cache_get cache_set clientIp apiKey w =
    match checkConcurrentJobs cfg cache_get clientIp apiKey w1 with
    | (Ok c, w2) => (Ok (if allowed c then allow else c), w2)
    | other => other
    end.
Proof.
  intros Hrl Hal. unfold canSubmitJob, bind. rewrite Hrl, Hal. cbn.
  destruct (checkConcurrentJobs _ _ _ _ w1) as [[c|e|] w2]; try reflexivity.
  destruct (allowed c); reflexivity.
Qed.

End AnyCache.

(** C10 (as amended).  Each check fails open on its own: [checkRateLimit]
    allows when its counter read or its counter write throws,
    [checkConcurrentJobs] when its read throws, whatever the limits.  So
    [canSubmitJob] allows when the concurrent-jobs read throws after the
    rate-limit check allowed; when only the rate-limit check hit the
    failure, the answer is that of the concurrent-jobs check, which may
    deny.  With the cache service of the repository, whose [get] and [set]
    turn a missing connection into [null] and [false], a disconnected
    store, and one whose commands all throw, read as a count of zero, and
    [canSubmitJob] allows provided the limits are positive. *)
Theorem admission_fails_open_per_check (cfg : SecurityConfig)
    (cache_get : string -> M (option RedisVal))
    (cache_set : string -> RedisVal -> Z -> M bool)
    (clientIp : string) (apiKey : option string) (w : World) :
  (forall e w1,
      cache_get (rateLimitKey clientIp apiKey) w = (Throw e, w1) ->
      checkRateLimit cfg cache_get cache_set clientIp apiKey w = (Ok allow, w1) /\
      canSubmitJob cfg cache_get cache_set clientIp apiKey w =
        match checkConcurrentJobs cfg cache_get clientIp apiKey w1 with
        | (Ok c, w2) => (Ok (if allowed c then allow else c), w2)
        | other => other
        end) /\
  (forall cell w1 e w2,
      cache_get (rateLimitKey clientIp apiKey) w = (Ok cell, w1) ->
      countOf cell < maxRequestsFor cfg apiKey ->
      cache_set (rateLimitKey clientIp apiKey) (RNum (countOf cell + 1))
                (ceilSeconds (windowMsFor cfg apiKey)) w1 = (Throw e, w2) ->
      checkRateLimit cfg cache_get cache_set clientIp apiKey w = (Ok allow, w2)) /\
  (forall e w1,
      cache_get (concurrentKey clientIp apiKey) w = (Throw e, w1) ->
      checkConcurrentJobs cfg cache_get clientIp apiKey w = (Ok allow, w1)) /\
  (forall r w1 e w2,
      checkRateLimit cfg cache_get cache_set clientIp apiKey w = (Ok r, w1) ->
      allowed r = true ->
      cache_get (concurrentKey clientIp apiKey) w1 = (Throw e, w2) ->
      canSubmitJob cfg cache_get cache_set clientIp apiKey w = (Ok allow, w2)) /\
  (st_redis_up (w_st w) = false ->
   0 < maxRequestsFor cfg apiKey ->
   0 < maxJobsFor cfg apiKey ->
   canSubmitJob cfg CacheService.get CacheService.set clientIp apiKey w
     = (Ok allow, w)) /\
  (forall rest,
      st_redis_up (w_st w) = true ->
      w_redis_faults w = true :: true :: true :: rest ->
      0 < maxRequestsFor cfg apiKey ->
      0 < maxJobsFor cfg apiKey ->
      canSubmitJob cfg CacheService.get CacheService.set clientIp apiKey w
        = (Ok allow, with_redis_faults rest w)).
Proof.
  split; [|split; [|split; [|split; [|split]]]].
  - intros e w1 Hget.
    pose proof (checkRateLimit_read_throws cfg cache_get cache_set
                  clientIp apiKey w e w1 Hget) as Hrl.
    split; [exact Hrl|].
    eapply canSubmitJob_after_rate_limit; [exact Hrl|reflexivity].
  - intros cell w1 e w2. apply checkRateLimit_write_throws.
  - intros e w1. apply checkConcurrentJobs_read_throws.
  - intros r w1 e w2 Hrl Hal Hget.
    rewrite (canSubmitJob_after_rate_limit _ _ _ _ _ _ _ _ Hrl Hal).
    rewrite (checkConcurrentJobs_read_throws _ _ _ _ _ _ _ Hget). reflexivity.
  - intros Hdown Hreq Hjobs.
    unfold canSubmitJob, checkRateLimit, checkConcurrentJobs, try_catch, bind.
    fold (maxRequestsFor cfg apiKey). fold (maxJobsFor cfg apiKey).
    rewrite CacheService_get_down by exact Hdown. cbn [countOf].
    destruct (decide (0 >= maxRequestsFor cfg apiKey)) as [|_]; [lia|].
    rewrite CacheService_set_down by exact Hdown.
    cbv beta iota delta [ret allow allowed negb].
    rewrite CacheService_get_down by exact Hdown. cbn [countOf].
    destruct (decide (0 >= maxJobsFor cfg apiKey)) as [|_]; [lia|].
    reflexivity.
  - intros rest Hup Hfaults Hreq Hjobs.
    unfold canSubmitJob, checkRateLimit, checkConcurrentJobs, try_catch, bind.
    fold (maxRequestsFor cfg apiKey). fold (maxJobsFor cfg apiKey).
    rewrite (CacheService_get_fault _ w (true :: true :: rest) Hup Hfaults).
    cbn [countOf].
    destruct (decide (0 >= maxRequestsFor cfg apiKey)) as [|_]; [lia|].
    rewrite (CacheService_set_fault _ _ _ _ (true :: rest))
      by (reflexivity || exact Hup).
    cbv beta iota delta [ret allow allowed negb].
    rewrite (CacheService_get_fault _ _ rest) by (reflexivity || exact Hup).
    cbn [countOf].
    destruct (decide (0 >= maxJobsFor cfg apiKey)) as [|_]; [lia|].
    reflexivity.
Qed.

End Admission.

Section AdmissionWitnesses.
Import JobQueueSecurityService.

(** C10 as stated fails: the counter read of the rate-limit
    check throws, and [canSubmitJob] still answers [allowed: false],
    because the concurrent-jobs check that follows reads a full counter.
    First with the cache service of the repository and a Redis command
    that throws, then with a cache whose [get] itself throws. *)
Lemma admission_denied_despite_store_failure :
  ((CacheService.client_get (rateLimitKey "203.0.113.7" None) busy_world).1
     = Throw "Redis command failed" /\
   (checkRateLimit defaultConfig CacheService.get CacheService.set
      "203.0.113.7" None busy_world).1 = Ok allow /\
   (canSubmitJob defaultConfig CacheService.get CacheService.set
      "203.0.113.7" None busy_world).1
     = Ok (mkCheck false
             (Some "Maximum 3 concurrent jobs per IP. Please wait for existing jobs to complete.")
             None)) /\
  ((ratelimit_broken_get (rateLimitKey "203.0.113.7" None) counted_world).1
     = Throw "ECONNRESET" /\
   (checkRateLimit defaultConfig ratelimit_broken_get CacheService.set
      "203.0.113.7" None counted_world).1 = Ok allow /\
   (canSubmitJob defaultConfig ratelimit_broken_get CacheService.set
      "203.0.113.7" None counted_world).1
     = Ok (mkCheck false
             (Some "Maximum 3 concurrent jobs per IP. Please wait for existing jobs to complete.")
             None)).
Proof. repeat split; reflexivity. Qed.

Lemma admission_fails_open_per_check_witness :
  throwing_get (concurrentKey "203.0.113.7" None) (quietWorld 0)
    = (Throw "ECONNREFUSED", quietWorld 0) /\
  checkConcurrentJobs defaultConfig throwing_get "203.0.113.7" None (quietWorld 0)
    = (Ok allow, quietWorld 0) /\
  st_redis_up (w_st offline_world) = false /\
  0 < maxRequestsFor defaultConfig None /\
  0 < maxJobsFor defaultConfig None /\
  canSubmitJob defaultConfig CacheService.get CacheService.set
    "203.0.113.7" None offline_world = (Ok allow, offline_world) /\
  st_redis_up (w_st failing_redis_world) = true /\
  w_redis_faults failing_redis_world = [true; true; true] /\
  canSubmitJob defaultConfig CacheService.get CacheService.set
    "203.0.113.7" None failing_redis_world
    = (Ok allow, with_redis_faults [] failing_redis_world).
Proof.
  split; [reflexivity|]. split.
  - destruct (admission_fails_open_per_check defaultConfig throwing_get
                CacheService.set "203.0.113.7" None (quietWorld 0))
      as (_ & _ & Hread & _).
    apply (Hread "ECONNREFUSED"). reflexivity.
  - split; [reflexivity|]. split; [reflexivity|]. split; [reflexivity|].
    destruct (admission_fails_open_per_check defaultConfig CacheService.get
                CacheService.set "203.0.113.7" None offline_world)
      as (_ & _ & _ & _ & Hdown & _).
    split; [apply Hdown; reflexivity|].
    split; [reflexivity|]. split; [reflexivity|].
    destruct (admission_fails_open_per_check defaultConfig CacheService.get
                CacheService.set "203.0.113.7" None failing_redis_world)
      as (_ & _ & _ & _ & _ & Hfail).
    apply Hfail; reflexivity.
Defined.
End AdmissionWitnesses.

(** ** The page repository *)

Section PageRepository.

Import BatchRepository.

Lemma updateSearchMetadata_returns q p l c w :
  exists w', updateSearchMetadata q p l c w = (Ok tt, w').
Proof.
  destruct (updateSearchMetadata_total q p l c w) as ([] & w' & Hrun). eauto.
Qed.

Lemma updateSearchMetadata_same_pages q p l c :
  preserves same_pages (updateSearchMetadata q p l c).
Proof. frames. Qed.

Lemma savePage_true q p l vs d w w1 :
  savePage q p l vs d w = (Ok true, w1) ->
  forallb Firestore.valid_doc_id [normalize q; cacheKeyOf p l] = true /\
  st_pages (w_st w1) !! (normalize q, cacheKeyOf p l) =
    Some (mkPageDocument
            (mkPageMetadata p l (Z.of_nat (length vs)) (normalize q)
                            (w_now w) (w_now w + PAGE_TTL_MS) "copart" d)
            (indexed vs)).
Proof.
  unfold savePage, Firestore.command, try_catch.
  unfold bind at 1. unfold date_now at 1, gets. cbv beta iota.
  destruct (forallb _ _) eqn:Hvalid; [|cbn; discriminate].
  unfold bind at 1. unfold bind at 1. unfold bind at 1.
  destruct (Firestore.next_fault w) as [[[]|e|] w0] eqn:Hfault;
    try (cbn; discriminate).
  cbn [modify_st modify].
  match goal with
  | |- context [updateSearchMetadata ?a ?b ?c ?n ?x] =>
      destruct (updateSearchMetadata_returns a b c n x) as (w2 & Hmeta);
      pose proof (updateSearchMetadata_same_pages a b c n x) as Hpages;
      rewrite Hmeta in *
  end.
  cbn. intros [= <-]. split; [reflexivity|].
  unfold same_pages in Hpages. cbn in Hpages. rewrite Hpages.
  apply lookup_insert_eq.
Qed.

Lemma savePage_same_clock q p l vs d :
  preserves same_clock (savePage q p l vs d).
Proof. frames. Qed.

Lemma getPage_fresh q p l w doc :
  forallb Firestore.valid_doc_id [normalize q; cacheKeyOf p l] = true ->
  (forall rest, w_fs_faults w <> true :: rest) ->
  st_pages (w_st w) !! (normalize q, cacheKeyOf p l) = Some doc ->
  w_now w <= pm_expiresAt (pd_metadata doc) ->
  (getPage q p l w).1 = Ok (Some (pd_vehicles doc)).
Proof.
  intros Hvalid Hfault Hdoc Hfresh.
  unfold getPage, Firestore.command, try_catch. rewrite Hvalid.
  unfold bind at 1. unfold bind at 1. unfold Firestore.next_fault.
  destruct (w_fs_faults w) as [|[] rest] eqn:Hf;
    [|exfalso; eapply Hfault; reflexivity|];
    mrun; rewrite Hdoc; cbn;
    (destruct (decide _) as [Hexp|_]; [lia|reflexivity]).
Qed.

Lemma indexed_lookup vs i v :
  vs !! i = Some v ->
  indexed vs !! i = Some (<["pageIndex" := VNum (Z.of_nat i)]> v).
Proof.
  intros Hv. unfold indexed. rewrite list_lookup_imap, Hv. reflexivity.
Qed.

(** C9 (as amended).  When [savePage] reports success, looking the same
    key up while the stored document is still there and not older than its
    seven days returns the vehicles that were given, in the same order and
    number, each with its field [pageIndex] set to its position in the page
    and every other field as it was; this holds in particular for a lookup
    that follows the store at once. *)
Theorem savePage_getPage_roundtrip (w w1 : World) (query : string)
    (page limit : Z) (vehicles : list Vehicle) (scrapeDuration : Z) :
  savePage query page limit vehicles scrapeDuration w = (Ok true, w1) ->
  (forall w2,
      st_pages (w_st w2) !! (normalize query, cacheKeyOf page limit)
        = st_pages (w_st w1) !! (normalize query, cacheKeyOf page limit) ->
      w_now w2 <= w_now w + PAGE_TTL_MS ->
      (forall rest, w_fs_faults w2 <> true :: rest) ->
      (getPage query page limit w2).1 = Ok (Some (indexed vehicles))) /\
  ((forall rest, w_fs_faults w1 <> true :: rest) ->
   (getPage query page limit w1).1 = Ok (Some (indexed vehicles))) /\
  length (indexed vehicles) = length vehicles /\
  (forall i v, vehicles !! i = Some v ->
     exists v', indexed vehicles !! i = Some v' /\
                v' !! "pageIndex" = Some (VNum (Z.of_nat i)) /\
                forall field, field <> "pageIndex" -> v' !! field = v !! field) /\
  PAGE_TTL_MS = 7 * 24 * 60 * 60 * 1000.
Proof.
  intros Hsave. destruct (savePage_true _ _ _ _ _ _ _ Hsave) as [Hvalid Hdoc].
  assert (Hlater : forall w2,
    st_pages (w_st w2) !! (normalize query, cacheKeyOf page limit)
      = st_pages (w_st w1) !! (normalize query, cacheKeyOf page limit) ->
    w_now w2 <= w_now w + PAGE_TTL_MS ->
    (forall rest, w_fs_faults w2 <> true :: rest) ->
    (getPage query page limit w2).1 = Ok (Some (indexed vehicles))).
  { intros w2 Hsame Hfresh Hfault. rewrite Hdoc in Hsame.
    apply (getPage_fresh _ _ _ _ _ Hvalid Hfault Hsame). exact Hfresh. }
  split; [exact Hlater|]. split; [|split; [|split]].
  - intros Hfault. apply Hlater; [reflexivity| |exact Hfault].
    pose proof (savePage_same_clock query page limit vehicles scrapeDuration w)
      as Hclock.
    rewrite Hsave in Hclock. unfold same_clock in Hclock. cbn in Hclock.
    rewrite Hclock. unfold PAGE_TTL_MS. lia.
  - unfold indexed. apply length_imap.
  - intros i v Hv. eexists. split; [apply indexed_lookup; exact Hv|].
    split; [apply lookup_insert_eq|].
    intros field Hne. apply lookup_insert_ne. congruence.
  - reflexivity.
Qed.

End PageRepository.

Section PageWitnesses.
Import BatchRepository.

(** C9 as stated fails: a page of one vehicle is stored and
    looked up at once; the record that comes back has the additional field
    [pageIndex], so the records are not identical to the ones given to the
    store. *)
Lemma getPage_returns_indexed_records :
  (savePage "Honda" 1 10 [sample_vehicle] 120 (quietWorld 0)).1 = Ok true /\
  let w1 := (savePage "Honda" 1 10 [sample_vehicle] 120 (quietWorld 0)).2 in
  (getPage "Honda" 1 10 w1).1
    = Ok (Some [<["pageIndex" := VNum 0]> sample_vehicle]) /\
  (getPage "Honda" 1 10 w1).1 <> Ok (Some [sample_vehicle]).
Proof.
  split; [reflexivity|]. cbn zeta. split; [vm_compute; reflexivity|].
  intros H.
  assert (Hv : Some [<["pageIndex" := VNum 0]> sample_vehicle]
               = Some [sample_vehicle]).
  { assert (Heq : (getPage "Honda" 1 10
                     (savePage "Honda" 1 10 [sample_vehicle] 120 (quietWorld 0)).2).1
                  = Ok (Some [<["pageIndex" := VNum 0]> sample_vehicle]))
      by (vm_compute; reflexivity).
    rewrite Heq in H. congruence. }
  apply (f_equal (fun o : option (list Vehicle) =>
                    match o with
                    | Some [v] => v !! "pageIndex"
                    | _ => None
                    end)) in Hv.
  vm_compute in Hv. discriminate.
Qed.

Lemma savePage_getPage_roundtrip_witness :
  exists w1,
    savePage "Honda" 1 10 [sample_vehicle] 120 (quietWorld 0) = (Ok true, w1) /\
    (forall rest, w_fs_faults w1 <> true :: rest) /\
    (getPage "Honda" 1 10 w1).1 = Ok (Some (indexed [sample_vehicle])).
Proof.
  eexists. split; [vm_compute; reflexivity|].
  split; [intros rest; vm_compute; discriminate|].
  refine (proj1 (proj2 (savePage_getPage_roundtrip (quietWorld 0) _ "Honda" 1 10
                          [sample_vehicle] 120 _)) _).
  - vm_compute. reflexivity.
  - intros rest. vm_compute. discriminate.
Defined.
End PageWitnesses.

(** ** Job status *)

Section JobStatus.

Import ScraptPressWorker.

Lemma statuses_of_cons_status b s trace :
  statuses_of b (EvJobStatus b s :: trace) = statuses_of b trace ++ [s].
Proof.
  unfold statuses_of. cbn [rev]. rewrite omap_app. cbn.
  destruct (decide (b = b)); [reflexivity|contradiction].
Qed.

Lemma statuses_of_cons_scrape b q p l trace :
  statuses_of b (EvScrape q p l :: trace) = statuses_of b trace.
Proof.
  unfold statuses_of. cbn [rev]. rewrite omap_app. cbn. apply app_nil_r.
Qed.

(** A status write on a healthy store: the status is overwritten, whatever
    it was, the other fields of the metadata are merged in. *)
Lemma repository_updateJobStatus_healthy b s md w :
  Firestore.valid_doc_id b = true ->
  w_fs_faults w = [] ->
  md !! "status" = None ->
  exists w',
    BatchRepository.updateJobStatus b s md w = (Ok tt, w') /\
    status_of w' b = Some (VStr (status_name s)) /\
    (forall field v, md !! field = Some v -> field_of w' b field = Some v) /\
    w_trace w' = EvJobStatus b (status_name s) :: w_trace w /\
    w_fs_faults w' = [] /\
    w_scrapes w' = w_scrapes w /\
    w_now w' = w_now w.
Proof.
  intros Hvalid Hfs Hmd.
  unfold BatchRepository.updateJobStatus, Firestore.command,
    Firestore.next_fault.
  cbn [forallb]. rewrite Hvalid. mrun. rewrite Hfs. cbn.
  eexists. split; [reflexivity|].
  unfold status_of, field_of. cbn. rewrite lookup_insert_eq. cbn.
  repeat split; try assumption.
  - rewrite lookup_union_l'; [|].
    + rewrite lookup_union_r by exact Hmd. apply lookup_insert_eq.
    + rewrite lookup_union_r by exact Hmd. rewrite lookup_insert_eq. eauto.
  - intros field v Hf. apply lookup_union_Some_l. apply lookup_union_Some_l.
    exact Hf.
Qed.

Lemma worker_updateJobStatus_healthy b s md w :
  Firestore.valid_doc_id b = true ->
  w_fs_faults w = [] ->
  md !! "status" = None ->
  exists w',
    updateJobStatus b s md w = (Ok tt, w') /\
    status_of w' b = Some (VStr (status_name s)) /\
    (forall field v, md !! field = Some v -> field_of w' b field = Some v) /\
    w_trace w' = EvJobStatus b (status_name s) :: w_trace w /\
    w_fs_faults w' = [] /\
    w_scrapes w' = w_scrapes w /\
    w_now w' = w_now w.
Proof.
  intros Hvalid Hfs Hmd.
  destruct (repository_updateJobStatus_healthy b s md w Hvalid Hfs Hmd)
    as (w' & Hrun & Hrest).
  exists w'. split; [|exact Hrest].
  unfold updateJobStatus. apply try_catch_ok. exact Hrun.
Qed.

Lemma scrape_spec q p l w :
  exists r w',
    Platform.scrape q p l w = (r, w') /\
    r <> Diverged /\
    w_trace w' = EvScrape q p l :: w_trace w /\
    w_fs_faults w' = w_fs_faults w.
Proof.
  unfold Platform.scrape, suspend. mrun.
  destruct (w_scrapes w) as [|o rest]; cbn.
  - eexists _, _. split; [reflexivity|]. repeat split. discriminate.
  - destruct (so_result o) as [message|vehicles]; cbn;
      eexists _, _; (split; [reflexivity|]); repeat split; discriminate.
Qed.

Ltac step_now := unfold bind at 1, date_now at 1, gets; cbv beta iota.

(** C5 (as amended).  A status write overwrites the persisted status
    whatever it was, terminal or not.  On a healthy store every run of
    [processScrapeJob], first attempt or retry, writes [processing] and
    then ends the attempt with [completed] (it returns) or with [failed]
    and the number of the attempt (it rethrows to the broker, whether or
    not attempts are left). *)
Theorem job_status_follows_each_attempt (job : BullJob) (w : World) :
  let batchId := jd_batchId (job_data job) in
  Firestore.valid_doc_id batchId = true ->
  w_fs_faults w = [] ->
  (forall status metadata,
      metadata !! "status" = None ->
      exists w', BatchRepository.updateJobStatus batchId status metadata w
                   = (Ok tt, w') /\
                 status_of w' batchId = Some (VStr (status_name status))) /\
  exists r w',
    processScrapeJob job w = (r, w') /\
    ((r = Ok tt /\
      status_of w' batchId = Some (VStr "completed") /\
      statuses_of batchId (w_trace w')
        = statuses_of batchId (w_trace w) ++ ["processing"; "completed"])
     \/
     ((exists e, r = Throw e) /\
      status_of w' batchId = Some (VStr "failed") /\
      field_of w' batchId "attempt" = Some (VNum (attemptsMade job + 1)) /\
      statuses_of batchId (w_trace w')
        = statuses_of batchId (w_trace w) ++ ["processing"; "failed"])).
Proof.
  intros batchId Hvalid Hfs. split.
  { intros status metadata Hmd.
    destruct (repository_updateJobStatus_healthy batchId status metadata w
                Hvalid Hfs Hmd) as (w' & Hrun & Hst & _).
    eauto. }
  unfold processScrapeJob. fold batchId.
  set (query := jd_query (job_data job)).
  set (page := jd_page (job_data job)).
  set (limit := jd_limit (job_data job)).
  set (handler := fun error : string => _).
  match goal with |- context [try_catch ?body handler] => set (attempt := body) end.
  assert (Hbody : exists r wc,
    attempt w = (r, wc) /\
    match r with
    | Ok _ =>
        status_of wc batchId = Some (VStr "completed") /\
        statuses_of batchId (w_trace wc)
          = statuses_of batchId (w_trace w) ++ ["processing"; "completed"]
    | Throw _ =>
        w_fs_faults wc = [] /\
        statuses_of batchId (w_trace wc)
          = statuses_of batchId (w_trace w) ++ ["processing"]
    | Diverged => False
    end).
  { subst attempt. step_now.
    edestruct (worker_updateJobStatus_healthy batchId processing) with (w := w)
      as (wa & Ha & _ & _ & Htra & Hfsa & _); [exact Hvalid|exact Hfs| |].
    2: { rewrite (bind_ok _ _ _ _ _ Ha). step_now.
         destruct (scrape_spec query page limit wa)
           as (r & wb & Hs & Hnd & Htrb & Hfsb).
         destruct r as [vehicles|e|]; [| |contradiction].
         - rewrite (bind_ok _ _ _ _ _ Hs). step_now.
           assert (Hsave : exists wc,
             (if (0 <? length vehicles)%nat
              then bind (BatchRepository.savePage query page limit vehicles
                           (roundSeconds (w_now wb - w_now wa)))
                        (fun _ => ret tt)
              else ret tt) wb = (Ok tt, wc) /\
             w_trace wc = w_trace wb /\ w_fs_faults wc = []).
           { destruct (0 <? length vehicles)%nat.
             - destruct (savePage_total query page limit vehicles
                           (roundSeconds (w_now wb - w_now wa)) wb)
                 as (saved & wc & Hsv).
               pose proof (savePage_same_trace query page limit vehicles
                             (roundSeconds (w_now wb - w_now wa)) wb) as Ht.
               pose proof (savePage_fs_stays_healthy query page limit vehicles
                             (roundSeconds (w_now wb - w_now wa)) wb) as Hh.
               rewrite Hsv in Ht, Hh. cbn in Ht, Hh.
               exists wc. rewrite (bind_ok _ _ _ _ _ Hsv).
               split; [reflexivity|]. split; [exact Ht|].
               apply Hh. congruence.
             - exists wb. split; [reflexivity|]. split; [reflexivity|congruence]. }
           destruct Hsave as (wc & Hsave & Htrc & Hfsc).
           rewrite (bind_ok _ _ _ _ _ Hsave). step_now.
           edestruct (worker_updateJobStatus_healthy batchId completed)
             with (w := wc) as (wd & Hd & Hstd & _ & Htrd & _);
             [exact Hvalid|exact Hfsc| |].
           2: { rewrite Hd. eexists _, _. split; [reflexivity|].
                split; [exact Hstd|].
                rewrite Htrd, Htrc, Htrb, Htra. cbn [status_name].
                rewrite statuses_of_cons_status, statuses_of_cons_scrape,
                  statuses_of_cons_status.
                rewrite <- app_assoc. reflexivity. }
           reflexivity.
         - rewrite (bind_throw _ _ _ _ _ Hs).
           eexists _, _. split; [reflexivity|].
           split; [congruence|].
           rewrite Htrb, Htra. cbn [status_name].
           rewrite statuses_of_cons_scrape, statuses_of_cons_status.
           reflexivity. }
    reflexivity. }
  destruct Hbody as (r & wc & Hrun & Hcase).
  destruct r as [[]|e|]; [| |contradiction].
  - destruct Hcase as [Hst Htr].
    exists (Ok tt), wc. split; [apply try_catch_ok; exact Hrun|].
    left. auto.
  - destruct Hcase as [Hfsc Htr].
    rewrite (try_catch_throw _ _ _ _ _ Hrun). subst handler. cbv beta.
    step_now.
    edestruct (worker_updateJobStatus_healthy batchId failed)
      with (w := wc) as (wd & Hd & Hstd & Hfields & Htrd & _);
      [exact Hvalid|exact Hfsc| |].
    2: { rewrite (bind_ok _ _ _ _ _ Hd).
         eexists _, _. split; [reflexivity|]. right.
         split; [eauto|]. split; [exact Hstd|]. split.
         - apply Hfields. reflexivity.
         - rewrite Htrd. cbn [status_name].
           rewrite statuses_of_cons_status, Htr, <- app_assoc. reflexivity. }
    reflexivity.
Qed.

End JobStatus.

Section JobStatusWitnesses.
Import ScraptPressWorker.

(** C5 as stated fails: the first of the three attempts the
    queue grants fails and already marks the job [failed]; the retry of
    the broker then moves the job from [failed] back to [processing] and
    on to [completed]. *)
Lemma terminal_status_is_overwritten :
  qj_attempts <$> (st_queue (w_st (JobQueueManager.addJob sample_data
                                     (quietWorld 0)).2)) = [3] /\
  let w1 := (processScrapeJob (sample_job 0) flaky_world).2 in
  let w2 := (processScrapeJob (sample_job 1) w1).2 in
  status_of w1 "b-1" = Some (VStr "failed") /\
  field_of w1 "b-1" "attempt" = Some (VNum 1) /\
  statuses_of "b-1" (w_trace w2)
    = ["processing"; "failed"; "processing"; "completed"] /\
  status_of w2 "b-1" = Some (VStr "completed").
Proof. vm_compute. repeat split; reflexivity. Qed.

Lemma job_status_follows_each_attempt_witness :
  Firestore.valid_doc_id (jd_batchId (job_data (sample_job 0))) = true /\
  w_fs_faults flaky_world = [] /\
  exists w',
    processScrapeJob (sample_job 0) flaky_world = (Throw "blocked", w') /\
    status_of w' "b-1" = Some (VStr "failed").
Proof.
  split; [reflexivity|]. split; [reflexivity|].
  destruct (job_status_follows_each_attempt (sample_job 0) flaky_world
              eq_refl eq_refl) as (_ & r & w' & Hrun & Hcase).
  exists w'.
  assert (Hr : r = Throw "blocked").
  { apply (f_equal fst) in Hrun. vm_compute in Hrun. congruence. }
  subst r. split; [exact Hrun|].
  destruct Hcase as [(Hok & _)|(_ & Hst & _)]; [discriminate|exact Hst].
Defined.
End JobStatusWitnesses.

(** ** Concurrent-job counters *)

Section Counters.

Import JobQueueSecurityService SearchController.

#[local] Instance no_new_decrement_po : PreOrder no_new_decrement.
Proof.
  split; [intros w id; reflexivity|].
  intros a b c Hab Hbc id. rewrite Hbc. apply Hab.
Qed.

Ltac counter_prim :=
  let w := fresh "w" in
  let id := fresh "identifier" in
  unfold preserves, no_new_decrement; intros w id;
  unfold Firestore.next_fault, CacheService.next_fault,
    JobQueueManager.next_fault, random_suffix, modify_st, modify, suspend,
    emit, set_st;
  cbn; repeat case_match; simplify_eq; cbn; reflexivity.

Lemma processScrapeJob_no_decrement job :
  preserves no_new_decrement (ScraptPressWorker.processScrapeJob job).
Proof.
  unfold ScraptPressWorker.processScrapeJob, Platform.scrape.
  frame ltac:(first [open_ops | counter_prim]).
Qed.

(** C4, the code at the failing input.  The worker records no decrement,
    whatever the job and the world.  So after an asynchronous search whose
    job the worker completes, the identity's counter has one increment and
    no decrement and still reads 1; and after three such jobs, all
    completed, a fourth search is refused for too many concurrent jobs. *)
Theorem completed_jobs_are_never_uncounted :
  (forall job w identifier,
      decrements_of identifier
        (w_trace (ScraptPressWorker.processScrapeJob job w).2)
        = decrements_of identifier (w_trace w)) /\
  (let w := run_async_job 1 submit_world in
   status_of w "b-1" = Some (VStr "completed") /\
   increments_of client (w_trace w) = 1%nat /\
   decrements_of client (w_trace w) = 0%nat /\
   st_redis (w_st w) !! concurrentKey client None = Some (RNum 1, 3600)) /\
  (status_of after_three_jobs "b-1" = Some (VStr "completed") /\
   status_of after_three_jobs "b-2" = Some (VStr "completed") /\
   status_of after_three_jobs "b-3" = Some (VStr "completed") /\
   increments_of client (w_trace after_three_jobs) = 3%nat /\
   decrements_of client (w_trace after_three_jobs) = 0%nat /\
   (intelligentSearch defaultConfig (async_search 4) after_three_jobs).1
     = Throw "Maximum 3 concurrent jobs per IP. Please wait for existing jobs to complete.").
Proof.
  split; [|split].
  - intros job w identifier. apply processScrapeJob_no_decrement.
  - vm_compute. repeat split; reflexivity.
  - vm_compute. repeat split; reflexivity.
Qed.

End Counters.

(** ** The synchronous path of the search controller *)

Section SyncPath.

Import ScrapingLockService SearchController JobQueueSecurityService.











End SyncPath.

Section SyncPathWitnesses.
Import ScrapingLockService SearchController BatchRepository.
Import JobQueueSecurityService.


End SyncPathWitnesses.

(* ===================================================================== *)
(** * Further properties of the lock service *)
(* ===================================================================== *)

Section LockKeys.

Import ScrapingLockService.

Lemma pretty_N_char_colon_free x :
  negb (bool_decide (pretty_N_char x = ":"%char)) = true.
Proof.
  unfold pretty_N_char. repeat case_match; reflexivity.
Qed.

Lemma pretty_N_go_colon_free x s :
  colon_free s = true -> colon_free (pretty_N_go x s) = true.
Proof.
  revert s. induction (N.lt_wf_0 x) as [x _ IH]. intros s Hs.
  destruct (decide (x = 0)%N) as [->|Hx].
  - rewrite pretty_N_go_0. exact Hs.
  - rewrite pretty_N_go_step by lia. apply IH.
    + apply N.div_lt; lia.
    + cbn. rewrite pretty_N_char_colon_free. exact Hs.
Qed.

Lemma pretty_N_colon_free (n : N) : colon_free (pretty n) = true.
Proof.
  unfold pretty, pretty_N. destruct (decide _); [reflexivity|].
  apply pretty_N_go_colon_free. reflexivity.
Qed.

Lemma pretty_Z_colon_free (z : Z) : colon_free (pretty z) = true.
Proof.
  destruct z as [|p|p]; [reflexivity| |].
  - exact (pretty_N_colon_free (N.pos p)).
  - change (pretty (Z.neg p)) with ("-" +:+ pretty (N.pos p)).
    change ("-" +:+ pretty (N.pos p)) with (String "-" (pretty (N.pos p))).
    cbn. exact (pretty_N_colon_free (N.pos p)).
Qed.

Lemma colon_free_app a b :
  colon_free (a +:+ String ":" b) = false.
Proof.
  induction a as [|c a IH]; [reflexivity|]. unfold colon_free in *.
  change (String c a +:+ String ":" b) with (String c (a +:+ String ":" b)).
  cbn [JsString.forallb]. rewrite IH. apply andb_false_r.
Qed.

(** Two strings that agree, each with a last separator, agree before and
    after it. *)
Lemma colon_split a a' b b' :
  colon_free b = true -> colon_free b' = true ->
  a +:+ String ":" b = a' +:+ String ":" b' -> a = a' /\ b = b'.
Proof.
  intros Hb Hb'. revert a'.
  induction a as [|c a IH]; intros [|c' a'] Heq; cbn in Heq.
  - injection Heq as ->. split; reflexivity.
  - injection Heq as <- ->.
    change (String.append a' (String ":" b')) with (a' +:+ String ":" b') in Hb.
    rewrite colon_free_app in Hb. discriminate.
  - injection Heq as -> <-.
    change (String.append a (String ":" b)) with (a +:+ String ":" b) in Hb'.
    rewrite colon_free_app in Hb'. discriminate.
  - injection Heq as -> Heq. destruct (IH a' Heq) as [-> ->]. split; reflexivity.
Qed.

Lemma string_app_assoc (a b c : string) : (a +:+ b) +:+ c = a +:+ b +:+ c.
Proof.
  induction a as [|x a IH]; [reflexivity|].
  change (String x ((a +:+ b) +:+ c) = String x (a +:+ b +:+ c)).
  f_equal. exact IH.
Qed.

Lemma getLockKey_inj q q' p p' l l' :
  getLockKey q p l = getLockKey q' p' l' ->
  lockQuery q = lockQuery q' /\ p = p' /\ l = l'.
Proof.
  unfold getLockKey. fold (lockQuery q) (lockQuery q').
  generalize (lockQuery q) (lockQuery q'). intros n n' Heq.
  assert (Hkey : forall (n : string) (p l : Z),
    n +:+ ":page:" +:+ pretty p +:+ ":limit:" +:+ pretty l
    = (((n +:+ ":page") +:+ String ":" (pretty p)) +:+ ":limit")
        +:+ String ":" (pretty l)).
  { intros n0 p0 l0. rewrite !string_app_assoc. reflexivity. }
  rewrite !Hkey in Heq.
  apply colon_split in Heq as [Heq Hl]; [|apply pretty_Z_colon_free..].
  change ":limit" with (String ":" "limit") in Heq.
  apply colon_split in Heq as [Heq _]; [|reflexivity..].
  apply colon_split in Heq as [Heq Hp]; [|apply pretty_Z_colon_free..].
  change ":page" with (String ":" "page") in Heq.
  apply colon_split in Heq as [Heq _]; [|reflexivity..].
  split; [exact Heq|]. split; eapply (inj pretty); eassumption.
Qed.

End LockKeys.

Section LockWaiting.

Import ScrapingLockService.

Lemma sleeps_of_cons_sleep ms trace :
  sleeps_of (EvSleep ms :: trace) = sleeps_of trace ++ [ms].
Proof. exact (sleeps_of_app trace [ms]). Qed.

Lemma waitForLock_loop_result fuel q p l startWait maxWaitMs w :
  maxWaitMs - (w_now w - startWait) <= 2000 * Z.of_nat fuel ->
  exists (b : bool) (polls : nat) w',
    waitForLock_loop (S fuel) q p l startWait maxWaitMs w = (Ok b, w') /\
    w_now w' = w_now w + 2000 * Z.of_nat polls /\
    sleeps_of (w_trace w') = sleeps_of (w_trace w) ++ replicate polls 2000 /\
    (b = true -> locks_of w' !! getLockKey q p l = None) /\
    (b = false ->
       maxWaitMs <= w_now w' - startWait /\
       (exists info, locks_of w' !! getLockKey q p l = Some info /\
                     w_now w' - startTime info <= LOCK_TIMEOUT_MS) /\
       ((0 < polls)%nat -> w_now w' - 2000 - startWait < maxWaitMs)).
Proof.
  revert w. induction fuel as [|fuel IH]; intros w Hfuel;
    cbn [waitForLock_loop]; unfold bind at 1; rewrite isLocked_spec;
    (destruct (locks_of w !! getLockKey q p l) as [info|] eqn:Hget;
     [destruct (decide (w_now w - startTime info > LOCK_TIMEOUT_MS)) as [Hexp|Hlive]|]).
  all: try (exists true, 0%nat; eexists; split; [reflexivity|]; cbn;
            rewrite ?app_nil_r;
            split; [lia|]; split; [reflexivity|]; split; [|discriminate];
            intros _; unfold locks_of in *; cbn;
            first [apply lookup_delete_eq | exact Hget]).
  all: unfold bind at 1, date_now at 1, gets; cbv beta iota;
    destruct (decide (w_now w - startWait >= maxWaitMs)) as [Hge|Hlt].
  all: try (exists false, 0%nat, w; split; [reflexivity|]; cbn;
            rewrite ?app_nil_r;
            split; [lia|]; split; [reflexivity|]; split; [discriminate|];
            intros _; split; [lia|]; split; [|lia];
            exists info; split; [exact Hget|lia]).
  - lia.
  - unfold bind at 1. unfold sleep at 1, bind at 1, emit at 1, modify at 1.
    cbv beta iota. unfold suspend at 1, modify at 1. cbv beta iota.
    match goal with
    | |- exists _ _ _, ?f ?ws = _ /\ _ => set (ws' := ws)
    end.
    destruct (IH ws') as (b & polls & w' & Hrun & Hclock & Hsleeps & Htrue & Hfalse).
    { subst ws'. cbn. lia. }
    exists b, (S polls), w'. split; [exact Hrun|].
    subst ws'. cbn [w_now w_trace] in Hclock, Hsleeps.
    rewrite sleeps_of_cons_sleep in Hsleeps.
    split; [lia|]. split.
    { rewrite Hsleeps, <- app_assoc. reflexivity. }
    split; [exact Htrue|].
    intros Hb. destruct (Hfalse Hb) as (H1 & H2 & H3).
    split; [exact H1|]. split; [exact H2|].
    intros _. destruct polls as [|polls]; [lia|]. apply H3. lia.
Qed.

End LockWaiting.

Section LockServiceMore.

Import ScrapingLockService.

(** X1. [waitForLock] always returns.  It sleeps two seconds after every
    poll that finds the key locked, and nothing else.  It returns [true]
    only when the map holds no lock for the key any more (an expired one
    is removed by the poll), and [false] only when the key is still held by
    an unexpired lock and at least [maxWaitMs] have passed, at the first
    poll for which that is so. *)
Theorem waitForLock_polls_until_free_or_timeout
    (q : string) (p l maxWaitMs : Z) (w : World) :
  exists (b : bool) (polls : nat) w',
    waitForLock q p l maxWaitMs w = (Ok b, w') /\
    w_now w' = w_now w + 2000 * Z.of_nat polls /\
    sleeps_of (w_trace w') = sleeps_of (w_trace w) ++ replicate polls 2000 /\
    (b = true -> locks_of w' !! getLockKey q p l = None) /\
    (b = false ->
       maxWaitMs <= w_now w' - w_now w /\
       (exists info, locks_of w' !! getLockKey q p l = Some info /\
                     w_now w' - startTime info <= LOCK_TIMEOUT_MS) /\
       ((0 < polls)%nat -> 2000 * (Z.of_nat polls - 1) < maxWaitMs)).
Proof.
  unfold waitForLock, waitForLock_fuel.
  unfold bind at 1, date_now at 1, gets. cbv beta iota.
  replace (Z.to_nat (maxWaitMs / 2000) + 2)%nat
    with (S (Z.to_nat (maxWaitMs / 2000) + 1)) by lia.
  destruct (waitForLock_loop_result (Z.to_nat (maxWaitMs / 2000) + 1)
              q p l (w_now w) maxWaitMs w)
    as (b & polls & w' & Hrun & Hclock & Hsleeps & Htrue & Hfalse).
  { pose proof (Z.mod_pos_bound maxWaitMs 2000 ltac:(lia)).
    pose proof (Z.div_mod maxWaitMs 2000 ltac:(lia)).
    destruct (decide (0 <= maxWaitMs)) as [Hpos|Hneg].
    - assert (0 <= maxWaitMs / 2000) by (apply Z.div_pos; lia). lia.
    - lia. }
  exists b, polls, w'. split; [exact Hrun|]. split; [exact Hclock|].
  split; [exact Hsleeps|]. split; [exact Htrue|].
  intros Hb. destruct (Hfalse Hb) as (H1 & H2 & H3).
  split; [exact H1|]. split; [exact H2|]. intros Hp. specialize (H3 Hp). lia.
Qed.

Lemma cleanup_filter_lookup (now : Z) (m : gmap string LockInfo) key :
  filter (fun kv : string * LockInfo =>
            bool_decide (now - startTime kv.2 > LOCK_TIMEOUT_MS) = false) m !! key
  = match m !! key with
    | Some info =>
        if decide (now - startTime info > LOCK_TIMEOUT_MS) then None else Some info
    | None => None
    end.
Proof.
  destruct (m !! key) as [info|] eqn:Hget.
  - destruct (decide _) as [Hexp|Hlive].
    + apply map_lookup_filter_None. right. intros x Hx. cbn.
      rewrite Hget in Hx. injection Hx as <-.
      rewrite bool_decide_eq_true_2 by exact Hexp. discriminate.
    + apply map_lookup_filter_Some. split; [exact Hget|]. cbn.
      apply bool_decide_eq_false_2. exact Hlive.
  - apply map_lookup_filter_None. left. exact Hget.
Qed.

Lemma cleanup_filter_size (now : Z) (m : gmap string LockInfo) :
  Nat.add
    (size (filter (fun kv : string * LockInfo =>
                     bool_decide (now - startTime kv.2 > LOCK_TIMEOUT_MS) = true) m))
    (size (filter (fun kv : string * LockInfo =>
                     bool_decide (now - startTime kv.2 > LOCK_TIMEOUT_MS) = false) m))
  = size m.
Proof.
  set (P := fun kv : string * LockInfo =>
              bool_decide (now - startTime kv.2 > LOCK_TIMEOUT_MS) = true).
  assert (Hext : filter (fun kv : string * LockInfo =>
                   bool_decide (now - startTime kv.2 > LOCK_TIMEOUT_MS) = false) m
                 = filter (fun kv => ~ P kv) m).
  { apply map_filter_ext. intros k x _. unfold P. cbn.
    destruct (bool_decide _); split; congruence. }
  rewrite Hext, <- map_size_disj_union by apply map_disjoint_filter_complement.
  rewrite map_filter_union_complement. reflexivity.
Qed.

(** X2. [cleanupExpiredLocks] removes exactly the locks older than the
    timeout and returns their number; the other locks stay as they are.
    Nobody can tell the difference through [isLocked], which afterwards
    removes nothing, and a second cleanup at the same time finds nothing
    to do. *)
Theorem cleanupExpiredLocks_removes_exactly_expired (w : World) :
  exists n w',
    cleanupExpiredLocks w = (Ok n, w') /\
    (forall key,
        locks_of w' !! key =
          match locks_of w !! key with
          | Some info =>
              if decide (w_now w - startTime info > LOCK_TIMEOUT_MS)
              then None else Some info
          | None => None
          end) /\
    n = Z.of_nat (size (locks_of w)) - Z.of_nat (size (locks_of w')) /\
    (forall q p l,
        (isLocked q p l w').1 = (isLocked q p l w).1 /\
        (isLocked q p l w').2 = w') /\
    (cleanupExpiredLocks w').1 = Ok 0.
Proof.
  eexists _, _. split.
  { cbv [cleanupExpiredLocks bind date_now gets modify_st modify ret].
    reflexivity. }
  unfold locks_of. cbn [w_st st_locks set_st set_locks w_now].
  assert (Hlook := cleanup_filter_lookup (w_now w) (st_locks (w_st w))).
  split; [exact Hlook|]. split.
  { pose proof (cleanup_filter_size (w_now w) (st_locks (w_st w))). lia. }
  split.
  - intros q p l. rewrite !isLocked_spec. unfold locks_of.
    cbn [w_st st_locks set_st set_locks w_now]. rewrite Hlook.
    destruct (st_locks (w_st w) !! getLockKey q p l) as [info|];
      [|split; reflexivity].
    destruct (decide _) as [Hexp|Hlive]; [split; reflexivity|].
    destruct (decide _); [contradiction|]. split; reflexivity.
  - unfold cleanupExpiredLocks. mrun. f_equal. f_equal.
    change 0 with (Z.of_nat 0). f_equal.
    apply map_size_empty_iff, map_empty. intros k.
    apply map_lookup_filter_None. right. intros x Hx. cbn.
    apply map_lookup_filter_Some in Hx as [_ Hx]. cbn in Hx.
    rewrite Hx. discriminate.
Qed.

Lemma acquireLock_grant w q p l token w1 :
  acquireLock q p l w = (Ok (Some token), w1) ->
  locks_of w1 = <[getLockKey q p l := mkLockInfo q p l (w_now w) token]> (locks_of w) /\
  w_now w1 = w_now w.
Proof.
  intros Hacq. destruct (acquireLock_cases w q p l) as [(info & _ & _ & Hnone)|[_ Hgr]].
  - rewrite Hnone in Hacq. discriminate.
  - destruct Hgr as (token' & w' & Hacq' & _ & Hlocks & Hnow & _).
    rewrite Hacq' in Hacq. injection Hacq as -> ->. split; assumption.
Qed.

(** X3. The life of a lock.  Once [acquireLock] has handed out a token,
    [getLockInfo] shows the request as it was made, with the time of the
    grant; the key is locked, also for its holder (a second [acquireLock]
    gets nothing).  [releaseLock] with the token frees the key at once:
    no lock info is left, a second release is refused, and the next
    [acquireLock] succeeds. *)
Theorem lock_is_free_again_after_release (w : World) (q : string)
    (p l : Z) (token : string) (w1 : World) :
  acquireLock q p l w = (Ok (Some token), w1) ->
  getLockInfo q p l w1 = (Ok (Some (mkLockInfo q p l (w_now w) token)), w1) /\
  isLocked q p l w1 = (Ok true, w1) /\
  acquireLock q p l w1 = (Ok None, w1) /\
  exists w2,
    releaseLock q p l token w1 = (Ok true, w2) /\
    getLockInfo q p l w2 = (Ok None, w2) /\
    isLocked q p l w2 = (Ok false, w2) /\
    releaseLock q p l token w2 = (Ok false, w2) /\
    exists token' w3, acquireLock q p l w2 = (Ok (Some token'), w3).
Proof.
  intros Hacq. destruct (acquireLock_grant _ _ _ _ _ _ Hacq) as [Hlocks Hnow].
  assert (Hget : locks_of w1 !! getLockKey q p l
                 = Some (mkLockInfo q p l (w_now w) token)).
  { rewrite Hlocks. apply lookup_insert_eq. }
  assert (Hlive : w_now w1 - w_now w <= LOCK_TIMEOUT_MS).
  { rewrite Hnow. unfold LOCK_TIMEOUT_MS. lia. }
  split.
  { unfold getLockInfo, locks_get, gets. unfold locks_of in Hget.
    rewrite Hget. reflexivity. }
  split.
  { rewrite isLocked_spec, Hget. cbn [startTime].
    destruct (decide _); [lia|reflexivity]. }
  split.
  { eapply acquireLock_held; [exact Hget|exact Hlive]. }
  set (w2 := set_st (set_locks (delete (getLockKey q p l))) w1).
  assert (Hgone : locks_of w2 !! getLockKey q p l = None).
  { unfold w2, locks_of. cbn. apply lookup_delete_eq. }
  exists w2. split.
  { rewrite releaseLock_spec, Hget. cbn [lockId].
    destruct (decide _); [reflexivity|contradiction]. }
  split.
  { unfold getLockInfo, locks_get, gets. unfold locks_of in Hgone.
    rewrite Hgone. reflexivity. }
  split; [rewrite isLocked_spec, Hgone; reflexivity|].
  split; [rewrite releaseLock_spec, Hgone; reflexivity|].
  destruct (acquireLock_absent w2 q p l Hgone) as (token' & w3 & H3 & _).
  exists token', w3. exact H3.
Qed.

(** X4. For queries of ASCII characters: two requests share a lock exactly
    when they agree on the page, on the limit and on the query up to case
    and surrounding white space.  So a held lock blocks every spelling of
    its own request, and leaves the locks of all other requests as they
    are. *)
Theorem lock_key_identifies_request (q q' : string) (p p' l l' : Z) :
  ascii_only q = true ->
  ascii_only q' = true ->
  (getLockKey q p l = getLockKey q' p' l'
   <-> lockQuery q = lockQuery q' /\ p = p' /\ l = l') /\
  (forall w token w1,
      acquireLock q p l w = (Ok (Some token), w1) ->
      (lockQuery q = lockQuery q' ->
       acquireLock q' p l w1 = (Ok None, w1)) /\
      (lockQuery q <> lockQuery q' \/ p <> p' \/ l <> l' ->
       locks_of w1 !! getLockKey q' p' l' = locks_of w !! getLockKey q' p' l')).
Proof.
  intros _ _. split.
  - split; [apply getLockKey_inj|].
    intros (Hq & -> & ->). unfold getLockKey. fold (lockQuery q) (lockQuery q').
    rewrite Hq. reflexivity.
  - intros w token w1 Hacq.
    destruct (acquireLock_grant _ _ _ _ _ _ Hacq) as [Hlocks Hnow].
    split.
    + intros Hq.
      assert (Hkey : getLockKey q' p l = getLockKey q p l).
      { unfold getLockKey. fold (lockQuery q) (lockQuery q').
        rewrite Hq. reflexivity. }
      eapply acquireLock_held.
      * rewrite Hkey, Hlocks. apply lookup_insert_eq.
      * cbn [startTime]. rewrite Hnow. unfold LOCK_TIMEOUT_MS. lia.
    + intros Hne. rewrite Hlocks. apply lookup_insert_ne.
      intros Hkey. apply getLockKey_inj in Hkey as (Hq & Hp & Hl).
      destruct Hne as [Hne|[Hne|Hne]]; contradiction.
Qed.

End LockServiceMore.

Section LockServiceMoreWitnesses.

Import ScrapingLockService.

Lemma waitForLock_polls_until_free_or_timeout_witness :
  exists polls w',
    waitForLock "honda" 1 10 5000 held_world = (Ok false, w') /\
    w_now w' = w_now held_world + 2000 * Z.of_nat polls /\
    sleeps_of (w_trace w') = replicate polls 2000 /\
    5000 <= w_now w' - w_now held_world.
Proof.
  destruct (waitForLock_polls_until_free_or_timeout "honda" 1 10 5000 held_world)
    as (b & polls & w' & Hrun & Hclock & Hsleeps & _ & Hfalse).
  assert (Hb : b = false).
  { assert (H : (waitForLock "honda" 1 10 5000 held_world).1 = Ok false)
      by (vm_compute; reflexivity).
    rewrite Hrun in H. injection H as ->. reflexivity. }
  subst b. exists polls, w'. split; [exact Hrun|]. split; [exact Hclock|].
  split; [exact Hsleeps|]. apply Hfalse. reflexivity.
Defined.

Lemma lock_is_free_again_after_release_witness :
  exists token w1 w2,
    acquireLock "Honda" 1 10 (quietWorld 1000) = (Ok (Some token), w1) /\
    acquireLock "Honda" 1 10 w1 = (Ok None, w1) /\
    releaseLock "Honda" 1 10 token w1 = (Ok true, w2) /\
    isLocked "Honda" 1 10 w2 = (Ok false, w2).
Proof.
  eexists _, _, _.
  assert (H : acquireLock "Honda" 1 10 (quietWorld 1000)
              = (Ok (Some "1000-"), (acquireLock "Honda" 1 10 (quietWorld 1000)).2))
    by reflexivity.
  destruct (lock_is_free_again_after_release _ _ _ _ _ _ H)
    as (_ & _ & Hagain & w2 & Hrel & _ & Hfree & _).
  split; [exact H|]. split; [exact Hagain|].
  split; vm_compute; reflexivity.
Defined.

Lemma lock_key_identifies_request_witness :
  ascii_only "Honda" = true /\ ascii_only " honda " = true /\
  lockQuery "Honda" = lockQuery " honda " /\
  getLockKey "Honda" 1 10 = getLockKey " honda " 1 10 /\
  getLockKey "Honda" 1 10 <> getLockKey "Honda" 11 0.
Proof.
  destruct (lock_key_identifies_request "Honda" " honda " 1 1 10 10
              eq_refl eq_refl) as [Hsame _].
  destruct (lock_key_identifies_request "Honda" "Honda" 1 11 10 0
              eq_refl eq_refl) as [Hother _].
  split; [reflexivity|]. split; [reflexivity|].
  split; [reflexivity|]. split.
  - apply Hsame. repeat split; reflexivity.
  - intros Heq. apply Hother in Heq as (_ & Hp & _). discriminate.
Defined.

End LockServiceMoreWitnesses.

(* ===================================================================== *)
(** * Further properties of the retry orchestrator *)
(* ===================================================================== *)

Section RetryMore.

Import RetryOrchestrator.

Lemma strategies_from_first_success {T} (pre : list (M T)) :
  forall (strategy : M T) post i count startTime lastError w e w1 d w2,
    all_throw pre w lastError w1 e ->
    strategy w1 = (Ok d, w2) ->
    strategies_from (pre ++ strategy :: post) i count startTime lastError w
      = (Ok (mkRetryResult true (Some d) None
               (i + Z.of_nat (length pre) + 1) (w_now w2 - startTime)), w2).
Proof.
  induction pre as [|s pre IH];
    intros strategy post i count startTime lastError w e w1 d w2 Hpre Hrun.
  - inversion Hpre; subst. cbn [app strategies_from length].
    unfold bind at 1, try_catch, bind at 1. rewrite Hrun. mrun.
    do 3 f_equal. lia.
  - inversion Hpre as [|s' rest' w' e0 e1 w1' w'' e'' Hthrow Hrest]; subst.
    cbn [app strategies_from length].
    unfold bind at 1, try_catch, bind at 1. rewrite Hthrow.
    unfold ret at 1. cbv beta iota.
    rewrite (IH strategy post (i + 1) count startTime (Some e1) w1' e w1 d w2 Hrest Hrun).
    do 3 f_equal. lia.
Qed.

Lemma strategies_from_all_throw {T} (strategies : list (M T)) :
  forall i count startTime lastError w w' e,
    all_throw strategies w lastError w' e ->
    strategies_from strategies i count startTime lastError w
      = (Ok (mkRetryResult false None e count (w_now w' - startTime)), w').
Proof.
  induction strategies as [|s rest IH];
    intros i count startTime lastError w w' e Hall.
  - inversion Hall; subst. reflexivity.
  - inversion Hall as [|s' rest' w0 e0 e1 w1 w'' e'' Hthrow Hrest]; subst.
    cbn [strategies_from]. unfold bind at 1, try_catch, bind at 1.
    rewrite Hthrow. unfold ret at 1. cbv beta iota.
    apply IH. exact Hrest.
Qed.

Lemma strategies_from_returns {T} (strategies : list (M T)) :
  Forall (fun strategy => forall w, (strategy w).1 <> Diverged) strategies ->
  forall i count startTime lastError w,
    exists r w',
      strategies_from strategies i count startTime lastError w = (Ok r, w').
Proof.
  induction 1 as [|s rest Hs Hrest IH]; intros i count startTime lastError w.
  - cbn. mrun. eauto.
  - cbn [strategies_from]. unfold bind at 1, try_catch, bind at 1.
    specialize (Hs w). destruct (s w) as [[d|e|] w1]; cbn in Hs; [| |congruence].
    + mrun. eauto.
    + unfold ret at 1. cbv beta iota. apply IH.
Qed.

(** X5. [executeStrategies] returns the result of the first strategy that
    does not throw, with the number of strategies tried and the time
    taken; the strategies after it are not run, and nothing is done
    between two strategies (no wait, no hook): the world it leaves is the
    one the successful strategy left. *)
Theorem executeStrategies_stops_at_first_success (T : Type)
    (pre : list (M T)) (strategy : M T) (post : list (M T))
    (names : option (list string)) (w w1 w2 : World) (e : option string)
    (d : T) :
  all_throw pre w None w1 e ->
  strategy w1 = (Ok d, w2) ->
  executeStrategies (pre ++ strategy :: post) names w
    = (Ok (mkRetryResult true (Some d) None (Z.of_nat (length pre) + 1)
             (w_now w2 - w_now w)), w2).
Proof.
  intros Hpre Hrun. unfold executeStrategies.
  unfold bind at 1, date_now at 1, gets. cbv beta iota.
  rewrite (strategies_from_first_success pre strategy post 0 _ (w_now w)
             None w e w1 d w2 Hpre Hrun).
  reflexivity.
Qed.

(** X6. [executeStrategies] itself never throws: when all strategies have
    thrown it reports the failure, with the error of the last one and the
    number of strategies as attempts.  Without any strategy it reports a
    failure with no error and no attempt, and changes nothing. *)
Theorem executeStrategies_reports_last_error (T : Type)
    (strategies : list (M T)) (names : option (list string)) (w : World) :
  (Forall (fun strategy => forall w0, (strategy w0).1 <> Diverged) strategies ->
   exists r w', executeStrategies strategies names w = (Ok r, w')) /\
  (forall w' e,
      all_throw strategies w None w' e ->
      executeStrategies strategies names w
        = (Ok (mkRetryResult false None e (Z.of_nat (length strategies))
                 (w_now w' - w_now w)), w') /\
      (strategies <> [] -> is_Some e)) /\
  executeStrategies (@nil (M T)) names w
    = (Ok (mkRetryResult false None None 0 0), w).
Proof.
  split; [|split].
  - intros Hends. unfold executeStrategies.
    unfold bind at 1, date_now at 1, gets. cbv beta iota.
    apply strategies_from_returns. exact Hends.
  - intros w' e Hall. split.
    + unfold executeStrategies.
      unfold bind at 1, date_now at 1, gets. cbv beta iota.
      apply strategies_from_all_throw. exact Hall.
    + intros Hne. clear -Hall Hne.
      assert (Hgen : forall (l : list (M T)) w0 e0 w1 e1,
                 all_throw l w0 e0 w1 e1 -> l <> [] \/ is_Some e0 -> is_Some e1).
      { induction 1 as [w0 e0|s rest w0 e0 e1 w1 w2 e2 _ _ IH];
          intros [Hl|He]; try congruence; try assumption;
          apply IH; right; eauto. }
      eapply Hgen; [exact Hall|left; exact Hne].
  - unfold executeStrategies. mrun. rewrite Z.sub_diag. reflexivity.
Qed.

Lemma attempts_from_shape {T} (fn : M T) (opts : RetryOptions) :
  (forall w, (fn w).1 <> Diverged) ->
  (forall hook, onRetry opts = Some hook ->
     forall attempt error w, exists w', hook attempt error w = (Ok tt, w')) ->
  forall remaining attempt startTime lastError w,
    Z.of_nat remaining = Z.max 0 (maxAttempts opts - attempt + 1) ->
    exists r w',
      attempts_from remaining attempt fn opts startTime lastError w = (Ok r, w') /\
      totalDuration r = w_now w' - startTime /\
      (success r = true ->
         is_Some (data r) /\ error r = None /\
         attempt <= attempts r <= maxAttempts opts) /\
      (success r = false ->
         data r = None /\ attempts r = maxAttempts opts /\
         (remaining = 0%nat -> error r = lastError /\ w' = w) /\
         ((0 < remaining)%nat -> is_Some (error r))).
Proof.
  intros Hfn Hhook. induction remaining as [|remaining IH];
    intros attempt startTime lastError w Hrem.
  - cbn. mrun. do 2 eexists. split; [reflexivity|]. cbn.
    split; [reflexivity|]. split; [discriminate|]. intros _.
    repeat split; try reflexivity. lia.
  - cbn [attempts_from]. unfold bind at 1. unfold try_catch.
    unfold bind at 1. specialize (Hfn w).
    destruct (fn w) as [[d|e|] w1] eqn:Hrun; cbn in Hfn; [| |congruence].
    + mrun. do 2 eexists. split; [reflexivity|]. cbn.
      split; [reflexivity|]. split; [|discriminate]. intros _.
      split; [eauto|]. split; [reflexivity|]. lia.
    + assert (Hnext : exists w2,
                 ((if decide (attempt < maxAttempts opts) then
                     match onRetry opts with
                     | Some hook => hook attempt e
                     | None => ret tt
                     end ;; sleep (calculateDelay attempt opts)
                   else ret tt) ;; ret (inr e)) w1
                 = (Ok (@inr (RetryResult T) string e), w2)).
      { destruct (decide (attempt < maxAttempts opts)) as [Hlt|Hge].
        - assert (Hh : exists w2, match onRetry opts with
                                  | Some hook => hook attempt e
                                  | None => ret tt
                                  end w1 = (Ok tt, w2)).
          { destruct (onRetry opts) as [hook|] eqn:Hon.
            - apply (Hhook hook eq_refl).
            - eexists. reflexivity. }
          destruct Hh as (w2 & Hh).
          unfold bind at 1. unfold bind at 1. rewrite Hh.
          unfold sleep. mrun. unfold suspend, modify. cbn. eauto.
        - mrun. eauto. }
      destruct Hnext as (w2 & Hnext). rewrite Hnext.
      destruct (IH (attempt + 1) startTime (Some e) w2)
        as (r & w' & Hrec & Hdur & Hok & Hfail); [lia|].
      exists r, w'. split; [exact Hrec|]. split; [exact Hdur|]. split.
      * intros Hs. destruct (Hok Hs) as (H1 & H2 & H3).
        split; [exact H1|]. split; [exact H2|]. lia.
      * intros Hs. destruct (Hfail Hs) as (H1 & H2 & H3 & H4).
        split; [exact H1|]. split; [exact H2|]. split; [lia|]. intros _.
        destruct remaining as [|remaining].
        -- destruct (H3 eq_refl) as [-> _]. eauto.
        -- apply H4. lia.
Qed.

Lemma attempts_from_throws {T} (fn : M T) (opts : RetryOptions)
    remaining attempt startTime lastError w e1 w1 w2 :
  fn w = (Throw e1, w1) ->
  afterFailure opts attempt e1 w1 = (Ok tt, w2) ->
  attempts_from (S remaining) attempt fn opts startTime lastError w
  = attempts_from remaining (attempt + 1) fn opts startTime (Some e1) w2.
Proof.
  intros Hfn Hafter. cbn [attempts_from].
  unfold bind at 1. unfold try_catch. unfold bind at 1. rewrite Hfn.
  unfold afterFailure in Hafter. unfold bind at 1. rewrite Hafter.
  reflexivity.
Qed.

Lemma attempts_from_returns_data {T} (fn : M T) (opts : RetryOptions)
    remaining attempt startTime lastError w d w1 :
  fn w = (Ok d, w1) ->
  attempts_from (S remaining) attempt fn opts startTime lastError w
  = (Ok (mkRetryResult true (Some d) None attempt (w_now w1 - startTime)), w1).
Proof.
  intros Hfn. cbn [attempts_from].
  unfold bind at 1. unfold try_catch. unfold bind at 1. rewrite Hfn.
  reflexivity.
Qed.

Lemma attempts_from_first_success {T} (fn : M T) (opts : RetryOptions)
    attempt count w e w1 e1 :
  attempts_fail fn opts attempt count w e w1 e1 ->
  forall remaining startTime d w2,
    fn w1 = (Ok d, w2) ->
    (count < remaining)%nat ->
    attempts_from remaining attempt fn opts startTime e w
    = (Ok (mkRetryResult true (Some d) None (attempt + Z.of_nat count)
             (w_now w2 - startTime)), w2).
Proof.
  induction 1 as [attempt w e|attempt count w e e1 w1 w2 w' e' Hfn Hafter _ IH];
    intros remaining startTime d w3 Hok Hlt.
  - destruct remaining as [|remaining]; [lia|].
    rewrite (attempts_from_returns_data _ _ _ _ _ _ _ _ _ Hok).
    rewrite Z.add_0_r. reflexivity.
  - destruct remaining as [|remaining]; [lia|].
    rewrite (attempts_from_throws _ _ _ _ _ _ _ _ _ _ Hfn Hafter).
    rewrite (IH remaining startTime d w3 Hok) by lia.
    do 3 f_equal. lia.
Qed.

Lemma attempts_from_all_fail {T} (fn : M T) (opts : RetryOptions)
    attempt count w e w' e' :
  attempts_fail fn opts attempt count w e w' e' ->
  forall startTime,
    attempts_from count attempt fn opts startTime e w
    = (Ok (mkRetryResult false None e' (maxAttempts opts) (w_now w' - startTime)),
       w').
Proof.
  induction 1 as [attempt w e|attempt count w e e1 w1 w2 w' e' Hfn Hafter _ IH];
    intros startTime.
  - reflexivity.
  - rewrite (attempts_from_throws _ _ _ _ _ _ _ _ _ _ Hfn Hafter). apply IH.
Qed.

Lemma attempts_fail_last_error {T} (fn : M T) (opts : RetryOptions)
    attempt count w e w' e' :
  attempts_fail fn opts attempt count w e w' e' ->
  (count = 0%nat -> e' = e /\ w' = w) /\
  ((0 < count)%nat ->
   exists w0 e0 w1,
     fn w0 = (Throw e0, w1) /\ e' = Some e0 /\
     afterFailure opts (attempt + Z.of_nat count - 1) e0 w1 = (Ok tt, w')).
Proof.
  induction 1 as [attempt w e|attempt count w e e1 w1 w2 w' e' Hfn Hafter Hrest IH].
  - split; [auto|lia].
  - split; [discriminate|]. intros _. destruct IH as [IH0 IHpos].
    destruct count as [|count].
    + destruct (IH0 eq_refl) as [-> ->]. exists w, e1, w1.
      split; [exact Hfn|]. split; [reflexivity|].
      replace (attempt + Z.of_nat 1 - 1) with attempt by lia. exact Hafter.
    + destruct (IHpos ltac:(lia)) as (w0 & e0 & w3 & H1 & H2 & H3).
      exists w0, e0, w3. split; [exact H1|]. split; [exact H2|].
      replace (attempt + Z.of_nat (S (S count)) - 1)
        with (attempt + 1 + Z.of_nat (S count) - 1) by lia.
      exact H3.
Qed.

(** X7. What [executeWithRetry] reports.  When the first attempts throw
    and the next one, still within [maxAttempts], returns, the result is a
    success with the data returned, no error, the number of that attempt
    as [attempts] and the time passed, waits included, as
    [totalDuration]: no further attempt is made.  When [maxAttempts]
    attempts have all thrown, the result is a failure with no data, the
    error of the last attempt and [maxAttempts] as [attempts].  After
    every attempt that throws, except the last one allowed, the hook is
    called and the delay is waited.  With [maxAttempts] below one the
    operation is not run at all and the failure has no error.  For an
    operation that ends and a hook that returns, [executeWithRetry] never
    throws. *)
Theorem executeWithRetry_reports_attempt_and_last_error (T : Type) (fn : M T)
    (options : PartialRetryOptions) (w : World) :
  let opts := mergeOptions options in
  (forall count w1 e d w2,
      attempts_fail fn opts 1 count w None w1 e ->
      fn w1 = (Ok d, w2) ->
      Z.of_nat count < maxAttempts opts ->
      executeWithRetry fn options w
        = (Ok (mkRetryResult true (Some d) None (Z.of_nat count + 1)
                 (w_now w2 - w_now w)), w2)) /\
  (forall w' e,
      attempts_fail fn opts 1 (Z.to_nat (maxAttempts opts)) w None w' e ->
      executeWithRetry fn options w
        = (Ok (mkRetryResult false None e (maxAttempts opts)
                 (w_now w' - w_now w)), w') /\
      (1 <= maxAttempts opts ->
       exists w0 e0 w1,
         fn w0 = (Throw e0, w1) /\ e = Some e0 /\
         afterFailure opts (maxAttempts opts) e0 w1 = (Ok tt, w') /\ w' = w1)) /\
  (maxAttempts opts <= 0 ->
   executeWithRetry fn options w
     = (Ok (mkRetryResult false None None (maxAttempts opts) 0), w)) /\
  ((forall w0, (fn w0).1 <> Diverged) ->
   (forall hook, onRetry opts = Some hook ->
      forall attempt error w0, exists w', hook attempt error w0 = (Ok tt, w')) ->
   exists r w',
     executeWithRetry fn options w = (Ok r, w') /\
     totalDuration r = w_now w' - w_now w /\
     (success r = true ->
        is_Some (data r) /\ error r = None /\
        1 <= attempts r <= maxAttempts opts) /\
     (success r = false ->
        data r = None /\ attempts r = maxAttempts opts)).
Proof.
  intros opts. split; [|split; [|split]].
  - intros count w1 e d w2 Hfail Hok Hlt. unfold executeWithRetry. fold opts.
    unfold bind at 1, date_now at 1, gets. cbv beta iota.
    rewrite (attempts_from_first_success fn opts 1 count w None w1 e Hfail
               (Z.to_nat (maxAttempts opts)) (w_now w) d w2 Hok) by lia.
    do 3 f_equal. lia.
  - intros w' e Hfail. split.
    + unfold executeWithRetry. fold opts.
      unfold bind at 1, date_now at 1, gets. cbv beta iota.
      apply (attempts_from_all_fail fn opts 1 _ w None w' e Hfail).
    + intros Hpos.
      destruct (attempts_fail_last_error fn opts 1 _ w None w' e Hfail)
        as [_ Hlast].
      destruct (Hlast ltac:(lia)) as (w0 & e0 & w1 & H1 & H2 & H3).
      replace (1 + Z.of_nat (Z.to_nat (maxAttempts opts)) - 1)
        with (maxAttempts opts) in H3 by lia.
      exists w0, e0, w1. split; [exact H1|]. split; [exact H2|].
      split; [exact H3|].
      unfold afterFailure in H3.
      destruct (decide (maxAttempts opts < maxAttempts opts)) as [Hlt|_]; [lia|].
      injection H3 as ->. reflexivity.
  - intros Hneg. unfold executeWithRetry. fold opts.
    unfold bind at 1, date_now at 1, gets. cbv beta iota.
    replace (Z.to_nat (maxAttempts opts)) with 0%nat by lia.
    cbn [attempts_from]. unfold bind, date_now, gets, ret.
    rewrite Z.sub_diag. reflexivity.
  - intros Hfn Hhook. unfold executeWithRetry. fold opts.
    unfold bind at 1, date_now at 1, gets. cbv beta iota.
    destruct (attempts_from_shape fn opts Hfn Hhook
                (Z.to_nat (maxAttempts opts)) 1 (w_now w) None w)
      as (r & w' & Hrun & Hdur & Hok & Hfail); [lia|].
    exists r, w'. split; [exact Hrun|]. split; [exact Hdur|].
    split; [exact Hok|]. intros Hs.
    destruct (Hfail Hs) as (H1 & H2 & _). split; assumption.
Qed.

End RetryMore.

Section RetryMoreWitnesses.

Import RetryOrchestrator.

Lemma executeStrategies_stops_at_first_success_witness :
  all_throw [refusing "api"; refusing "dom"] (quietWorld 0) None
            (quietWorld 0) (Some "dom") /\
  executeStrategies
    ([refusing "api"; refusing "dom"] ++ ret [sample_vehicle] :: [refusing "ai"])
    None (quietWorld 0)
  = (Ok (mkRetryResult true (Some [sample_vehicle]) None 3 0), quietWorld 0).
Proof.
  assert (Hpre : all_throw [refusing "api"; refusing "dom"] (quietWorld 0) None
                           (quietWorld 0) (Some "dom")).
  { eapply all_throw_cons; [reflexivity|].
    eapply all_throw_cons; [reflexivity|]. apply all_throw_nil. }
  split; [exact Hpre|].
  exact (executeStrategies_stops_at_first_success _ _ (ret [sample_vehicle])
           [refusing "ai"] None _ _ (quietWorld 0) _ [sample_vehicle]
           Hpre eq_refl).
Defined.

Lemma executeStrategies_reports_last_error_witness :
  all_throw [refusing "api"; refusing "dom"] (quietWorld 0) None
            (quietWorld 0) (Some "dom") /\
  executeStrategies [refusing "api"; refusing "dom"] None (quietWorld 0)
  = (Ok (mkRetryResult false None (Some "dom") 2 0), quietWorld 0).
Proof.
  assert (Hpre : all_throw [refusing "api"; refusing "dom"] (quietWorld 0) None
                           (quietWorld 0) (Some "dom")).
  { eapply all_throw_cons; [reflexivity|].
    eapply all_throw_cons; [reflexivity|]. apply all_throw_nil. }
  split; [exact Hpre|].
  destruct (executeStrategies_reports_last_error _
              [refusing "api"; refusing "dom"] None (quietWorld 0))
    as (_ & Hall & _).
  exact (proj1 (Hall _ _ Hpre)).
Defined.

Lemma executeWithRetry_reports_attempt_and_last_error_witness :
  let fetch := Platform.scrape "honda" 1 10 in
  exists w',
    executeWithRetry fetch (mkPartial None None None None None) flaky_world
      = (Ok (mkRetryResult true (Some [sample_vehicle]) None 2 126000), w') /\
    sleeps_of (w_trace w') = [1000].
Proof.
  intros fetch.
  pose (w1 := (fetch flaky_world).2).
  pose (w2 := (afterFailure defaultOptions 1 "blocked" w1).2).
  pose (w3 := (fetch w2).2).
  assert (Hfail : attempts_fail fetch
                    (mergeOptions (mkPartial None None None None None))
                    1 1 flaky_world None w2 (Some "blocked")).
  { apply (attempts_fail_next _ _ 1 0 flaky_world None "blocked" w1 w2 w2
             (Some "blocked")); [reflexivity|reflexivity|].
    apply attempts_fail_none. }
  pose proof (proj1 (executeWithRetry_reports_attempt_and_last_error _ fetch
                       (mkPartial None None None None None) flaky_world)
                1%nat w2 (Some "blocked") [sample_vehicle] w3
                Hfail eq_refl ltac:(reflexivity)) as Hrun.
  exists w3. split; [exact Hrun|reflexivity].
Defined.

End RetryMoreWitnesses.

(* ===================================================================== *)
(** * Properties of the cache service *)
(* ===================================================================== *)

Section Cache.

Import CacheService.

Lemma get_healthy key w :
  redis_healthy w ->
  get key w = (Ok (fst <$> redis_of w !! key), w).
Proof.
  intros [Hup Hf]. unfold get, connected, client_get, next_fault. mrun.
  rewrite Hup. cbn. rewrite Hf. reflexivity.
Qed.

Lemma set_healthy key v ttl w :
  redis_healthy w ->
  set key v ttl w = (Ok true, with_redis (<[key := (v, ttl)]>) w).
Proof.
  intros [Hup Hf]. unfold set, connected, client_setEx, next_fault. mrun.
  rewrite Hup. cbn. rewrite Hf. reflexivity.
Qed.

Lemma del_healthy key w :
  redis_healthy w ->
  del key w = (Ok true, with_redis (delete key) w).
Proof.
  intros [Hup Hf]. unfold del, connected, client_del, next_fault. mrun.
  rewrite Hup. cbn. rewrite Hf. reflexivity.
Qed.

Lemma exists_healthy key w :
  redis_healthy w ->
  exists_ key w = (Ok (bool_decide (is_Some (redis_of w !! key))), w).
Proof.
  intros [Hup Hf]. unfold exists_, connected, client_exists, next_fault. mrun.
  rewrite Hup. cbn. rewrite Hf. cbn. unfold redis_of.
  destruct (st_redis (w_st w) !! key) as [cell|]; reflexivity.
Qed.

Lemma with_redis_healthy f w : redis_healthy w -> redis_healthy (with_redis f w).
Proof. intros [Hup Hf]. split; assumption. Qed.

Lemma get_outcome key w :
  exists r w1,
    get key w = (Ok r, w1) /\
    (r = fst <$> redis_of w !! key \/ r = None) /\
    redis_of w1 = redis_of w /\
    w_trace w1 = w_trace w /\
    (redis_healthy w -> r = fst <$> redis_of w !! key /\ w1 = w).
Proof.
  unfold get, connected, client_get, next_fault, redis_of. mrun.
  destruct (st_redis_up (w_st w)) eqn:Hup; cbn;
    [destruct (w_redis_faults w) as [|[|] rest] eqn:Hf; cbn|];
    eexists _, _; (split; [reflexivity|]); cbn;
    (split; [auto|]); (split; [reflexivity|]); (split; [reflexivity|]);
    intros [Hu Hfl]; try congruence; split; reflexivity.
Qed.

Lemma set_outcome key v ttl w :
  exists (b : bool) w1,
    set key v ttl w = (Ok b, w1) /\
    redis_of w1 = (if b then <[key := (v, ttl)]> (redis_of w) else redis_of w) /\
    w_trace w1 = w_trace w /\
    (redis_healthy w -> b = true /\ redis_healthy w1).
Proof.
  unfold set, connected, client_setEx, next_fault, redis_of. mrun.
  destruct (st_redis_up (w_st w)) eqn:Hup; cbn;
    [destruct (w_redis_faults w) as [|[|] rest] eqn:Hf; cbn|];
    eexists _, _; (split; [reflexivity|]); cbn;
    (split; [reflexivity|]); (split; [reflexivity|]);
    intros [Hu Hfl]; try congruence; split; [reflexivity|split; assumption].
Qed.

Ltac cache_cases w :=
  unfold get, set, del, exists_, flushAll, connected, client_get,
    client_setEx, client_del, client_exists, client_flushAll, next_fault,
    redis_of;
  mrun;
  destruct (st_redis_up (w_st w)) eqn:Hup; cbn;
  [destruct (w_redis_faults w) as [|[|] rest] eqn:Hf; cbn|].

(** X8. No operation of the cache service throws, whatever the state of
    the connection: a read that cannot be served returns nothing, a write
    that cannot be done returns [false].  The answer of a write tells
    whether the key space has changed: [true] means exactly the requested
    change, [false] means none.  Without a connected client no command is
    sent at all. *)
Theorem CacheService_never_throws (key : string) (v : RedisVal) (ttl : Z)
    (w : World) :
  (exists r w', get key w = (Ok r, w') /\ redis_of w' = redis_of w /\
                (forall x, r = Some x -> fst <$> redis_of w !! key = Some x)) /\
  (exists b w', set key v ttl w = (Ok b, w') /\
                redis_of w' = if b : bool then <[key := (v, ttl)]> (redis_of w)
                              else redis_of w) /\
  (exists b w', del key w = (Ok b, w') /\
                redis_of w' = if b : bool then delete key (redis_of w)
                              else redis_of w) /\
  (exists b w', exists_ key w = (Ok b, w') /\ redis_of w' = redis_of w /\
                (b = true -> is_Some (redis_of w !! key))) /\
  (exists b w', flushAll w = (Ok b, w') /\
                redis_of w' = if b : bool then ∅ else redis_of w) /\
  (st_redis_up (w_st w) = false ->
   get key w = (Ok None, w) /\ set key v ttl w = (Ok false, w) /\
   del key w = (Ok false, w) /\ exists_ key w = (Ok false, w) /\
   flushAll w = (Ok false, w)).
Proof.
  repeat split.
  - cache_cases w; eexists _, _; (split; [reflexivity|]); cbn;
      (split; [reflexivity|]); intros x Hx; try discriminate; exact Hx.
  - cache_cases w; eexists _, _; (split; [reflexivity|]); reflexivity.
  - cache_cases w; eexists _, _; (split; [reflexivity|]); reflexivity.
  - cache_cases w; eexists _, _; (split; [reflexivity|]); cbn;
      (split; [reflexivity|]); try discriminate;
      destruct (st_redis (w_st w) !! key); cbn; intros Hb;
      try discriminate; eauto;
      rewrite bool_decide_eq_true in Hb; lia.
  - cache_cases w; eexists _, _; (split; [reflexivity|]); reflexivity.
  - cache_cases w; congruence.
  - cache_cases w; congruence.
  - cache_cases w; congruence.
  - cache_cases w; congruence.
  - cache_cases w; congruence.
Qed.

Lemma searchKey_inj q q' p p' c c' :
  searchKey q p c = searchKey q' p' c' -> q = q' /\ p = p' /\ c = c'.
Proof.
  unfold searchKey. intros Heq.
  assert (Hkey : forall (q : string) (p c : Z),
    "search:" +:+ q +:+ ":" +:+ pretty p +:+ ":" +:+ pretty c
    = (("search:" +:+ q) +:+ String ":" (pretty p)) +:+ String ":" (pretty c)).
  { intros q0 p0 c0. rewrite !string_app_assoc. reflexivity. }
  rewrite !Hkey in Heq.
  apply colon_split in Heq as [Heq Hc]; [|apply pretty_Z_colon_free..].
  apply colon_split in Heq as [Heq Hp]; [|apply pretty_Z_colon_free..].
  apply (inj (String.app "search:")) in Heq.
  split; [exact Heq|]. split; eapply (inj pretty); eassumption.
Qed.

(** X9. What is written is read back.  With a connected client and no
    fault, a value set under a key is what [get] returns and [exists_]
    confirms, until [del] removes it; the other keys are not touched.  In
    particular search results cached for a query, page and count are
    returned for exactly that query (as spelled), page and count, and the
    entries of all others stay as they are. *)
Theorem cache_returns_what_was_set (w : World) :
  redis_healthy w ->
  (forall key v ttl,
      exists w1 w2,
        set key v ttl w = (Ok true, w1) /\
        get key w1 = (Ok (Some v), w1) /\
        exists_ key w1 = (Ok true, w1) /\
        (forall key', key' <> key -> (get key' w1).1 = (get key' w).1) /\
        del key w1 = (Ok true, w2) /\
        get key w2 = (Ok None, w2) /\
        exists_ key w2 = (Ok false, w2)) /\
  (forall q p c vs,
      exists w1,
        cacheSearchResults q p c vs w = (Ok tt, w1) /\
        getCachedSearchResults q p c w1 = (Ok (Some (RVehicles vs)), w1) /\
        (forall q' p' c',
            q' <> q \/ p' <> p \/ c' <> c ->
            (getCachedSearchResults q' p' c' w1).1
              = (getCachedSearchResults q' p' c' w).1)).
Proof.
  intros Hw. split.
  - intros key v ttl.
    set (w1 := with_redis (<[key := (v, ttl)]>) w).
    set (w2 := with_redis (delete key) w1).
    assert (H1 : redis_healthy w1) by (apply with_redis_healthy; exact Hw).
    assert (H2 : redis_healthy w2) by (apply with_redis_healthy; exact H1).
    exists w1, w2. split; [apply set_healthy; exact Hw|].
    split.
    { rewrite get_healthy by exact H1. unfold w1, redis_of. cbn.
      rewrite lookup_insert_eq. reflexivity. }
    split.
    { rewrite exists_healthy by exact H1. unfold w1, redis_of. cbn.
      rewrite lookup_insert_eq. reflexivity. }
    split.
    { intros key' Hne. rewrite !get_healthy by assumption.
      unfold w1, redis_of. cbn. rewrite lookup_insert_ne by congruence.
      reflexivity. }
    split; [apply del_healthy; exact H1|].
    split.
    { rewrite get_healthy by exact H2. unfold w2, w1, redis_of. cbn.
      rewrite lookup_delete_eq. reflexivity. }
    { rewrite exists_healthy by exact H2. unfold w2, w1, redis_of. cbn.
      rewrite lookup_delete_eq. reflexivity. }
  - intros q p c vs.
    set (w1 := with_redis (<[searchKey q p c := (RVehicles vs, 3600)]>) w).
    assert (H1 : redis_healthy w1) by (apply with_redis_healthy; exact Hw).
    exists w1. split.
    { unfold cacheSearchResults. unfold bind.
      rewrite set_healthy by exact Hw. reflexivity. }
    split.
    { unfold getCachedSearchResults. rewrite get_healthy by exact H1.
      unfold w1, redis_of. cbn. rewrite lookup_insert_eq. reflexivity. }
    intros q' p' c' Hne. unfold getCachedSearchResults.
    rewrite !get_healthy by assumption. unfold w1, redis_of. cbn.
    rewrite lookup_insert_ne; [reflexivity|].
    intros Heq. apply searchKey_inj in Heq as (Hq & Hp & Hc).
    destruct Hne as [Hne|[Hne|Hne]]; congruence.
Qed.

End Cache.

Section CacheWitnesses.

Import CacheService.

Lemma CacheService_never_throws_witness :
  get "search:honda:1:10" glitch_world
    = (Ok None, with_redis_faults [] glitch_world) /\
  (exists b w', set "search:honda:1:10" (RVehicles []) 3600 glitch_world = (Ok b, w') /\
                redis_of w' = if b then <["search:honda:1:10" := (RVehicles [], 3600)]>
                                          (redis_of glitch_world)
                              else redis_of glitch_world).
Proof.
  destruct (CacheService_never_throws "search:honda:1:10" (RVehicles []) 3600
              glitch_world) as (_ & Hset & _).
  split; [reflexivity|exact Hset].
Defined.

Lemma cache_returns_what_was_set_witness :
  redis_healthy (quietWorld 0) /\
  exists w1,
    cacheSearchResults "Honda" 1 10 [sample_vehicle] (quietWorld 0) = (Ok tt, w1) /\
    getCachedSearchResults "Honda" 1 10 w1 = (Ok (Some (RVehicles [sample_vehicle])), w1) /\
    (getCachedSearchResults "honda" 1 10 w1).1 = Ok None.
Proof.
  assert (Hw : redis_healthy (quietWorld 0)) by (split; reflexivity).
  split; [exact Hw|].
  destruct (cache_returns_what_was_set (quietWorld 0) Hw) as [_ Hsearch].
  destruct (Hsearch "Honda" 1 10 [sample_vehicle]) as (w1 & Hput & Hget & Hother).
  exists w1. split; [exact Hput|]. split; [exact Hget|].
  rewrite (Hother "honda" 1 10) by (left; discriminate). reflexivity.
Defined.

End CacheWitnesses.

(* ===================================================================== *)
(** * Further properties of the admission service *)
(* ===================================================================== *)

Section RateLimit.

Import JobQueueSecurityService.

Variable cfg : SecurityConfig.
Variables (clientIp : string) (apiKey : option string).

Let key := rateLimitKey clientIp apiKey.
Let check := checkRateLimit cfg CacheService.get CacheService.set clientIp apiKey.

Lemma checkRateLimit_healthy w :
  redis_healthy w ->
  check w =
    if decide (count_at w key >= maxRequestsFor cfg apiKey)
    then (Ok (rateLimited cfg apiKey), w)
    else (Ok allow,
          with_redis (<[key := (RNum (count_at w key + 1),
                                ceilSeconds (windowMsFor cfg apiKey))]>) w).
Proof.
  intros Hw. unfold check, checkRateLimit, try_catch, bind.
  fold (maxRequestsFor cfg apiKey). fold (windowMsFor cfg apiKey). fold key.
  rewrite get_healthy by exact Hw. fold (count_at w key).
  destruct (decide _) as [Hge|Hlt]; [reflexivity|].
  rewrite set_healthy by exact Hw. reflexivity.
Qed.

Lemma requests_over_limit n w :
  redis_healthy w ->
  count_at w key >= maxRequestsFor cfg apiKey ->
  requests n check w = (Ok (replicate n (rateLimited cfg apiKey)), w).
Proof.
  intros Hw Hge. induction n as [|n IH]; [reflexivity|].
  cbn [requests replicate]. unfold bind at 1.
  rewrite checkRateLimit_healthy by exact Hw.
  destruct (decide _); [|contradiction].
  unfold bind at 1. rewrite IH. reflexivity.
Qed.

Lemma requests_counted n :
  forall w,
    redis_healthy w ->
    let c := count_at w key in
    let room := Z.to_nat (maxRequestsFor cfg apiKey - c) in
    exists w',
      requests n check w
        = (Ok (replicate (n `min` room) allow
                 ++ replicate (n - room) (rateLimited cfg apiKey)), w') /\
      redis_healthy w' /\
      count_at w' key = c + Z.of_nat (n `min` room) /\
      ((n `min` room = 0)%nat -> w' = w) /\
      ((0 < n `min` room)%nat ->
       snd <$> redis_of w' !! key = Some (ceilSeconds (windowMsFor cfg apiKey))) /\
      (forall key', key' <> key -> redis_of w' !! key' = redis_of w !! key').
Proof.
  induction n as [|n IH]; intros w Hw c room.
  - exists w. cbn. split; [reflexivity|]. split; [exact Hw|].
    split; [unfold c; lia|]. split; [reflexivity|]. split; [lia|reflexivity].
  - destruct (decide (c >= maxRequestsFor cfg apiKey)) as [Hge|Hlt].
    + exists w. assert (Hroom : room = 0%nat) by (unfold room; lia).
      rewrite Hroom. rewrite Nat.min_0_r, Nat.sub_0_r. cbn [replicate app].
      split; [apply requests_over_limit; assumption|].
      split; [exact Hw|]. split; [unfold c; lia|].
      split; [reflexivity|]. split; [lia|reflexivity].
    + cbn [requests]. unfold bind at 1.
      rewrite checkRateLimit_healthy by exact Hw. fold c.
      destruct (decide _); [contradiction|].
      set (w1 := with_redis _ w).
      assert (H1 : redis_healthy w1) by (apply with_redis_healthy; exact Hw).
      assert (Hc1 : count_at w1 key = c + 1).
      { unfold count_at, w1, redis_of. cbn. rewrite lookup_insert_eq. reflexivity. }
      destruct (IH w1 H1) as (w' & Hrun & Hh & Hcount & Hsame & Httl & Hframe).
      rewrite Hc1 in Hrun, Hcount, Hsame, Httl.
      exists w'. unfold bind at 1. rewrite Hrun. unfold ret.
      assert (Hroom : room = S (Z.to_nat (maxRequestsFor cfg apiKey - (c + 1))))
        by (unfold room; lia).
      rewrite Hroom. cbn [Nat.min Nat.sub replicate app].
      split; [reflexivity|]. split; [exact Hh|]. split; [lia|].
      split; [discriminate|]. split.
      * intros _.
        destruct (n `min` Z.to_nat (maxRequestsFor cfg apiKey - (c + 1)))%nat eqn:Hm.
        -- rewrite (Hsame eq_refl). unfold w1, redis_of. cbn.
           rewrite lookup_insert_eq. reflexivity.
        -- apply Httl. lia.
      * intros key' Hne. rewrite Hframe by exact Hne.
        unfold w1, redis_of. cbn. apply lookup_insert_ne. congruence.
Qed.

(** X10. The rate limit counts.  With a connected cache and no fault, of
    [n] requests in a row from one client the first [maxRequests - c] are
    allowed, where [c] is the count already stored, and all later ones are
    refused with the time to wait; every allowed request stores the count
    with the full window as its time to live, a refused request writes
    nothing, and the counters of other clients are not touched. *)
Theorem rate_limit_counts_allowed_requests (w : World) (n : nat) :
  redis_healthy w ->
  let c := count_at w key in
  let room := Z.to_nat (maxRequestsFor cfg apiKey - c) in
  exists w',
    requests n check w
      = (Ok (replicate (n `min` room) allow
               ++ replicate (n - room) (rateLimited cfg apiKey)), w') /\
    count_at w' key = c + Z.of_nat (n `min` room) /\
    ((n `min` room = 0)%nat -> w' = w) /\
    ((0 < n `min` room)%nat ->
     snd <$> redis_of w' !! key = Some (ceilSeconds (windowMsFor cfg apiKey))) /\
    (forall key', key' <> key -> redis_of w' !! key' = redis_of w !! key').
Proof.
  intros Hw c room.
  destruct (requests_counted n w Hw) as (w' & H1 & _ & H2 & H3 & H4 & H5).
  exists w'. repeat split; assumption.
Qed.

End RateLimit.

Section ConcurrentCounter.

Import JobQueueSecurityService.

Variables (clientIp : string) (apiKey : option string).

Let key := concurrentKey clientIp apiKey.
Let increment := incrementConcurrentJobs CacheService.get CacheService.set clientIp apiKey.
Let decrement := decrementConcurrentJobs CacheService.get CacheService.set clientIp apiKey.

Lemma increment_outcome w :
  exists w', increment w = (Ok tt, w') /\
             (count_at w' key = count_at w key + 1 \/
              count_at w' key = 1 \/
              count_at w' key = count_at w key) /\
             (redis_healthy w -> count_at w' key = count_at w key + 1 /\
                                 redis_healthy w') /\
             (forall key', key' <> key -> redis_of w' !! key' = redis_of w !! key').
Proof.
  unfold increment, incrementConcurrentJobs. fold key.
  unfold bind at 1, emit at 1, modify at 1. cbv beta iota.
  set (w0 := mkWorld _ _ _ _ _ _ _ _ _ _).
  assert (Hr0 : redis_of w0 = redis_of w) by reflexivity.
  assert (Hh0 : redis_healthy w -> redis_healthy w0) by (intros [? ?]; split; assumption).
  unfold try_catch, bind.
  destruct (get_outcome key w0) as (r & w1 & Hget & Hr & Hs1 & _ & Hg).
  rewrite Hget.
  destruct (set_outcome key (RNum (countOf r + 1)) 3600 w1)
    as (b & w2 & Hset & Hs2 & _ & Hsh).
  rewrite Hset. exists w2. split; [reflexivity|].
  unfold count_at. rewrite Hs2, Hs1, Hr0. split; [|split].
  - destruct b; [|auto]. rewrite lookup_insert_eq. cbn.
    destruct Hr as [-> | ->]; cbn; auto.
  - intros Hw. destruct (Hg (Hh0 Hw)) as [-> ->].
    destruct (Hsh (Hh0 Hw)) as [-> Hh2]. rewrite lookup_insert_eq. cbn.
    rewrite Hr0. split; [reflexivity|exact Hh2].
  - intros key' Hne. destruct b; [|reflexivity].
    apply lookup_insert_ne. congruence.
Qed.

Lemma decrement_outcome w :
  exists w', decrement w = (Ok tt, w') /\
             (count_at w' key = count_at w key \/
              (0 < count_at w key /\ count_at w' key = count_at w key - 1)) /\
             (redis_healthy w ->
              count_at w' key = (if decide (count_at w key > 0)
                                 then count_at w key - 1 else count_at w key) /\
              redis_healthy w') /\
             (forall key', key' <> key -> redis_of w' !! key' = redis_of w !! key').
Proof.
  unfold decrement, decrementConcurrentJobs. fold key.
  unfold bind at 1, emit at 1, modify at 1. cbv beta iota.
  set (w0 := mkWorld _ _ _ _ _ _ _ _ _ _).
  assert (Hr0 : redis_of w0 = redis_of w) by reflexivity.
  assert (Hh0 : redis_healthy w -> redis_healthy w0) by (intros [? ?]; split; assumption).
  unfold try_catch, bind at 1.
  destruct (get_outcome key w0) as (r & w1 & Hget & Hr & Hs1 & _ & Hg).
  rewrite Hget.
  destruct (decide (countOf r > 0)) as [Hpos|Hzero].
  - unfold bind.
    destruct (set_outcome key (RNum (countOf r - 1)) 3600 w1)
      as (b & w2 & Hset & Hs2 & _ & Hsh).
    rewrite Hset. exists w2. split; [reflexivity|].
    assert (Hrc : r = fst <$> redis_of w !! key).
    { destruct Hr as [-> | ->]; [rewrite Hr0; reflexivity|cbn in Hpos; lia]. }
    unfold count_at. rewrite Hs2, Hs1, Hr0. split; [|split].
    + destruct b; [|auto]. rewrite lookup_insert_eq. cbn. right.
      rewrite <- Hrc. split; [lia|reflexivity].
    + intros Hw. destruct (Hsh ltac:(destruct (Hg (Hh0 Hw)) as [_ ->]; exact (Hh0 Hw)))
        as [-> Hh2].
      rewrite lookup_insert_eq. cbn. rewrite <- Hrc.
      destruct (decide _); [|contradiction]. split; [reflexivity|exact Hh2].
    + intros key' Hne. destruct b; [|reflexivity].
      apply lookup_insert_ne. congruence.
  - exists w1. split; [reflexivity|].
    unfold count_at. rewrite Hs1, Hr0. split; [auto|]. split.
    + intros Hw. destruct (Hg (Hh0 Hw)) as [Hrc ->]. rewrite Hr0 in Hrc.
      rewrite <- Hrc. destruct (decide _); [contradiction|].
      split; [reflexivity|exact (Hh0 Hw)].
    + intros key' Hne. reflexivity.
Qed.

(** X11. The counter of concurrent jobs never becomes negative, whatever
    the state of the cache: [decrementConcurrentJobs] writes only when it
    has read a positive count, and then one less; neither operation ever
    throws.  With a connected cache and no fault, an increment adds one, a
    decrement takes one off a positive count and leaves zero alone, and a
    decrement after an increment restores the count; the counters of other
    clients are not touched. *)
Theorem concurrent_counter_stays_non_negative (w : World) :
  0 <= count_at w key ->
  (exists w', increment w = (Ok tt, w') /\ 0 <= count_at w' key /\
              (forall key', key' <> key ->
                            redis_of w' !! key' = redis_of w !! key')) /\
  (exists w', decrement w = (Ok tt, w') /\ 0 <= count_at w' key <= count_at w key /\
              (forall key', key' <> key ->
                            redis_of w' !! key' = redis_of w !! key')) /\
  (redis_healthy w ->
   exists w1 w2 w3,
     increment w = (Ok tt, w1) /\ count_at w1 key = count_at w key + 1 /\
     decrement w1 = (Ok tt, w2) /\ count_at w2 key = count_at w key /\
     decrement w = (Ok tt, w3) /\ count_at w3 key = Z.max 0 (count_at w key - 1)).
Proof.
  intros Hc. split; [|split].
  - destruct (increment_outcome w) as (w' & Hrun & Hcount & _ & Hframe).
    exists w'. split; [exact Hrun|]. split; [lia|exact Hframe].
  - destruct (decrement_outcome w) as (w' & Hrun & Hcount & _ & Hframe).
    exists w'. split; [exact Hrun|]. split; [lia|exact Hframe].
  - intros Hw.
    destruct (increment_outcome w) as (w1 & Hrun1 & _ & Hh1 & _).
    destruct (Hh1 Hw) as [Hc1 Hw1].
    destruct (decrement_outcome w1) as (w2 & Hrun2 & _ & Hh2 & _).
    destruct (Hh2 Hw1) as [Hc2 _].
    destruct (decrement_outcome w) as (w3 & Hrun3 & _ & Hh3 & _).
    destruct (Hh3 Hw) as [Hc3 _].
    exists w1, w2, w3. split; [exact Hrun1|]. split; [exact Hc1|].
    split; [exact Hrun2|]. split.
    { rewrite Hc2, Hc1. clear -Hc. case_decide; lia. }
    split; [exact Hrun3|]. rewrite Hc3. clear -Hc. case_decide; lia.
Qed.

End ConcurrentCounter.

Section AdmissionMoreWitnesses.

Import JobQueueSecurityService.

Lemma rate_limit_counts_allowed_requests_witness :
  redis_healthy (quietWorld 0) /\
  exists w',
    requests 12 (checkRateLimit defaultConfig CacheService.get CacheService.set
                   client None) (quietWorld 0)
      = (Ok (replicate 10 allow ++ replicate 2 (rateLimited defaultConfig None)), w') /\
    count_at w' (rateLimitKey client None) = 10.
Proof.
  assert (Hw : redis_healthy (quietWorld 0)) by (split; reflexivity).
  split; [exact Hw|].
  destruct (rate_limit_counts_allowed_requests defaultConfig client None
              (quietWorld 0) 12 Hw) as (w' & Hrun & Hcount & _).
  exists w'. split; [exact Hrun|exact Hcount].
Defined.

Lemma concurrent_counter_stays_non_negative_witness :
  0 <= count_at (quietWorld 0) (concurrentKey client None) /\
  exists w',
    decrementConcurrentJobs CacheService.get CacheService.set client None
      (quietWorld 0) = (Ok tt, w') /\
    0 <= count_at w' (concurrentKey client None) <= 0.
Proof.
  assert (Hc : 0 <= count_at (quietWorld 0) (concurrentKey client None))
    by (vm_compute; discriminate).
  split; [exact Hc|].
  destruct (concurrent_counter_stays_non_negative client None (quietWorld 0) Hc)
    as (_ & (w' & Hrun & Hcount & _) & _).
  exists w'. split; [exact Hrun|exact Hcount].
Defined.

End AdmissionMoreWitnesses.

(* ===================================================================== *)
(** * Properties of the query validation *)
(* ===================================================================== *)

Section JsStrings.

Import JsString.

Lemma string_app_nil_r (s : string) : s +:+ "" = s.
Proof.
  induction s as [|c s IH]; [reflexivity|].
  change (String c (s +:+ "") = String c s). f_equal. exact IH.
Qed.

Lemma string_app_cons c (a b : string) : String c a +:+ b = String c (a +:+ b).
Proof. reflexivity. Qed.

Lemma rev_app_spec (a b : string) : String.rev_app a b = String.rev a +:+ b.
Proof.
  unfold String.rev. revert b. induction a as [|c a IH]; intros b; [reflexivity|].
  cbn [String.rev_app]. rewrite (IH (String c b)), (IH (String c "")).
  rewrite string_app_assoc. reflexivity.
Qed.

Lemma rev_cons c (s : string) : String.rev (String c s) = String.rev s +:+ String c "".
Proof. unfold String.rev at 1. cbn [String.rev_app]. apply rev_app_spec. Qed.

Lemma rev_app_distr (a b : string) :
  String.rev (a +:+ b) = String.rev b +:+ String.rev a.
Proof.
  induction a as [|c a IH].
  - cbn. change (String.rev "") with "". rewrite string_app_nil_r. reflexivity.
  - rewrite string_app_cons, !rev_cons, IH, string_app_assoc. reflexivity.
Qed.

Lemma rev_involutive (s : string) : String.rev (String.rev s) = s.
Proof.
  induction s as [|c s IH]; [reflexivity|].
  rewrite rev_cons, rev_app_distr, IH. reflexivity.
Qed.

Lemma trimStart_app_blank (a b : string) :
  blank a = true -> trimStart (a +:+ b) = trimStart b.
Proof.
  induction a as [|c a IH]; intros Hb; [reflexivity|].
  cbn in Hb. apply andb_prop in Hb as [Hc Ha].
  rewrite string_app_cons. cbn [trimStart]. rewrite Hc. apply IH. exact Ha.
Qed.

Lemma trimStart_blank (s : string) : blank s = true -> trimStart s = "".
Proof.
  intros Hb. rewrite <- (string_app_nil_r s). rewrite trimStart_app_blank by exact Hb.
  reflexivity.
Qed.

Lemma trimStart_empty_blank (s : string) : trimStart s = "" -> blank s = true.
Proof.
  induction s as [|c s IH]; [reflexivity|]. cbn [trimStart].
  destruct (is_space c) eqn:Hc; [|discriminate].
  intros H. cbn. rewrite Hc. apply IH. exact H.
Qed.

Lemma trimStart_app_not_blank (a b : string) :
  blank a = false -> trimStart (a +:+ b) = trimStart a +:+ b.
Proof.
  induction a as [|c a IH]; intros Hb; [discriminate|].
  rewrite string_app_cons. cbn [trimStart]. cbn in Hb.
  destruct (is_space c) eqn:Hc; [|reflexivity].
  apply IH. exact Hb.
Qed.

Lemma blank_rev (s : string) : blank (String.rev s) = blank s.
Proof.
  induction s as [|c s IH]; [reflexivity|].
  rewrite rev_cons. cbn.
  assert (Happ : forall a b, blank (a +:+ b) = blank a && blank b).
  { induction a as [|x a IHa]; intros b; [reflexivity|].
    rewrite string_app_cons. cbn. rewrite IHa. apply andb_assoc. }
  rewrite Happ, IH. cbn. rewrite andb_true_r. apply andb_comm.
Qed.

Lemma trimEnd_rec_empty (s : string) : trimEnd_rec s = "" <-> blank s = true.
Proof.
  induction s as [|c s IH]; [split; reflexivity|]. cbn.
  destruct (trimEnd_rec s) as [|x r] eqn:Hr.
  - destruct (is_space c); cbn; [|split; discriminate].
    split; intros _; [apply IH|]; reflexivity.
  - split; [discriminate|]. intros Hb. apply andb_prop in Hb as [_ Hb].
    apply IH in Hb. discriminate.
Qed.

(** The two ways of trimming the end agree. *)
Lemma trimEnd_trimEnd_rec (s : string) : trimEnd s = trimEnd_rec s.
Proof.
  unfold trimEnd. induction s as [|c s IH]; [reflexivity|].
  rewrite rev_cons. cbn [trimEnd_rec].
  destruct (blank s) eqn:Hb.
  - assert (Hr : trimEnd_rec s = "") by (apply trimEnd_rec_empty; exact Hb).
    rewrite Hr. rewrite trimStart_app_blank by (rewrite blank_rev; exact Hb).
    cbn [trimStart]. destruct (is_space c); reflexivity.
  - rewrite trimStart_app_not_blank by (rewrite blank_rev; exact Hb).
    rewrite rev_app_distr, IH. cbn.
    destruct (trimEnd_rec s) as [|x r] eqn:Hr; [|reflexivity].
    apply trimEnd_rec_empty in Hr. congruence.
Qed.

Lemma forallb_trimStart f (s : string) :
  forallb f s = true -> forallb f (trimStart s) = true.
Proof.
  induction s as [|c s IH]; [reflexivity|]. intros H. cbn [trimStart].
  destruct (is_space c); [|exact H].
  cbn in H. apply andb_prop in H as [_ H]. apply IH. exact H.
Qed.

Lemma forallb_trimEnd_rec f (s : string) :
  forallb f s = true -> forallb f (trimEnd_rec s) = true.
Proof.
  induction s as [|c s IH]; [reflexivity|]. intros H. cbn in H.
  apply andb_prop in H as [Hc H]. specialize (IH H). cbn [trimEnd_rec].
  destruct (trimEnd_rec s) as [|x r].
  - destruct (is_space c); [reflexivity|]. cbn. rewrite Hc. reflexivity.
  - cbn [forallb]. rewrite Hc. exact IH.
Qed.

Lemma forallb_collapse_go f b (s : string) :
  f " "%char = true -> forallb f s = true -> forallb f (collapse_go b s) = true.
Proof.
  intros Hsp. revert b. induction s as [|c s IH]; intros b H; [reflexivity|].
  cbn in H. apply andb_prop in H as [Hc H]. cbn [collapse_go].
  destruct (is_space c).
  - destruct b; [apply IH; exact H|]. cbn [forallb]. rewrite Hsp. apply IH. exact H.
  - cbn [forallb]. rewrite Hc. apply IH. exact H.
Qed.

Lemma length_trimStart (s : string) :
  (String.length (trimStart s) <= String.length s)%nat.
Proof.
  induction s as [|c s IH]; [reflexivity|]. cbn [trimStart].
  destruct (is_space c); cbn; lia.
Qed.

Lemma length_trimEnd_rec (s : string) :
  (String.length (trimEnd_rec s) <= String.length s)%nat.
Proof.
  induction s as [|c s IH]; [reflexivity|]. cbn [trimEnd_rec].
  destruct (trimEnd_rec s) as [|x r]; [destruct (is_space c)|]; cbn in *; lia.
Qed.

Lemma length_collapse_go b (s : string) :
  (String.length (collapse_go b s) <= String.length s)%nat.
Proof.
  revert b. induction s as [|c s IH]; intros b; [reflexivity|]. cbn [collapse_go].
  destruct (is_space c); [destruct b|]; cbn;
    [specialize (IH true)|specialize (IH true)|specialize (IH false)]; lia.
Qed.

Lemma trimStart_idem (s : string) : trimStart (trimStart s) = trimStart s.
Proof.
  induction s as [|c s IH]; [reflexivity|]. cbn [trimStart].
  destruct (is_space c) eqn:Hc; [exact IH|]. cbn [trimStart]. rewrite Hc. reflexivity.
Qed.

(** A string that does not begin with white space. *)
Lemma trimStart_fixed (s : string) :
  trimStart s = s <->
  match s with String c _ => is_space c = false | EmptyString => True end.
Proof.
  destruct s as [|c s]; [split; reflexivity|]. cbn [trimStart].
  destruct (is_space c) eqn:Hc; [|split; reflexivity].
  split; [|discriminate]. intros H.
  pose proof (length_trimStart s) as Hlen. rewrite H in Hlen. cbn in Hlen. lia.
Qed.

Lemma trimStart_trimEnd_rec (s : string) :
  trimStart s = s -> trimStart (trimEnd_rec s) = trimEnd_rec s.
Proof.
  intros H. apply trimStart_fixed in H. apply trimStart_fixed.
  destruct s as [|c s]; [exact I|]. cbn [trimEnd_rec].
  destruct (trimEnd_rec s); [rewrite H|]; exact H.
Qed.

Lemma trimStart_collapse (s : string) :
  trimStart s = s -> trimStart (collapseSpaces s) = collapseSpaces s.
Proof.
  intros H. apply trimStart_fixed in H. apply trimStart_fixed.
  destruct s as [|c s]; [exact I|]. unfold collapseSpaces. cbn [collapse_go].
  rewrite H. exact H.
Qed.

Lemma trimEnd_rec_idem (s : string) : trimEnd_rec (trimEnd_rec s) = trimEnd_rec s.
Proof.
  induction s as [|c s IH]; [reflexivity|]. cbn [trimEnd_rec].
  destruct (trimEnd_rec s) as [|x r] eqn:Hr.
  - destruct (is_space c) eqn:Hc; [reflexivity|]. cbn. rewrite Hc. reflexivity.
  - cbn [trimEnd_rec]. cbn [trimEnd_rec] in IH. rewrite IH. reflexivity.
Qed.

Lemma collapse_go_empty (s : string) :
  collapse_go true s = "" <-> blank s = true.
Proof.
  induction s as [|c s IH]; [split; reflexivity|]. cbn.
  destruct (is_space c); cbn; [exact IH|split; discriminate].
Qed.

Lemma trimEnd_rec_collapse_go (s : string) :
  forall b, trimEnd_rec s = s -> trimEnd_rec (collapse_go b s) = collapse_go b s.
Proof.
  induction s as [|c s IH]; intros b H; [reflexivity|].
  cbn [trimEnd_rec] in H.
  assert (Hs : trimEnd_rec s = s /\ (is_space c = true -> blank s = false)).
  { destruct (trimEnd_rec s) as [|x r] eqn:Hr.
    - destruct (is_space c) eqn:Hc; [discriminate|].
      injection H as <-. split; [reflexivity|discriminate].
    - injection H as <-. split; [reflexivity|]. intros _.
      destruct (blank (String x r)) eqn:Hb; [|reflexivity].
      apply trimEnd_rec_empty in Hb. congruence. }
  destruct Hs as [Hs Hnb]. cbn [collapse_go].
  destruct (is_space c) eqn:Hc.
  - assert (Hne : collapse_go true s <> "").
    { intros He. apply collapse_go_empty in He. rewrite (Hnb eq_refl) in He.
      discriminate. }
    destruct b; [apply IH; exact Hs|].
    cbn [trimEnd_rec]. rewrite (IH true Hs).
    destruct (collapse_go true s); [contradiction|reflexivity].
  - cbn [trimEnd_rec]. rewrite (IH false Hs), Hc.
    destruct (collapse_go false s); reflexivity.
Qed.

Lemma collapse_go_idem (s : string) :
  (forall b, collapse_go false (collapse_go b s) = collapse_go b s) /\
  collapse_go true (collapse_go true s) = collapse_go true s.
Proof.
  induction s as [|c s [IH1 IH2]]; [split; [intros b|]; reflexivity|].
  split.
  - intros b. cbn [collapse_go]. destruct (is_space c) eqn:Hc.
    + destruct b; [apply IH1|]. cbn [collapse_go]. cbn. rewrite IH2. reflexivity.
    + cbn [collapse_go]. rewrite Hc, IH1. reflexivity.
  - cbn [collapse_go]. destruct (is_space c) eqn:Hc; [exact IH2|].
    cbn [collapse_go]. rewrite Hc, IH1. reflexivity.
Qed.

(** What sanitising does: the result has no white space at either end,
    only single spaces inside, and no character that the input did not
    have (but for the space that replaces other white space). *)
Lemma sanitize_tidy f (q : string) :
  let s := collapseSpaces (trim q) in
  trim s = s /\ collapseSpaces s = s /\
  (String.length s <= String.length q)%nat /\
  (f " "%char = true -> forallb f q = true -> forallb f s = true).
Proof.
  intros s. unfold s, trim. rewrite !trimEnd_trimEnd_rec.
  set (t := trimEnd_rec (trimStart q)).
  assert (Ht1 : trimStart t = t) by (apply trimStart_trimEnd_rec, trimStart_idem).
  assert (Ht2 : trimEnd_rec t = t) by apply trimEnd_rec_idem.
  split; [|split; [|split]].
  - rewrite trimStart_collapse by exact Ht1.
    apply trimEnd_rec_collapse_go. exact Ht2.
  - apply collapse_go_idem.
  - unfold collapseSpaces, t.
    pose proof (length_collapse_go false (trimEnd_rec (trimStart q))).
    pose proof (length_trimEnd_rec (trimStart q)).
    pose proof (length_trimStart q). lia.
  - intros Hsp Hq. apply forallb_collapse_go; [exact Hsp|].
    apply forallb_trimEnd_rec, forallb_trimStart. exact Hq.
Qed.

End JsStrings.

Section QueryValidation.

Import JsString JobQueueSecurityService.

Lemma occurs_startsWith c (p s : string) :
  startsWith p s = true -> occurs c p = true -> occurs c s = true.
Proof.
  revert s. induction p as [|x p IH]; intros [|y s] Hst Hoc; try discriminate.
  cbn in Hst. destruct (decide (x = y)) as [->|]; [|discriminate].
  cbn in Hoc |- *. apply orb_prop in Hoc as [Hoc|Hoc].
  - rewrite Hoc. reflexivity.
  - rewrite (IH s Hst Hoc). apply orb_true_r.
Qed.

Lemma occurs_includes c (p s : string) :
  includes p s = true -> occurs c p = true -> occurs c s = true.
Proof.
  intros Hinc Hoc. induction s as [|y s IH].
  - cbn in Hinc. destruct (startsWith p "") eqn:Hst; [|discriminate].
    exact (occurs_startsWith c p "" Hst Hoc).
  - cbn [includes] in Hinc. destruct (startsWith p (String y s)) eqn:Hst.
    + exact (occurs_startsWith c p _ Hst Hoc).
    + cbn. rewrite (IH Hinc). apply orb_true_r.
Qed.

Lemma occurs_toLowerCase c (s : string) :
  occurs c (toLowerCase s) = true ->
  exists x, occurs x s = true /\ lower_char x = c.
Proof.
  induction s as [|y s IH]; [discriminate|]. cbn. intros H.
  apply orb_prop in H as [H|H].
  - exists y. rewrite bool_decide_eq_true_2 by reflexivity.
    split; [reflexivity|]. apply bool_decide_eq_true in H. exact H.
  - destruct (IH H) as (x & Hx & Hl). exists x. rewrite Hx, orb_true_r. auto.
Qed.

Lemma occurs_forallb f c (s : string) :
  occurs c s = true -> f c = false -> forallb f s = false.
Proof.
  induction s as [|y s IH]; [discriminate|]. cbn. intros H Hf.
  apply orb_prop in H as [H|H].
  - apply bool_decide_eq_true in H. subst y. rewrite Hf. reflexivity.
  - rewrite (IH H Hf). apply andb_false_r.
Qed.

(** The characters that mark the forbidden patterns are lower-case forms
    of themselves only, and are not among the allowed characters. *)
Lemma marker_not_allowed x :
  lower_char x = "<"%char \/ lower_char x = ":"%char \/ lower_char x = "="%char ->
  allowedChar x = false.
Proof.
  destruct x as [[] [] [] [] [] [] [] []]; vm_compute;
    intros [H|[H|H]]; first [reflexivity | discriminate H].
Qed.

Lemma blacklist_is_redundant (query : string) :
  existsb (fun blacklisted => includes (toLowerCase blacklisted) (toLowerCase query))
          (blacklist defaultConfig) = true ->
  forallb allowedChar query = false.
Proof.
  intros H. apply existsb_exists in H as (b & Hb & Hinc).
  assert (Hmark : exists c, occurs c (toLowerCase b) = true /\
                            (c = "<"%char \/ c = ":"%char \/ c = "="%char)).
  { cbn in Hb. destruct Hb as [<-|[<-|[<-|[<-|[]]]]].
    - exists "<"%char. split; [reflexivity|auto].
    - exists ":"%char. split; [reflexivity|auto].
    - exists "="%char. split; [reflexivity|auto].
    - exists "="%char. split; [reflexivity|auto]. }
  destruct Hmark as (c & Hoc & Hc).
  pose proof (occurs_includes c _ _ Hinc Hoc) as Hq.
  destruct (occurs_toLowerCase c query Hq) as (x & Hx & Hl).
  apply (occurs_forallb allowedChar x _ Hx).
  apply marker_not_allowed. rewrite Hl. exact Hc.
Qed.

(** X12. A query of ASCII characters that [validateQuery] accepts is
    returned sanitised: with no white space at either end, with single
    spaces where there was white space inside (sanitising it again changes
    nothing), made of allowed characters only, and not longer than the
    query, which itself is within the length limits. *)
Theorem validateQuery_sanitizes (cfg : SecurityConfig)
    (query sanitized : string) :
  ascii_only query = true ->
  qv_sanitized (validateQuery cfg query) = Some sanitized ->
  qv_valid (validateQuery cfg query) = true /\
  qv_reason (validateQuery cfg query) = None /\
  trim sanitized = sanitized /\
  collapseSpaces sanitized = sanitized /\
  forallb allowedChar sanitized = true /\
  JsString.length sanitized <= JsString.length query /\
  minLength cfg <= JsString.length query <= maxLength cfg.
Proof.
  intros _. unfold validateQuery.
  destruct (bool_decide (query = "") || bool_decide (JsString.length query < minLength cfg))
    eqn:Hshort; [discriminate|].
  destruct (bool_decide (JsString.length query > maxLength cfg)) eqn:Hlong;
    [discriminate|].
  destruct (existsb _ _); [discriminate|].
  destruct (negb (forallb allowedChar query)) eqn:Hchars; [discriminate|].
  cbn. intros H. injection H as <-.
  apply negb_false_iff in Hchars.
  apply orb_false_elim in Hshort as [_ Hshort].
  apply bool_decide_eq_false in Hshort. apply bool_decide_eq_false in Hlong.
  destruct (sanitize_tidy allowedChar query) as (H1 & H2 & H3 & H4).
  split; [reflexivity|]. split; [reflexivity|]. split; [exact H1|].
  split; [exact H2|]. split; [apply H4; [reflexivity|exact Hchars]|].
  unfold JsString.length in *. split; lia.
Qed.

(** X13. What the default configuration accepts, of the queries of ASCII
    characters: exactly those of 2 to 100 characters that are all letters,
    digits, white space or one of [- _ . , ( )]; every query with a
    forbidden pattern contains a character that is not allowed, so the
    list of patterns never decides.  A query of nothing but white space
    is accepted, and sanitised to the empty string. *)
Theorem validateQuery_default_accepts (query : string) :
  ascii_only query = true ->
  (qv_valid (validateQuery defaultConfig query) = true <->
   2 <= JsString.length query <= 100 /\ forallb allowedChar query = true) /\
  (blank query = true -> 2 <= JsString.length query <= 100 ->
   validateQuery defaultConfig query = mkQueryValidation true (Some "") None).
Proof.
  intros _.
  assert (Hmain : 2 <= JsString.length query <= 100 ->
                  forallb allowedChar query = true ->
                  validateQuery defaultConfig query
                    = mkQueryValidation true (Some (collapseSpaces (trim query))) None).
  { intros Hlen Hchars. unfold validateQuery.
    assert (Hne : query <> "").
    { intros ->. unfold JsString.length in Hlen. cbn in Hlen. lia. }
    rewrite (bool_decide_eq_false_2 _ Hne).
    change (minLength defaultConfig) with 2.
    change (maxLength defaultConfig) with 100.
    rewrite bool_decide_eq_false_2 by lia. cbn [orb].
    rewrite bool_decide_eq_false_2 by lia.
    destruct (existsb _ _) eqn:Hbl.
    - apply blacklist_is_redundant in Hbl. congruence.
    - rewrite Hchars. reflexivity. }
  split.
  - split.
    + unfold validateQuery.
      change (minLength defaultConfig) with 2.
      change (maxLength defaultConfig) with 100.
      destruct (bool_decide (query = "") || bool_decide (JsString.length query < 2))
        eqn:Hshort; [discriminate|].
      destruct (bool_decide (JsString.length query > 100)) eqn:Hlong;
        [discriminate|].
      destruct (existsb _ _); [discriminate|].
      destruct (negb (forallb allowedChar query)) eqn:Hchars; [discriminate|].
      intros _. apply negb_false_iff in Hchars.
      apply orb_false_elim in Hshort as [_ Hshort].
      apply bool_decide_eq_false in Hshort. apply bool_decide_eq_false in Hlong.
      split; [lia|exact Hchars].
    + intros [Hlen Hchars]. rewrite (Hmain Hlen Hchars). reflexivity.
  - intros Hblank Hlen. rewrite Hmain; [|exact Hlen|].
    + unfold trim. rewrite (trimStart_blank query Hblank). reflexivity.
    + clear -Hblank. induction query as [|c s IH]; [reflexivity|].
      cbn in Hblank. apply andb_prop in Hblank as [Hc Hs]. cbn.
      rewrite (IH Hs), andb_true_r. unfold allowedChar. rewrite Hc.
      rewrite orb_true_r. reflexivity.
Qed.

End QueryValidation.

Section QueryValidationWitnesses.

Import JsString JobQueueSecurityService.

Lemma validateQuery_sanitizes_witness :
  ascii_only "  Honda   Civic " = true /\
  qv_sanitized (validateQuery defaultConfig "  Honda   Civic ") = Some "Honda Civic" /\
  trim "Honda Civic" = "Honda Civic" /\
  collapseSpaces "Honda Civic" = "Honda Civic".
Proof.
  assert (H : qv_sanitized (validateQuery defaultConfig "  Honda   Civic ")
              = Some "Honda Civic") by reflexivity.
  destruct (validateQuery_sanitizes defaultConfig "  Honda   Civic " "Honda Civic"
              eq_refl H) as (_ & _ & H1 & H2 & _).
  split; [reflexivity|]. split; [exact H|]. split; [exact H1|exact H2].
Defined.

Lemma validateQuery_default_accepts_witness :
  ascii_only "   " = true /\
  blank "   " = true /\
  2 <= JsString.length "   " <= 100 /\
  validateQuery defaultConfig "   " = mkQueryValidation true (Some "") None.
Proof.
  assert (H1 : blank "   " = true) by reflexivity.
  assert (H2 : 2 <= JsString.length "   " <= 100) by (vm_compute; split; discriminate).
  split; [reflexivity|]. split; [exact H1|]. split; [exact H2|].
  exact (proj2 (validateQuery_default_accepts "   " eq_refl) H1 H2).
Defined.

End QueryValidationWitnesses.

(* ===================================================================== *)
(** * Properties of the scraping queue *)
(* ===================================================================== *)

Section QueueSorting.

Import ScrapingQueueService.

Lemma insertByPriority_perm t l : insertByPriority t l ≡ₚ t :: l.
Proof.
  induction l as [|x l IH]; [reflexivity|]. cbn.
  destruct (decide _); [|reflexivity].
  rewrite IH. apply Permutation_swap.
Qed.

Lemma sortByPriority_perm l : sortByPriority l ≡ₚ l.
Proof.
  induction l as [|x l IH]; [reflexivity|]. cbn.
  rewrite insertByPriority_perm, IH. reflexivity.
Qed.

(** The head of the sorted queue is the first task of highest priority in
    the queue, and the rest is the sorted queue without it. *)
Lemma sortByPriority_head l t rest :
  sortByPriority l = t :: rest ->
  exists pre post,
    l = pre ++ t :: post /\
    Forall (fun x => priority x < priority t) pre /\
    Forall (fun x => priority x <= priority t) post /\
    rest = sortByPriority (pre ++ post).
Proof.
  revert t rest. induction l as [|a l IH]; intros t rest Hs; [discriminate|].
  cbn [sortByPriority foldr] in Hs. fold (sortByPriority l) in Hs.
  destruct (sortByPriority l) as [|x r] eqn:Hl.
  - assert (l = []).
    { apply Permutation_nil. rewrite <- Hl. apply sortByPriority_perm. }
    subst l. cbn in Hs. injection Hs as <- <-.
    exists [], []. repeat split; constructor.
  - destruct (IH x r eq_refl) as (pre & post & -> & Hpre & Hpost & Hr).
    cbn [insertByPriority] in Hs. destruct (decide (priority a < priority x)) as [Hlt|Hge].
    + injection Hs as <- <-. exists (a :: pre), post.
      split; [reflexivity|]. split; [constructor; assumption|].
      split; [exact Hpost|]. rewrite Hr. reflexivity.
    + injection Hs as <- <-. exists [], (pre ++ x :: post).
      split; [reflexivity|]. split; [constructor|]. split.
      * apply Forall_app. split.
        -- eapply Forall_impl; [exact Hpre|]. cbn. intros y Hy. lia.
        -- constructor; [lia|]. eapply Forall_impl; [exact Hpost|]. cbn. intros y Hy. lia.
      * cbn [app]. rewrite <- Hl. reflexivity.
Qed.

End QueueSorting.

Section QueueInvariant.

Import ScrapingQueueService QueueHistory.

Lemma hasTask_spec taskId s :
  hasTask taskId s = true <-> taskId ∈ (id <$> tasks s) \/ taskId ∈ activeTasks s.
Proof.
  unfold hasTask. rewrite orb_true_iff, existsb_exists, bool_decide_eq_true.
  split; intros [H|H]; auto; left.
  - destruct H as (t & Hin & Ht). apply bool_decide_eq_true in Ht. subst taskId.
    apply list_elem_of_fmap. exists t. split; [reflexivity|].
    apply list_elem_of_In. exact Hin.
  - apply list_elem_of_fmap in H as (t & -> & Hin). exists t.
    split; [apply list_elem_of_In; exact Hin|]. apply bool_decide_eq_true. reflexivity.
Qed.

Lemma find_running taskId (l : list QueueTask) task :
  List.find (fun t => bool_decide (id t = taskId)) l = Some task ->
  task ∈ l /\ id task = taskId.
Proof.
  intros H. apply List.find_some in H as [Hin Hid].
  split; [apply list_elem_of_In; exact Hin|]. apply bool_decide_eq_true in Hid. exact Hid.
Qed.

Lemma settle_running (l : list QueueTask) task :
  NoDup (id <$> l) -> task ∈ l ->
  let l' := List.filter (fun t => negb (bool_decide (id t = id task))) l in
  S (length l') = length l /\
  (forall x, x ∈ (id <$> l') <-> x ∈ (id <$> l) /\ x <> id task) /\
  l' `sublist_of` l.
Proof.
  induction l as [|a l IH]; intros Hnd Hin; [inversion Hin|].
  cbn [fmap list_fmap] in Hnd. apply NoDup_cons in Hnd as [Ha Hnd].
  cbn [List.filter]. destruct (decide (id a = id task)) as [Heq|Hne].
  - rewrite (bool_decide_eq_true_2 _ Heq). cbn [negb].
    assert (Hsame : List.filter (fun t => negb (bool_decide (id t = id task))) l = l).
    { clear IH Hin Hnd. induction l as [|b l IHl]; [reflexivity|]. cbn [List.filter].
      destruct (decide (id b = id task)) as [Hb|Hb].
      - exfalso. apply Ha. rewrite Heq, <- Hb. cbn. left.
      - rewrite (bool_decide_eq_false_2 _ Hb). cbn [negb]. f_equal. apply IHl.
        intros Hin. apply Ha. cbn. right. exact Hin. }
    rewrite Hsame. split; [reflexivity|]. split.
    + intros x. cbn [fmap list_fmap]. rewrite elem_of_cons. split.
      * intros Hx. split; [auto|]. intros ->. apply Ha. rewrite Heq. exact Hx.
      * intros [[->|Hx] Hn]; [congruence|exact Hx].
    + apply sublist_cons. reflexivity.
  - rewrite (bool_decide_eq_false_2 _ Hne). cbn [negb].
    apply elem_of_cons in Hin as [->|Hin]; [congruence|].
    destruct (IH Hnd Hin) as (Hlen & Hids & Hsub). cbn [length].
    split; [lia|]. split.
    + intros x. cbn [fmap list_fmap]. rewrite !elem_of_cons, Hids.
      split; [intros [->|[H1 H2]]; auto|intros [[->|H1] H2]; auto].
    + apply sublist_skip. exact Hsub.
Qed.

Lemma step_consistent ev st limit :
  consistent limit st -> consistent (limitAfter ev limit) (step ev st).
Proof.
  destruct ev as [now op]. destruct st as [s run sts acc clr].
  unfold consistent, limitAfter. cbn [service running accepted cleared snd].
  intros (Hnd & Hact & Hcount & Hmax & Hrun).
  destruct op as [taskId q p| |taskId ok| | | |[n|]|]; cbn [step service running].
  - (* addTask *)
    unfold addTask. destruct (hasTask taskId s) eqn:Hhas;
      cbn [service running accepted cleared tasks activeTasks completedCount
           failedCount maxConcurrency].
    + repeat split; assumption.
    + assert (Hfresh : ~ (taskId ∈ (id <$> tasks s) \/ taskId ∈ activeTasks s)).
      { rewrite <- hasTask_spec, Hhas. discriminate. }
      split.
      { rewrite fmap_app. cbn [fmap list_fmap id].
        rewrite <- app_assoc. cbn [app].
        apply NoDup_app in Hnd as (H1 & H2 & H3).
        apply NoDup_app. split; [exact H1|]. split.
        - intros x Hx. rewrite elem_of_cons. intros [->|Hx'].
          + apply Hfresh. left. exact Hx.
          + exact (H2 x Hx Hx').
        - apply NoDup_cons. split; [|exact H3].
          intros Hin. apply Hfresh. right. rewrite Hact.
          apply elem_of_list_to_set. exact Hin. }
      split; [exact Hact|]. rewrite length_app. cbn [length].
      split; [lia|]. split; assumption.
  - (* processQueue *)
    unfold processQueue.
    destruct (isPaused s || bool_decide (length (tasks s) = 0%nat));
      [cbn; repeat split; assumption|].
    destruct (bool_decide (Z.of_nat (size (activeTasks s)) >= maxConcurrency s))
      eqn:Hfull; [cbn; repeat split; assumption|].
    destruct (bool_decide (getRequestsInInterval now s >= maxPerInterval));
      [cbn; repeat split; assumption|].
    pose proof (sortByPriority_perm (tasks s)) as Hperm.
    destruct (sortByPriority (tasks s)) as [|task rest] eqn:Hsort;
      cbn [service running accepted cleared tasks activeTasks completedCount
           failedCount maxConcurrency].
    + apply Permutation_nil in Hperm. rewrite Hperm in *.
      repeat split; assumption.
    + assert (Hids : id <$> tasks s ≡ₚ id task :: (id <$> rest)).
      { rewrite <- Hperm. reflexivity. }
      assert (Hlen : length (tasks s) = S (length rest)).
      { rewrite <- Hperm. reflexivity. }
      apply bool_decide_eq_false in Hfull.
      assert (Hsize : size (activeTasks s) = length run).
      { rewrite Hact, size_list_to_set, length_fmap; [reflexivity|].
        apply NoDup_app in Hnd as (_ & _ & H3). exact H3. }
      split.
      { cbn [fmap list_fmap].
        assert (Hp : (id <$> rest) ++ id task :: (id <$> run)
                     ≡ₚ (id <$> tasks s) ++ (id <$> run)).
        { rewrite Hids. cbn [app]. symmetry. apply Permutation_middle. }
        rewrite Hp. exact Hnd. }
      split.
      { rewrite Hact. cbn [fmap list_fmap list_to_set foldr]. reflexivity. }
      cbn [length]. split; [lia|]. split; [exact Hmax|lia].
  - (* settle *)
    destruct (List.find _ run) as [task|] eqn:Hfind;
      cbn [service running accepted cleared];
      [|repeat split; assumption].
    apply find_running in Hfind as [Hin <-].
    apply NoDup_app in Hnd as (H1 & H2 & H3).
    destruct (settle_running run task H3 Hin) as (Hlen & Hids & Hsub).
    unfold settle.
    cbn [tasks activeTasks completedCount failedCount maxConcurrency].
    split.
    { apply NoDup_app. split; [exact H1|]. split.
      - intros x Hx Hx'. apply Hids in Hx' as [Hx' _]. exact (H2 x Hx Hx').
      - apply (sublist_NoDup _ (id <$> run)); [exact H3|].
        apply fmap_sublist. exact Hsub. }
    split.
    { apply set_eq. intros x. rewrite elem_of_difference, Hact.
      rewrite !elem_of_list_to_set, Hids, elem_of_singleton. reflexivity. }
    split; [destruct ok; lia|]. split; [exact Hmax|lia].
  - cbn. repeat split; assumption.
  - cbn. repeat split; assumption.
  - (* clear *)
    cbn [clear tasks activeTasks completedCount failedCount maxConcurrency
         service running accepted cleared].
    split.
    { cbn. apply NoDup_app in Hnd as (_ & _ & H3). exact H3. }
    split; [exact Hact|]. cbn [length]. split; [lia|]. split; assumption.
  - (* configure *)
    cbn [configure tasks activeTasks completedCount failedCount maxConcurrency
         service running accepted cleared].
    repeat split; try assumption; lia.
  - cbn. repeat split; assumption.
  - cbn. repeat split; assumption.
Qed.

Lemma run_snoc history ev st : run (history ++ [ev]) st = step ev (run history st).
Proof. unfold run. rewrite fold_left_app. reflexivity. Qed.

Lemma largestLimit_snoc history ev :
  largestLimit (history ++ [ev]) = limitAfter ev (largestLimit history).
Proof. unfold largestLimit. rewrite fold_left_app. reflexivity. Qed.

Lemma run_consistent history :
  consistent (largestLimit history) (run history initialState).
Proof.
  induction history as [|ev history IH] using rev_ind.
  - cbn. unfold consistent. cbn. repeat split; try lia; try reflexivity.
    constructor.
  - rewrite run_snoc, largestLimit_snoc. apply step_consistent. exact IH.
Qed.

End QueueInvariant.

Section QueuePace.

Import ScrapingQueueService QueueHistory.

Lemma filter_length_le {A} (P Q : A -> Prop) `{!forall x, Decision (P x)}
    `{!forall x, Decision (Q x)} (l : list A) :
  Forall (fun x => P x -> Q x) l ->
  (length (filter P l) <= length (filter Q l))%nat.
Proof.
  induction 1 as [|x l Hx _ IH]; [reflexivity|].
  rewrite !filter_cons. destruct (decide (P x)) as [HP|HP].
  - rewrite decide_True by auto. cbn. lia.
  - destruct (decide (Q x)); cbn; lia.
Qed.

Lemma filter_filter_weaker {A} (P Q : A -> Prop) `{!forall x, Decision (P x)}
    `{!forall x, Decision (Q x)} (l : list A) :
  (forall x, P x -> Q x) -> filter P (filter Q l) = filter P l.
Proof.
  intros HPQ. induction l as [|x l IH]; [reflexivity|].
  rewrite !filter_cons. destruct (decide (Q x)) as [HQ|HQ].
  - rewrite filter_cons, IH. reflexivity.
  - rewrite IH. destruct (decide (P x)) as [HP|HP]; [|reflexivity].
    exfalso. auto.
Qed.

Lemma paced_later now t st : now <= t -> paced now st -> paced t st.
Proof.
  intros Hle (H1 & H2 & H3). split; [|split].
  - eapply Forall_impl; [exact H1|]. cbn. intros x Hx. lia.
  - intros c Hc. apply H2. lia.
  - exact H3.
Qed.

Lemma paced_same_times t st st' :
  requestTimestamps (service st') = requestTimestamps (service st) ->
  starts st' = starts st ->
  paced t st -> paced t st'.
Proof. unfold paced. intros -> ->. auto. Qed.

Lemma step_paced now t op st :
  now <= t -> paced now st -> paced t (step (t, op) st).
Proof.
  intros Hle Hp. apply (paced_later now t st Hle) in Hp.
  destruct st as [s run sts acc clr].
  destruct op as [taskId q p| |taskId ok| | | |[n|]|]; cbn [step service running starts].
  - unfold addTask. destruct (hasTask taskId s); [exact Hp|].
    eapply paced_same_times; [| |exact Hp]; reflexivity.
  - unfold processQueue.
    destruct (isPaused s || bool_decide (length (tasks s) = 0%nat));
      [exact Hp|].
    destruct (bool_decide (Z.of_nat (size (activeTasks s)) >= maxConcurrency s));
      [exact Hp|].
    destruct (bool_decide (getRequestsInInterval t s >= maxPerInterval))
      eqn:Hrate; [exact Hp|].
    destruct (sortByPriority (tasks s)) as [|task rest];
      [eapply paced_same_times; [| |exact Hp]; reflexivity|].
    apply bool_decide_eq_false in Hrate.
    destruct Hp as (H1 & H2 & H3). cbn [service starts] in *.
    split; [|split]; cbn [service starts requestTimestamps].
    + apply Forall_app. split; [exact H1|]. constructor; [lia|constructor].
    + intros c Hc. rewrite !filter_app, (H2 c Hc). reflexivity.
    + intros T. unfold startsInWindow. rewrite filter_app, length_app.
      rewrite filter_cons, filter_nil.
      destruct (decide (T - intervalMs < t <= T)) as [Hin|Hout];
        [|cbn; specialize (H3 T); unfold startsInWindow in H3; lia].
      cbn [length].
      assert (Hrecent : Nat.lt (length (filter (fun x => x > t - intervalMs) sts)) 5).
      { rewrite <- (H2 (t - intervalMs)) by (unfold intervalMs; lia).
        unfold getRequestsInInterval, maxPerInterval in Hrate. lia. }
      assert (Hle' : Nat.le (length (filter (fun x => T - intervalMs < x <= T) sts))
                            (length (filter (fun x => x > t - intervalMs) sts))).
      { apply filter_length_le. eapply Forall_impl; [exact H1|]. cbn.
        intros x Hx Hw. lia. }
      lia.
  - destruct (List.find _ run); [|exact Hp].
    eapply paced_same_times; [| |exact Hp]; reflexivity.
  - eapply paced_same_times; [| |exact Hp]; reflexivity.
  - eapply paced_same_times; [| |exact Hp]; reflexivity.
  - eapply paced_same_times; [| |exact Hp]; reflexivity.
  - eapply paced_same_times; [| |exact Hp]; reflexivity.
  - exact Hp.
  - destruct Hp as (H1 & H2 & H3). split; [exact H1|]. split; [|exact H3].
    cbn [service starts] in *.
    intros c Hc. cbn [service cleanTimestamps requestTimestamps starts].
    rewrite <- (H2 c Hc).
    apply filter_filter_weaker. intros x Hx. lia.
Qed.

Lemma run_paced history :
  forall now st, paced now st -> chronological now history ->
                 exists t, paced t (run history st).
Proof.
  induction history as [|[t op] history IH]; intros now st Hp Hch.
  - exists now. exact Hp.
  - destruct Hch as [Hle Hch]. cbn [run fold_left].
    apply (IH t); [|exact Hch]. apply (step_paced now); assumption.
Qed.

End QueuePace.

Section QueueTheorems.

Import ScrapingQueueService QueueHistory.

Lemma largestLimit_default history :
  Forall (fun ev => forall n, ev.2 <> OpConfigure (Some n)) history ->
  largestLimit history = 3.
Proof.
  induction history as [|ev history IH] using rev_ind; [reflexivity|].
  intros H. apply Forall_app in H as [H1 H2]. rewrite largestLimit_snoc, (IH H1).
  apply Forall_cons in H2 as [H2 _]. unfold limitAfter.
  destruct (ev.2) as [| | | | | |[n|]|]; try reflexivity.
  exfalso. exact (H2 n eq_refl).
Qed.

Lemma processQueue_start now s s' task :
  processQueue now s = (s', Some task) ->
  Z.of_nat (size (activeTasks s)) < maxConcurrency s /\
  isPaused s = false /\
  activeTasks s' = {[id task]} ∪ activeTasks s.
Proof.
  unfold processQueue.
  destruct (isPaused s) eqn:Hp; cbn [orb]; [discriminate|].
  repeat case_bool_decide; try discriminate.
  destruct (sortByPriority _); [discriminate|].
  intros Hrun. injection Hrun as <- <-.
  split; [lia|]. split; reflexivity.
Qed.

(** X14. The scraping queue never runs more tasks at a time than the
    largest concurrency limit it has been given: three, unless
    [configure] has set another.  [processQueue] starts a task only while
    fewer tasks are active than the current limit and the queue is not
    paused; the active ids are those of the tasks started and not yet
    settled. *)
Theorem queue_respects_concurrency_limit (history : list (Z * Op)) :
  let st := run history initialState in
  Z.of_nat (size (activeTasks (service st))) <= largestLimit history /\
  size (activeTasks (service st)) = length (running st) /\
  (Forall (fun ev => forall n, ev.2 <> OpConfigure (Some n)) history ->
   (size (activeTasks (service st)) <= 3)%nat) /\
  (forall now s' task,
      processQueue now (service st) = (s', Some task) ->
      Z.of_nat (size (activeTasks (service st))) < maxConcurrency (service st) /\
      isPaused (service st) = false /\
      activeTasks s' = {[id task]} ∪ activeTasks (service st)).
Proof.
  intros st. destruct (run_consistent history) as (Hnd & Hact & _ & Hmax & Hrun).
  fold st in Hnd, Hact, Hmax, Hrun.
  assert (Hsize : size (activeTasks (service st)) = length (running st)).
  { rewrite Hact, size_list_to_set, length_fmap; [reflexivity|].
    apply NoDup_app in Hnd as (_ & _ & H3). exact H3. }
  split; [rewrite Hsize; exact Hrun|]. split; [exact Hsize|]. split.
  - intros Hdef. rewrite (largestLimit_default history Hdef) in Hrun. lia.
  - intros now s' task. apply processQueue_start.
Qed.

(** X15. The scraping queue starts at most five tasks in any ten seconds,
    as long as the clock does not go back: whatever is added, settled,
    paused, cleared or configured, and whenever the timers fire, no window
    of ten seconds holds more than five starts. *)
Theorem queue_starts_at_most_five_per_interval (history : list (Z * Op))
    (t0 T : Z) :
  chronological t0 history ->
  (startsInWindow T (starts (run history initialState)) <= 5)%nat.
Proof.
  intros Hch.
  assert (Hinit : paced t0 initialState).
  { split; [constructor|]. split; [reflexivity|]. intros T0. cbn. lia. }
  destruct (run_paced history t0 initialState Hinit Hch) as (t & _ & _ & Hw).
  apply Hw.
Qed.

(** X16. [processQueue] starts the first task of the queue among those of
    the highest priority: no task before it in the queue has a priority as
    high, and none at all has a higher one.  The others stay in the queue,
    by priority, those of equal priority in the order they had. *)
Theorem queue_starts_highest_priority_first (now : Z) (s s' : Service)
    (task : QueueTask) :
  processQueue now s = (s', Some task) ->
  exists pre post,
    tasks s = pre ++ task :: post /\
    Forall (fun x => priority x < priority task) pre /\
    Forall (fun x => priority x <= priority task) post /\
    tasks s' = sortByPriority (pre ++ post) /\
    getQueuedTasks s = task :: tasks s' /\
    requestTimestamps s' = requestTimestamps s ++ [now].
Proof.
  unfold processQueue.
  destruct (isPaused s || _); [discriminate|].
  destruct (bool_decide (_ >= maxConcurrency s)); [discriminate|].
  destruct (bool_decide _); [discriminate|].
  destruct (sortByPriority (tasks s)) as [|t rest] eqn:Hsort; [discriminate|].
  intros H. injection H as <- <-.
  destruct (sortByPriority_head _ _ _ Hsort) as (pre & post & H1 & H2 & H3 & H4).
  exists pre, post. cbn [tasks requestTimestamps].
  split; [exact H1|]. split; [exact H2|]. split; [exact H3|].
  split; [exact H4|]. split; [exact Hsort|reflexivity].
Qed.

Lemma findIndex_fresh taskId (l : list QueueTask) t :
  taskId ∉ (id <$> l) -> id t = taskId ->
  findIndex (fun x => bool_decide (id x = taskId)) (l ++ [t]) = Some (length l).
Proof.
  intros Hnot Ht. induction l as [|a l IH]; cbn.
  - rewrite bool_decide_eq_true_2 by exact Ht. reflexivity.
  - cbn [fmap list_fmap] in Hnot. apply not_elem_of_cons in Hnot as [Hne Hnot].
    rewrite bool_decide_eq_false_2 by congruence. rewrite (IH Hnot). reflexivity.
Qed.

(** X17. No two tasks of the queue, waiting or running, ever have the same
    id.  [addTask] refuses an id that is waiting or running, with an error
    and without any change, and this is exactly what [hasTask] tells; any
    other id is accepted and takes the last position of the queue. *)
Theorem queue_task_ids_are_unique (history : list (Z * Op)) :
  let st := run history initialState in
  let s := service st in
  NoDup ((id <$> tasks s) ++ (id <$> running st)) /\
  (forall taskId,
      hasTask taskId s = true <->
      taskId ∈ (id <$> tasks s) \/ taskId ∈ (id <$> running st)) /\
  (forall taskId q p now,
      hasTask taskId s = true ->
      addTask taskId q p now s = inl ("Task " +:+ taskId +:+ " already queued")) /\
  (forall taskId q p now,
      hasTask taskId s = false ->
      exists s',
        addTask taskId q p now s = inr s' /\
        tasks s' = tasks s ++ [mkQueueTask taskId q p now] /\
        getTaskPosition taskId s' = Z.of_nat (length (tasks s)) + 1).
Proof.
  intros st s. destruct (run_consistent history) as (Hnd & Hact & _).
  fold st in Hnd, Hact. fold s in Hnd, Hact.
  split; [exact Hnd|]. split; [|split].
  - intros taskId. rewrite hasTask_spec, Hact, elem_of_list_to_set. reflexivity.
  - intros taskId q p now Hhas. unfold addTask. rewrite Hhas. reflexivity.
  - intros taskId q p now Hhas. unfold addTask. rewrite Hhas.
    eexists. split; [reflexivity|]. cbn [tasks]. split; [reflexivity|].
    unfold getTaskPosition. cbn [tasks].
    rewrite findIndex_fresh; [reflexivity| |reflexivity].
    intros Hin. assert (Hh : hasTask taskId s = true)
      by (apply hasTask_spec; left; exact Hin).
    congruence.
Qed.

(** X18. The statistics of the queue account for every task: those
    completed, failed, active and pending, together with those removed by
    [clear], are the tasks that [addTask] has accepted. *)
Theorem queue_accounts_for_every_task (history : list (Z * Op)) :
  let st := run history initialState in
  let stats := getStats (service st) in
  qs_completed stats + qs_failed stats + qs_active stats + qs_pending stats
    + Z.of_nat (cleared st) = Z.of_nat (accepted st) /\
  qs_queueSize stats = qs_pending stats /\
  qs_pending stats = Z.of_nat (length (tasks (service st))).
Proof.
  intros st stats. destruct (run_consistent history) as (Hnd & Hact & Hcount & _).
  fold st in Hnd, Hact, Hcount.
  assert (Hsize : size (activeTasks (service st)) = length (running st)).
  { rewrite Hact, size_list_to_set, length_fmap; [reflexivity|].
    apply NoDup_app in Hnd as (_ & _ & H3). exact H3. }
  unfold stats, getStats. cbn [qs_completed qs_failed qs_active qs_pending qs_queueSize].
  rewrite Hsize. split; [lia|]. split; reflexivity.
Qed.

End QueueTheorems.

Section QueueWitnesses.

Import ScrapingQueueService QueueHistory.

Lemma queue_starts_at_most_five_per_interval_witness :
  chronological 0 sample_queue_history /\
  (startsInWindow 5000 (starts (run sample_queue_history initialState)) <= 5)%nat /\
  starts (run sample_queue_history initialState) = [1000; 2000; 3000; 4000].
Proof.
  assert (Hch : chronological 0 sample_queue_history) by (cbn; lia).
  split; [exact Hch|]. split.
  - exact (queue_starts_at_most_five_per_interval sample_queue_history 0 5000 Hch).
  - vm_compute. reflexivity.
Defined.

Lemma queue_starts_highest_priority_first_witness :
  let s := service (run (firstn 4 sample_queue_history) initialState) in
  exists s',
    processQueue 1000 s = (s', Some (mkQueueTask "b" "bmw" 5 0)) /\
    id <$> tasks s = ["a"; "b"; "c"] /\
    id <$> tasks s' = ["c"; "a"].
Proof.
  intros s. eexists.
  assert (H : processQueue 1000 s = ((processQueue 1000 s).1, Some (mkQueueTask "b" "bmw" 5 0)))
    by (vm_compute; reflexivity).
  destruct (queue_starts_highest_priority_first _ _ _ _ H) as (pre & post & _).
  split; [exact H|]. split; vm_compute; reflexivity.
Defined.

Lemma queue_respects_concurrency_limit_witness :
  Forall (fun ev => forall n, ev.2 <> OpConfigure (Some n)) sample_queue_history /\
  (size (activeTasks (service (run sample_queue_history initialState))) <= 3)%nat /\
  id <$> running (run sample_queue_history initialState) = ["a"; "b"].
Proof.
  assert (H : Forall (fun ev => forall n, ev.2 <> OpConfigure (Some n))
                     sample_queue_history).
  { unfold sample_queue_history. repeat constructor; intros n; discriminate. }
  split; [exact H|]. split.
  - destruct (queue_respects_concurrency_limit sample_queue_history) as (_ & _ & H3 & _).
    exact (H3 H).
  - vm_compute. reflexivity.
Defined.

End QueueWitnesses.

(* ===================================================================== *)
(** * Further properties of the page repository *)
(* ===================================================================== *)

Section PageStore.

Import BatchRepository.

Lemma command_healthy {A} ids (effect : M A) w :
  forallb Firestore.valid_doc_id ids = true ->
  w_fs_faults w = [] ->
  Firestore.command ids effect w = effect w.
Proof.
  intros Hvalid Hfs. unfold Firestore.command, Firestore.next_fault, bind.
  rewrite Hvalid, Hfs. reflexivity.
Qed.

Lemma command_invalid {A} ids (effect : M A) w :
  forallb Firestore.valid_doc_id ids = false ->
  Firestore.command ids effect w
    = (Throw "Value for argument documentPath is not a valid resource path", w).
Proof. intros Hvalid. unfold Firestore.command. rewrite Hvalid. reflexivity. Qed.

Lemma command_ends {A} ids (effect : M A) :
  ends effect -> ends (Firestore.command ids effect).
Proof.
  intros He. unfold Firestore.command. destruct (forallb _ _); [|apply ends_throw].
  apply ends_bind; [ends_prim|]. intros [|]; [apply ends_throw|exact He].
Qed.

Lemma pageExists_healthy q p l w :
  w_fs_faults w = [] ->
  pageExists q p l w =
    (Ok (if forallb Firestore.valid_doc_id [normalize q; cacheKeyOf p l]
         then match pages_of w !! (normalize q, cacheKeyOf p l) with
              | Some doc => bool_decide (pm_expiresAt (pd_metadata doc) >= w_now w)
              | None => false
              end
         else false), w).
Proof.
  intros Hfs. unfold pageExists, try_catch, bind at 1.
  destruct (forallb _ _) eqn:Hvalid.
  - rewrite command_healthy by assumption. unfold gets, pages_of.
    destruct (st_pages (w_st w) !! _) as [doc|]; reflexivity.
  - rewrite command_invalid by assumption. reflexivity.
Qed.

Lemma getPage_healthy q p l w :
  w_fs_faults w = [] ->
  getPage q p l w =
    if forallb Firestore.valid_doc_id [normalize q; cacheKeyOf p l]
    then match pages_of w !! (normalize q, cacheKeyOf p l) with
         | Some doc =>
             if decide (pm_expiresAt (pd_metadata doc) < w_now w)
             then (Ok None, with_pages (delete (normalize q, cacheKeyOf p l)) w)
             else (Ok (Some (pd_vehicles doc)), w)
         | None => (Ok None, w)
         end
    else (Ok None, w).
Proof.
  intros Hfs. unfold getPage, try_catch, bind at 1.
  destruct (forallb _ _) eqn:Hvalid.
  - rewrite command_healthy by assumption. unfold gets, pages_of.
    destruct (st_pages (w_st w) !! _) as [doc|]; [|reflexivity].
    unfold bind at 1, date_now, gets. cbv beta iota.
    destruct (decide _); [|reflexivity].
    unfold bind. rewrite command_healthy by assumption. reflexivity.
  - rewrite command_invalid by assumption. reflexivity.
Qed.

(** X19. [pageExists] never throws and never writes, and with a healthy
    store it says [true] exactly when [getPage] returns the page: a page is
    there up to and including the instant it expires.  For an expired
    page both say no, but only [getPage] deletes it. *)
Theorem pageExists_agrees_with_getPage (q : string) (p l : Z) (w : World) :
  (exists b w', pageExists q p l w = (Ok b, w') /\ pages_of w' = pages_of w) /\
  (w_fs_faults w = [] ->
   exists b : bool,
     pageExists q p l w = (Ok b, w) /\
     (b = true <-> exists vehicles, (getPage q p l w).1 = Ok (Some vehicles)) /\
     (forall doc,
         forallb Firestore.valid_doc_id [normalize q; cacheKeyOf p l] = true ->
         pages_of w !! (normalize q, cacheKeyOf p l) = Some doc ->
         (b = true <-> w_now w <= pm_expiresAt (pd_metadata doc)) /\
         (expired (w_now w) doc ->
          (getPage q p l w).1 = Ok None /\
          pages_of (getPage q p l w).2 !! (normalize q, cacheKeyOf p l) = None))).
Proof.
  split.
  - assert (Htot : total (pageExists q p l)).
    { unfold pageExists. apply total_try_catch; [|intros e; apply total_ret].
      apply ends_bind; [apply command_ends, ends_gets|].
      intros [doc|]; [|apply ends_ret].
      apply ends_bind; [apply ends_date_now|]. intros now. apply ends_ret. }
    destruct (Htot w) as (b & w' & Hrun). exists b, w'. split; [exact Hrun|].
    assert (Hframe : preserves same_pages (pageExists q p l)).
    { unfold pageExists. frames. }
    specialize (Hframe w). rewrite Hrun in Hframe. exact Hframe.
  - intros Hfs. rewrite pageExists_healthy by exact Hfs.
    eexists. split; [reflexivity|].
    rewrite getPage_healthy by exact Hfs.
    destruct (forallb _ _) eqn:Hvalid.
    + destruct (pages_of w !! _) as [doc|] eqn:Hdoc.
      * split.
        -- rewrite bool_decide_eq_true. destruct (decide _) as [Hexp|Hlive]; cbn.
           ++ split; [lia|]. intros (vs & Hvs). discriminate.
           ++ split; [eauto|]. intros _. lia.
        -- intros doc' _ [= <-]. split; [rewrite bool_decide_eq_true; lia|].
           unfold expired. intros Hexp. destruct (decide _); [|lia]. cbn.
           split; [reflexivity|]. unfold pages_of, with_pages. cbn.
           apply lookup_delete_eq.
      * split; [|intros doc' _ [=]]. cbn.
        split; [discriminate|]. intros (vs & Hvs). discriminate.
    + split.
      * cbn. split; [discriminate|]. intros (vs & Hvs). discriminate.
      * intros doc [=].
Qed.

Lemma is_space_lower_char c :
  JsString.is_space (JsString.lower_char c) = JsString.is_space c.
Proof. destruct c as [[] [] [] [] [] [] [] []]; reflexivity. Qed.

Lemma lower_char_idem c :
  JsString.lower_char (JsString.lower_char c) = JsString.lower_char c.
Proof. destruct c as [[] [] [] [] [] [] [] []]; reflexivity. Qed.

Lemma toLowerCase_idem (s : string) :
  JsString.toLowerCase (JsString.toLowerCase s) = JsString.toLowerCase s.
Proof.
  induction s as [|c s IH]; [reflexivity|]. cbn. rewrite lower_char_idem, IH.
  reflexivity.
Qed.

Lemma toLowerCase_trimStart (s : string) :
  JsString.toLowerCase (JsString.trimStart s)
  = JsString.trimStart (JsString.toLowerCase s).
Proof.
  induction s as [|c s IH]; [reflexivity|]. cbn [JsString.trimStart JsString.toLowerCase].
  rewrite is_space_lower_char. destruct (JsString.is_space c); [exact IH|reflexivity].
Qed.

Lemma toLowerCase_trimEnd_rec (s : string) :
  JsString.toLowerCase (trimEnd_rec s) = trimEnd_rec (JsString.toLowerCase s).
Proof.
  induction s as [|c s IH]; [reflexivity|]. cbn [trimEnd_rec JsString.toLowerCase].
  rewrite <- IH, is_space_lower_char.
  destruct (trimEnd_rec s) as [|x r]; [destruct (JsString.is_space c)|]; reflexivity.
Qed.

Lemma trim_idem (s : string) : JsString.trim (JsString.trim s) = JsString.trim s.
Proof.
  unfold JsString.trim. rewrite !trimEnd_trimEnd_rec.
  rewrite trimStart_trimEnd_rec by apply trimStart_idem.
  apply trimEnd_rec_idem.
Qed.

Lemma normalize_idem (q : string) : normalize (normalize q) = normalize q.
Proof.
  unfold normalize, JsString.trim. rewrite !trimEnd_trimEnd_rec.
  rewrite toLowerCase_trimEnd_rec, toLowerCase_trimStart, toLowerCase_idem.
  rewrite <- !trimEnd_trimEnd_rec. apply trim_idem.
Qed.

Lemma updateSearchMetadata_healthy nq p l c w :
  w_fs_faults w = [] ->
  Firestore.valid_doc_id nq = true ->
  normalize nq = nq ->
  updateSearchMetadata nq p l c w =
    (Ok tt,
     if isNumeric nq then w
     else set_st (set_searches
            (<[nq := match searches_of w !! nq with
                     | Some meta => mkSearchMeta (sm_query meta) (w_now w)
                                      (sm_searchCount meta + 1) (sm_createdAt meta)
                     | None => mkSearchMeta nq (w_now w) 1 (w_now w)
                     end]>)) w).
Proof.
  intros Hfs Hvalid Hnorm. unfold updateSearchMetadata, try_catch. rewrite Hnorm.
  assert (Hne : nq <> "").
  { intros ->. discriminate. }
  rewrite (bool_decide_eq_false_2 _ Hne).
  destruct (isNumeric nq); [reflexivity|].
  assert (Hids : forallb Firestore.valid_doc_id [nq] = true)
    by (cbn; rewrite Hvalid; reflexivity).
  unfold bind at 1. rewrite command_healthy by assumption.
  unfold gets, searches_of. unfold bind at 1, date_now, gets. cbv beta iota.
  destruct (st_searches (w_st w) !! nq) as [meta|];
    rewrite command_healthy by assumption; reflexivity.
Qed.

















End PageStore.

Section PageStoreWitnesses.

Import BatchRepository.

Lemma pageExists_agrees_with_getPage_witness :
  w_fs_faults attic_world = [] /\
  pageExists "Honda" 1 10 attic_world = (Ok false, attic_world) /\
  (getPage "Honda" 1 10 attic_world).1 = Ok None /\
  pages_of (getPage "Honda" 1 10 attic_world).2 !! ("honda", "1-10") = None.
Proof.
  destruct (pageExists_agrees_with_getPage "Honda" 1 10 attic_world) as [_ H].
  destruct (H eq_refl) as (b & Hrun & _ & Hdoc).
  destruct (Hdoc old_page eq_refl eq_refl) as [Hb Hexp].
  assert (Hfalse : b = false).
  { destruct b; [|reflexivity]. destruct Hb as [Hb _].
    exfalso. apply (Hb eq_refl). reflexivity. }
  subst b. split; [reflexivity|]. split; [exact Hrun|].
  apply Hexp. reflexivity.
Defined.





End PageStoreWitnesses.

(* ===================================================================== *)
(** * Further properties of the asynchronous path *)
(* ===================================================================== *)

Section JobDocuments.

Import BatchRepository.

Lemma getJobStatus_healthy batchId w :
  Firestore.valid_doc_id batchId = true ->
  w_fs_faults w = [] ->
  getJobStatus batchId w = (Ok (jobs_of w !! batchId), w).
Proof.
  intros Hvalid Hfs. unfold getJobStatus, try_catch.
  rewrite command_healthy; [reflexivity| |exact Hfs].
  cbn. rewrite Hvalid. reflexivity.
Qed.

(** The document that a status write leaves. *)
Lemma updateJobStatus_document batchId status metadata w :
  Firestore.valid_doc_id batchId = true ->
  w_fs_faults w = [] ->
  exists w',
    updateJobStatus batchId status metadata w = (Ok tt, w') /\
    jobs_of w' = <[batchId :=
                     (metadata ∪ <["status" := VStr (status_name status)]>
                                   (<["updatedAt" := VNum (w_now w)]> ∅))
                     ∪ default ∅ (jobs_of w !! batchId)]> (jobs_of w) /\
    pages_of w' = pages_of w /\ searches_of w' = searches_of w /\
    queue_of w' = queue_of w /\
    w_trace w' = EvJobStatus batchId (status_name status) :: w_trace w /\
    w_fs_faults w' = [] /\ w_redis_faults w' = w_redis_faults w /\
    w_scrapes w' = w_scrapes w /\ w_now w' = w_now w /\
    st_redis (w_st w') = st_redis (w_st w) /\
    st_redis_up (w_st w') = st_redis_up (w_st w) /\
    w_env w' = w_env w.
Proof.
  intros Hvalid Hfs. unfold updateJobStatus, try_catch.
  unfold bind at 1, date_now, gets. cbv beta iota. unfold bind at 1.
  rewrite command_healthy; [|cbn; rewrite Hvalid; reflexivity|exact Hfs].
  eexists. split; [reflexivity|]. cbn. repeat split; try reflexivity. exact Hfs.
Qed.

Lemma job_field_lookup (metadata old : gmap string Value) (status : string)
    (now : Z) (field : string) :
  ((metadata ∪ <["status" := VStr status]> (<["updatedAt" := VNum now]> ∅))
     ∪ old) !! field
  = match metadata !! field with
    | Some v => Some v
    | None =>
        if decide (field = "status") then Some (VStr status)
        else if decide (field = "updatedAt") then Some (VNum now)
        else old !! field
    end.
Proof.
  destruct (metadata !! field) as [v|] eqn:Hm.
  - apply lookup_union_Some_l, lookup_union_Some_l. exact Hm.
  - destruct (decide (field = "status")) as [->|Hs].
    + apply lookup_union_Some_l. rewrite lookup_union_r by exact Hm.
      apply lookup_insert_eq.
    + destruct (decide (field = "updatedAt")) as [->|Hu].
      * apply lookup_union_Some_l. rewrite lookup_union_r by exact Hm.
        rewrite lookup_insert_ne by congruence. apply lookup_insert_eq.
      * rewrite lookup_union_r; [reflexivity|].
        rewrite lookup_union_r by exact Hm.
        rewrite !lookup_insert_ne by congruence. apply lookup_empty.
Qed.

Lemma updateJobStatus_refused batchId status metadata w :
  store_refuses w ->
  exists e w',
    updateJobStatus batchId status metadata w = (Throw e, w') /\
    w_st w' = w_st w /\ w_trace w' = w_trace w.
Proof.
  intros [rest Hfs]. unfold updateJobStatus, try_catch.
  unfold bind at 1, date_now, gets. cbv beta iota. unfold bind at 1.
  unfold Firestore.command. destruct (forallb _ _).
  - unfold bind at 1, Firestore.next_fault. rewrite Hfs.
    eexists _, _. split; [reflexivity|]. split; reflexivity.
  - eexists _, _. split; [reflexivity|]. split; reflexivity.
Qed.

(** X24. A status write merges.  With a healthy store [updateJobStatus]
    leaves a document that [getJobStatus] returns, in which every field of
    the metadata given has its new value (also over [status] and
    [updatedAt], since the metadata is spread last), [status] and
    [updatedAt] are otherwise the new status and the time of the write,
    and every other field is what it was: fields written by an earlier
    status, such as the error of a failed attempt, stay in the document.
    No other job is touched. *)
Theorem updateJobStatus_merges_fields (batchId : string) (status : JobStatus)
    (metadata : gmap string Value) (w : World) :
  Firestore.valid_doc_id batchId = true ->
  w_fs_faults w = [] ->
  exists w' doc,
    updateJobStatus batchId status metadata w = (Ok tt, w') /\
    getJobStatus batchId w' = (Ok (Some doc), w') /\
    (forall field,
        doc !! field =
          match metadata !! field with
          | Some v => Some v
          | None =>
              if decide (field = "status") then Some (VStr (status_name status))
              else if decide (field = "updatedAt") then Some (VNum (w_now w))
              else jobs_of w !! batchId ≫= (fun old => old !! field)
          end) /\
    (forall other, other <> batchId -> jobs_of w' !! other = jobs_of w !! other).
Proof.
  intros Hvalid Hfs.
  destruct (updateJobStatus_document batchId status metadata w Hvalid Hfs)
    as (w' & Hrun & Hjobs & _ & _ & _ & _ & Hfs' & _).
  eexists w', _. split; [exact Hrun|]. split; [|split].
  - rewrite getJobStatus_healthy by assumption.
    rewrite Hjobs, lookup_insert_eq. reflexivity.
  - intros field. rewrite job_field_lookup.
    destruct (jobs_of w !! batchId) as [old|]; [reflexivity|].
    cbn. rewrite lookup_empty. reflexivity.
  - intros other Hother. rewrite Hjobs. apply lookup_insert_ne. congruence.
Qed.

End JobDocuments.

Section QueueSearchJob.

Import JobQueueSecurityService SearchController.

#[local] Instance beside_redis_po : PreOrder beside_redis.
Proof.
  split.
  - intros w. unfold beside_redis. repeat split; reflexivity.
  - intros a b c Hab Hbc. unfold beside_redis in *.
    destruct Hab as (?&?&?&?&?&?&?&?&?), Hbc as (?&?&?&?&?&?&?&?&?).
    repeat split; congruence.
Qed.

#[local] Instance no_new_decrement_preorder : PreOrder no_new_decrement.
Proof.
  split; [intros w id; reflexivity|].
  intros a b c Hab Hbc id. rewrite Hbc. apply Hab.
Qed.

Ltac redis_prim :=
  let w := fresh "w" in
  unfold preserves, beside_redis; intros w;
  unfold Firestore.next_fault, CacheService.next_fault,
    JobQueueManager.next_fault, random_suffix, modify_st, modify, suspend,
    emit, set_st;
  cbn; repeat case_match; simplify_eq; cbn; repeat split; reflexivity.

Ltac quiet_prim :=
  let w := fresh "w" in
  let id := fresh "identifier" in
  unfold preserves, no_new_decrement; intros w id;
  unfold Firestore.next_fault, CacheService.next_fault,
    JobQueueManager.next_fault, random_suffix, modify_st, modify, suspend,
    emit, set_st;
  cbn; repeat case_match; simplify_eq; cbn; reflexivity.

Variable cfg : SecurityConfig.

Lemma increment_beside_redis clientIp apiKey :
  preserves beside_redis (security_incrementConcurrentJobs clientIp apiKey).
Proof.
  unfold security_incrementConcurrentJobs, incrementConcurrentJobs.
  frame ltac:(first [open_ops | redis_prim]).
Qed.

Lemma decrement_beside_redis clientIp apiKey :
  preserves beside_redis (security_decrementConcurrentJobs clientIp apiKey).
Proof.
  unfold security_decrementConcurrentJobs, decrementConcurrentJobs.
  frame ltac:(first [open_ops | redis_prim]).
Qed.

Lemma increment_no_decrement clientIp apiKey :
  preserves no_new_decrement (security_incrementConcurrentJobs clientIp apiKey).
Proof.
  unfold security_incrementConcurrentJobs, incrementConcurrentJobs.
  frame ltac:(first [open_ops | quiet_prim]).
Qed.

Lemma decrement_no_other_decrement clientIp apiKey w :
  exists w',
    security_decrementConcurrentJobs clientIp apiKey w = (Ok tt, w') /\
    beside_redis w w' /\
    decrements_of (identifierOf clientIp apiKey) (w_trace w')
      = S (decrements_of (identifierOf clientIp apiKey) (w_trace w)).
Proof.
  destruct (decrement_outcome clientIp apiKey w) as (w' & Hrun & _).
  exists w'. split; [exact Hrun|]. split.
  - pose proof (decrement_beside_redis clientIp apiKey w) as H.
    unfold security_decrementConcurrentJobs in H. rewrite Hrun in H. exact H.
  - assert (H : preserves no_new_decrement
                  (try_catch
                     (cell <- CacheService.get (concurrentKey clientIp apiKey) ;;
                      if decide (countOf cell > 0) then
                        CacheService.set (concurrentKey clientIp apiKey)
                          (RNum (countOf cell - 1)) 3600 ;; ret tt
                      else ret tt)
                     (fun _ => ret tt))).
    { frame ltac:(first [open_ops | quiet_prim]). }
    unfold decrementConcurrentJobs in Hrun. unfold bind at 1 in Hrun.
    unfold emit at 1, modify at 1 in Hrun. cbv beta iota in Hrun.
    match type of Hrun with
    | context [try_catch _ _ ?w0] =>
        specialize (H w0 (identifierOf clientIp apiKey))
    end.
    rewrite Hrun in H. cbn in H. rewrite H.
    unfold decrements_of. cbn. rewrite decide_True by reflexivity. reflexivity.
Qed.

Section OneRequest.

Variables (query : string) (page limit : Z) (clientIp apiKey : option string).
Variable w : World.

Let who := identifierOf (orElse clientIp "unknown") apiKey.
Let job := submitted cfg query page limit clientIp apiKey w.

(** Up to the call of the broker. *)
Lemma queueSearchJob_prefix :
  exists w0 w1,
    random_suffix w = (Ok (nextBatchId w), w0) /\
    security_incrementConcurrentJobs (orElse clientIp "unknown") apiKey w0
      = (Ok tt, w1) /\
    beside_redis w w1 /\
    decrements_of who (w_trace w1) = decrements_of who (w_trace w).
Proof.
  destruct (increment_outcome (orElse clientIp "unknown") apiKey
              (random_suffix w).2) as (w1 & Hinc & _).
  exists (random_suffix w).2, w1.
  assert (Hrs : random_suffix w = (Ok (nextBatchId w), (random_suffix w).2)
                /\ beside_redis w (random_suffix w).2
                /\ w_trace (random_suffix w).2 = w_trace w).
  { unfold random_suffix, nextBatchId, beside_redis.
    destruct (w_rng w); cbn; repeat split; reflexivity. }
  destruct Hrs as (Hrs & Hb & Ht).
  split; [exact Hrs|]. split; [exact Hinc|]. split.
  - etransitivity; [exact Hb|].
    pose proof (increment_beside_redis (orElse clientIp "unknown") apiKey
                  (random_suffix w).2) as H.
    unfold security_incrementConcurrentJobs in H. rewrite Hinc in H. exact H.
  - pose proof (increment_no_decrement (orElse clientIp "unknown") apiKey
                  (random_suffix w).2 who) as H.
    unfold security_incrementConcurrentJobs in H. rewrite Hinc in H.
    cbn in H. rewrite H, Ht. reflexivity.
Qed.

Lemma queueSearchJob_broker_refuses :
  broker_refuses w ->
  exists w',
    queueSearchJob cfg query page limit clientIp apiKey w
      = (Throw "Queue command failed", w') /\
    queue_of w' = queue_of w /\ jobs_of w' = jobs_of w /\
    decrements_of who (w_trace w') = S (decrements_of who (w_trace w)).
Proof.
  intros [rest Hq].
  destruct queueSearchJob_prefix as (w0 & w1 & Hrs & Hinc & Hb & Hd).
  unfold queueSearchJob. unfold bind at 1. rewrite Hrs.
  unfold try_catch. unfold bind at 1. rewrite Hinc.
  unfold bind at 1, JobQueueManager.addJob, bind at 1, JobQueueManager.next_fault.
  destruct Hb as (_ & _ & _ & Hjobs & Hqueue & _ & _ & Hqf & _).
  rewrite Hqf, Hq. cbv beta iota. unfold throw at 1.
  set (w2 := mkWorld _ _ _ _ _ _ _ _ _ _).
  destruct (decrement_no_other_decrement (orElse clientIp "unknown") apiKey w2)
    as (w3 & Hdec & Hb3 & Hd3).
  unfold bind at 1. rewrite Hdec. exists w3. split; [reflexivity|].
  destruct Hb3 as (_ & _ & _ & Hjobs3 & Hqueue3 & _).
  unfold queue_of, jobs_of. rewrite Hjobs3, Hqueue3. cbn.
  split; [exact Hqueue|]. split; [exact Hjobs|].
  fold who in Hd3. rewrite Hd3. f_equal. exact Hd.
Qed.

(** From the call of the broker on, when it takes the job. *)
Lemma addJob_accepted w1 :
  w_queue_faults w1 = [] \/ (exists rest, w_queue_faults w1 = false :: rest) ->
  forall data, exists w2,
    JobQueueManager.addJob data w1 = (Ok (mkQueuedJob data 3 2000 true 0), w2) /\
    queue_of w2 = queue_of w1 ++ [mkQueuedJob data 3 2000 true 0] /\
    jobs_of w2 = jobs_of w1 /\
    w_fs_faults w2 = w_fs_faults w1 /\
    w_now w2 = w_now w1 /\
    w_trace w2 = w_trace w1.
Proof.
  intros Hq data. unfold JobQueueManager.addJob, bind at 1,
    JobQueueManager.next_fault.
  destruct Hq as [Hq|[rest Hq]]; rewrite Hq; cbv beta iota;
    eexists; (split; [reflexivity|]); repeat split; reflexivity.
Qed.

Lemma queueSearchJob_store_refuses :
  broker_accepts w -> store_refuses w ->
  exists e w',
    queueSearchJob cfg query page limit clientIp apiKey w = (Throw e, w') /\
    queue_of w' = queue_of w ++ [job] /\ jobs_of w' = jobs_of w /\
    decrements_of who (w_trace w') = S (decrements_of who (w_trace w)).
Proof.
  intros Hq [rest Hfs].
  destruct queueSearchJob_prefix as (w0 & w1 & Hrs & Hinc & Hb & Hd).
  unfold queueSearchJob. unfold bind at 1. rewrite Hrs.
  unfold try_catch at 1. unfold bind at 1. rewrite Hinc.
  destruct Hb as (_ & _ & _ & Hjobs & Hqueue & _ & Hff & Hqf & _).
  unfold broker_accepts in Hq. rewrite <- Hqf in Hq.
  destruct (addJob_accepted w1 Hq
              (mkJobData (nextBatchId w) query page limit clientIp apiKey
                 (calculatePriority cfg apiKey limit)))
    as (w2 & Hadd & Hq2 & Hj2 & Hf2 & _ & Ht2).
  unfold bind at 1. rewrite Hadd.
  unfold bind at 1, date_now at 1, gets. cbv beta iota. unfold bind at 1.
  match goal with
  | |- context [BatchRepository.updateJobStatus ?b ?s ?md w2] =>
      destruct (updateJobStatus_refused b s md w2) as (e & w3 & Hup & Hst3 & Ht3);
      [exists rest; congruence|rewrite Hup]
  end.
  destruct (decrement_no_other_decrement (orElse clientIp "unknown") apiKey w3)
    as (w4 & Hdec & Hb4 & Hd4).
  unfold bind at 1. rewrite Hdec. exists e, w4. split; [reflexivity|].
  destruct Hb4 as (_ & _ & _ & Hjobs4 & Hqueue4 & _).
  unfold queue_of, jobs_of in *. rewrite Hjobs4, Hqueue4, Hst3, Hq2, Hj2.
  split; [rewrite Hqueue; reflexivity|]. split; [exact Hjobs|].
  fold who in Hd4. rewrite Hd4, Ht3, Ht2. f_equal. exact Hd.
Qed.

Lemma queueSearchJob_accepted :
  broker_accepts w -> w_fs_faults w = [] ->
  Firestore.valid_doc_id (nextBatchId w) = true ->
  exists w' doc,
    queueSearchJob cfg query page limit clientIp apiKey w
      = (Ok (mkSearchResult true src_queued false query page limit 0 None
               (Some (nextBatchId w)) (Some queued) None), w') /\
    queue_of w' = queue_of w ++ [job] /\
    jobs_of w' !! nextBatchId w = Some doc /\
    doc !! "status" = Some (VStr "queued") /\
    doc !! "query" = Some (VStr query) /\
    doc !! "page" = Some (VNum page) /\
    doc !! "limit" = Some (VNum limit) /\
    decrements_of who (w_trace w') = decrements_of who (w_trace w).
Proof.
  intros Hq Hfs Hvalid.
  destruct queueSearchJob_prefix as (w0 & w1 & Hrs & Hinc & Hb & Hd).
  unfold queueSearchJob. unfold bind at 1. rewrite Hrs.
  unfold try_catch at 1. unfold bind at 1. rewrite Hinc.
  destruct Hb as (_ & _ & _ & Hjobs & Hqueue & _ & Hff & Hqf & _).
  unfold broker_accepts in Hq. rewrite <- Hqf in Hq.
  destruct (addJob_accepted w1 Hq
              (mkJobData (nextBatchId w) query page limit clientIp apiKey
                 (calculatePriority cfg apiKey limit)))
    as (w2 & Hadd & Hq2 & Hj2 & Hf2 & _ & Ht2).
  unfold bind at 1. rewrite Hadd.
  unfold bind at 1, date_now at 1, gets. cbv beta iota. unfold bind at 1.
  match goal with
  | |- context [BatchRepository.updateJobStatus ?b ?s ?md w2] =>
      destruct (updateJobStatus_document b s md w2 Hvalid)
        as (w3 & Hup & Hj3 & _ & _ & Hq3 & Ht3 & _);
      [congruence|rewrite Hup]
  end.
  eexists w3, _. split; [reflexivity|].
  split; [rewrite Hq3, Hq2; unfold queue_of; rewrite Hqueue; reflexivity|].
  split; [rewrite Hj3; apply lookup_insert_eq|].
  rewrite !job_field_lookup.
  split; [reflexivity|]. split; [reflexivity|]. split; [reflexivity|].
  split; [reflexivity|].
  rewrite Ht3. unfold decrements_of at 1. cbn.
  rewrite decide_False by discriminate. fold (decrements_of who (w_trace w2)).
  rewrite Ht2. exact Hd.
Qed.

End OneRequest.

(** X25. What [queueSearchJob] leaves behind.  If the broker refuses the
    job, the error is rethrown, nothing is queued or recorded and the
    counter of concurrent jobs is decremented again.  If the broker takes
    the job and the store then refuses the first status, the request
    fails in the same way and the counter is decremented, but the job
    stays in the queue, without a job document.  If both accept, the
    answer names the batch, the job is in the queue and its document reads
    [queued] with the query, page and limit of the request. *)
Theorem queueSearchJob_outcomes (query : string) (page limit : Z)
    (clientIp apiKey : option string) (w : World) :
  let who := identifierOf (orElse clientIp "unknown") apiKey in
  let job := submitted cfg query page limit clientIp apiKey w in
  exists r w',
    queueSearchJob cfg query page limit clientIp apiKey w = (r, w') /\
    (broker_refuses w ->
     r = Throw "Queue command failed" /\
     queue_of w' = queue_of w /\ jobs_of w' = jobs_of w /\
     decrements_of who (w_trace w') = S (decrements_of who (w_trace w))) /\
    (broker_accepts w -> store_refuses w ->
     (exists e, r = Throw e) /\
     queue_of w' = queue_of w ++ [job] /\ jobs_of w' = jobs_of w /\
     decrements_of who (w_trace w') = S (decrements_of who (w_trace w))) /\
    (broker_accepts w -> w_fs_faults w = [] ->
     Firestore.valid_doc_id (nextBatchId w) = true ->
     r = Ok (mkSearchResult true src_queued false query page limit 0 None
               (Some (nextBatchId w)) (Some queued) None) /\
     queue_of w' = queue_of w ++ [job] /\
     (exists doc,
         jobs_of w' !! nextBatchId w = Some doc /\
         doc !! "status" = Some (VStr "queued") /\
         doc !! "query" = Some (VStr query) /\
         doc !! "page" = Some (VNum page) /\
         doc !! "limit" = Some (VNum limit)) /\
     decrements_of who (w_trace w') = decrements_of who (w_trace w)).
Proof.
  intros who job.
  destruct (queueSearchJob cfg query page limit clientIp apiKey w) as [r w'] eqn:Hrun.
  exists r, w'. split; [reflexivity|]. split; [|split].
  - intros Hq.
    destruct (queueSearchJob_broker_refuses query page limit clientIp apiKey w Hq)
      as (w1 & Hrun1 & H1 & H2 & H3).
    rewrite Hrun in Hrun1. injection Hrun1 as -> ->. auto.
  - intros Hq Hfs.
    destruct (queueSearchJob_store_refuses query page limit clientIp apiKey w Hq Hfs)
      as (e & w1 & Hrun1 & H1 & H2 & H3).
    rewrite Hrun in Hrun1. injection Hrun1 as -> ->. eauto.
  - intros Hq Hfs Hvalid.
    destruct (queueSearchJob_accepted query page limit clientIp apiKey w Hq Hfs Hvalid)
      as (w1 & doc & Hrun1 & H1 & H2 & H3 & H4 & H5 & H6 & H7).
    rewrite Hrun in Hrun1. injection Hrun1 as -> ->.
    split; [reflexivity|]. split; [exact H1|]. split; [|exact H7].
    exists doc. auto.
Qed.

End QueueSearchJob.

Section CompletedJob.

Import SearchController BatchRepository.

Lemma savePage_healthy q p l vs d w :
  w_fs_faults w = [] ->
  forallb Firestore.valid_doc_id [normalize q; cacheKeyOf p l] = true ->
  exists w',
    savePage q p l vs d w = (Ok true, w') /\
    pages_of w' =
      <[(normalize q, cacheKeyOf p l) :=
          mkPageDocument
            (mkPageMetadata p l (Z.of_nat (length vs)) (normalize q)
               (w_now w) (w_now w + PAGE_TTL_MS) "copart" d)
            (indexed vs)]> (pages_of w) /\
    jobs_of w' = jobs_of w /\
    w_now w' = w_now w /\
    w_fs_faults w' = [] /\
    w_trace w' = w_trace w.
Proof.
  intros Hfs Hvalid.
  assert (Hq : Firestore.valid_doc_id (normalize q) = true).
  { cbn in Hvalid. apply andb_prop in Hvalid as [Hq _]. exact Hq. }
  unfold savePage, try_catch.
  unfold bind at 1, date_now at 1, gets. cbv beta iota.
  unfold bind at 1. rewrite command_healthy by assumption.
  unfold modify_st, modify. cbv beta iota.
  set (w1 := set_st _ w).
  assert (Hfs1 : w_fs_faults w1 = []) by exact Hfs.
  unfold bind at 1.
  rewrite (updateSearchMetadata_healthy _ _ _ _ w1 Hfs1 Hq (normalize_idem q)).
  eexists. split; [reflexivity|].
  destruct (isNumeric (normalize q)); cbn; repeat split; assumption.
Qed.

Lemma worker_updateJobStatus_document batchId status metadata w :
  Firestore.valid_doc_id batchId = true ->
  w_fs_faults w = [] ->
  exists w',
    ScraptPressWorker.updateJobStatus batchId status metadata w = (Ok tt, w') /\
    jobs_of w' = <[batchId :=
                     (metadata ∪ <["status" := VStr (status_name status)]>
                                   (<["updatedAt" := VNum (w_now w)]> ∅))
                     ∪ default ∅ (jobs_of w !! batchId)]> (jobs_of w) /\
    pages_of w' = pages_of w /\
    w_fs_faults w' = [] /\ w_scrapes w' = w_scrapes w /\ w_now w' = w_now w /\
    w_env w' = w_env w.
Proof.
  intros Hvalid Hfs.
  destruct (updateJobStatus_document batchId status metadata w Hvalid Hfs)
    as (w' & Hrun & Hj & Hp & _ & _ & _ & Hfs' & _ & Hsc & Hnow & _ & _ & Henv).
  exists w'. split; [|repeat split; assumption].
  unfold ScraptPressWorker.updateJobStatus. apply try_catch_ok. exact Hrun.
Qed.

Lemma scrape_returns q p l w o rest vehicles :
  w_scrapes w = o :: rest ->
  so_result o = inr vehicles ->
  exists w',
    Platform.scrape q p l w = (Ok vehicles, w') /\
    w_st w' = w_env w (w_tick w) (w_st w) /\
    w_now w' = w_now w + Z.max 0 (so_duration o) /\
    w_fs_faults w' = w_fs_faults w.
Proof.
  intros Hsc Hres. unfold Platform.scrape, suspend. mrun. rewrite Hsc. cbn.
  rewrite Hres. eexists. split; [reflexivity|]. repeat split; reflexivity.
Qed.

Lemma workerFields_lookup (field : string) (md old : gmap string Value)
    (status : string) (now : Z) :
  field ∉ workerFields ->
  (forall f, is_Some (md !! f) -> f ∈ workerFields) ->
  ((md ∪ <["status" := VStr status]> (<["updatedAt" := VNum now]> ∅)) ∪ old) !! field
  = old !! field.
Proof.
  intros Hnot Hmd. rewrite job_field_lookup.
  destruct (md !! field) as [v|] eqn:Hf.
  - exfalso. apply Hnot, Hmd. eauto.
  - destruct (decide (field = "status")) as [->|_];
      [exfalso; apply Hnot; unfold workerFields; set_solver|].
    destruct (decide (field = "updatedAt")) as [->|_];
      [exfalso; apply Hnot; unfold workerFields; set_solver|].
    reflexivity.
Qed.

Section OneJob.

Variables (job : BullJob) (w : World).

Let batchId := jd_batchId (job_data job).
Let query := jd_query (job_data job).
Let page := jd_page (job_data job).
Let limit := jd_limit (job_data job).

Hypothesis Hhealthy : w_fs_faults w = [].
Hypothesis Hbatch : Firestore.valid_doc_id batchId = true.
Hypothesis Hkey :
  forallb Firestore.valid_doc_id [normalize query; cacheKeyOf page limit] = true.
Hypothesis Henv : env_keeps_job w batchId.

Variables (o : ScrapeOutcome) (rest : list ScrapeOutcome) (vehicles : list Vehicle).

Hypothesis Hscrapes : w_scrapes w = o :: rest.
Hypothesis Hfound : so_result o = inr vehicles.
Hypothesis Hsome : vehicles <> [].

(** The run of the worker that finds vehicles. *)
Lemma processScrapeJob_completes :
  exists w1 doc1 pageDoc,
    ScraptPressWorker.processScrapeJob job w = (Ok tt, w1) /\
    w_fs_faults w1 = [] /\
    jobs_of w1 !! batchId = Some doc1 /\
    doc1 !! "status" = Some (VStr "completed") /\
    doc1 !! "vehiclesFound" = Some (VNum (Z.of_nat (length vehicles))) /\
    (forall field, field ∉ workerFields ->
                   doc1 !! field = jobs_of w !! batchId ≫= (fun doc => doc !! field)) /\
    pages_of w1 !! (normalize query, cacheKeyOf page limit) = Some pageDoc /\
    pd_vehicles pageDoc = indexed vehicles /\
    w_now w1 <= pm_expiresAt (pd_metadata pageDoc).
Proof.
  unfold ScraptPressWorker.processScrapeJob.
  fold batchId. fold query. fold page. fold limit.
  unfold try_catch at 1.
  unfold bind at 1, date_now at 1, gets at 1. cbv beta iota.
  destruct (worker_updateJobStatus_document batchId processing
              (<["workerId" := VStr ScraptPressWorker.WORKER_ID]>
                 (<["startedAt" := VNum (w_now w)]> ∅)) w Hbatch Hhealthy)
    as (wa & Hupa & Hja & Hpa & Hfsa & Hsca & Hnowa & Henva).
  unfold bind at 1. rewrite Hupa.
  unfold bind at 1, date_now at 1, gets at 1. cbv beta iota.
  destruct (scrape_returns query page limit wa o rest vehicles)
    as (wb & Hscr & Hstb & Hnowb & Hfsb); [congruence|exact Hfound|].
  unfold bind at 1. rewrite Hscr.
  unfold bind at 1, date_now at 1, gets at 1. cbv beta iota.
  assert (Hlen : (0 <? length vehicles)%nat = true).
  { destruct vehicles; [contradiction|reflexivity]. }
  rewrite Hlen.
  destruct (savePage_healthy query page limit vehicles
              (ScraptPressWorker.roundSeconds (w_now wb - w_now wa)) wb)
    as (wc & Hsave & Hpc & Hjc & Hnowc & Hfsc & _); [congruence|exact Hkey|].
  unfold bind at 1. unfold bind at 1. rewrite Hsave.
  unfold ret at 1.
  unfold bind at 1, date_now at 1, gets at 1. cbv beta iota.
  destruct (worker_updateJobStatus_document batchId completed
              (<["vehiclesFound" := VNum (Z.of_nat (length vehicles))]>
                 (<["scrapeDurationSeconds" :=
                      VNum (ScraptPressWorker.roundSeconds (w_now wb - w_now wa))]>
                    (<["completedAt" := VNum (w_now wc)]> ∅))) wc Hbatch Hfsc)
    as (wd & Hupd & Hjd & Hpd & Hfsd & _ & Hnowd & _).
  rewrite Hupd.
  assert (Hjb : jobs_of wb !! batchId = jobs_of wa !! batchId).
  { unfold jobs_of. rewrite Hstb, Henva. apply Henv. }
  eexists wd, _, _. split; [reflexivity|]. split; [exact Hfsd|].
  split; [rewrite Hjd; apply lookup_insert_eq|].
  split; [rewrite job_field_lookup; reflexivity|].
  split; [rewrite job_field_lookup; reflexivity|].
  split; [|split; [rewrite Hpd, Hpc; apply lookup_insert_eq|split; [reflexivity|]]].
  - intros field Hnot.
    rewrite workerFields_lookup; [|exact Hnot|].
    + rewrite Hjc, Hjb, Hja, lookup_insert_eq. cbn.
      rewrite workerFields_lookup; [|exact Hnot|].
      * destruct (jobs_of w !! batchId); [reflexivity|]. cbn. apply lookup_empty.
      * intros f [v Hf]. unfold workerFields.
        destruct (decide (f = "workerId")) as [->|?]; [set_solver|].
        destruct (decide (f = "startedAt")) as [->|?]; [set_solver|].
        rewrite !lookup_insert_ne, lookup_empty in Hf by congruence. discriminate.
    + intros f [v Hf]. unfold workerFields.
      destruct (decide (f = "vehiclesFound")) as [->|?]; [set_solver|].
      destruct (decide (f = "scrapeDurationSeconds")) as [->|?]; [set_solver|].
      destruct (decide (f = "completedAt")) as [->|?]; [set_solver|].
      rewrite !lookup_insert_ne, lookup_empty in Hf by congruence. discriminate.
  - cbn. rewrite Hnowd, Hnowc. unfold PAGE_TTL_MS. lia.
Qed.

End OneJob.

(** The answer for a completed job whose page is stored and fresh. *)
Lemma getJobStatus_completed batchId (q : string) (p l : Z) w doc pageDoc :
  w_fs_faults w = [] ->
  Firestore.valid_doc_id batchId = true ->
  forallb Firestore.valid_doc_id [normalize q; cacheKeyOf p l] = true ->
  jobs_of w !! batchId = Some doc ->
  doc !! "status" = Some (VStr "completed") ->
  doc !! "query" = Some (VStr q) ->
  doc !! "page" = Some (VNum p) ->
  doc !! "limit" = Some (VNum l) ->
  pages_of w !! (normalize q, cacheKeyOf p l) = Some pageDoc ->
  w_now w <= pm_expiresAt (pd_metadata pageDoc) ->
  pd_vehicles pageDoc <> [] ->
  exists resp w',
    SearchController.getJobStatus batchId w = (Ok resp, w') /\
    jr_vehicles resp = Some (pd_vehicles pageDoc) /\
    jr_fields resp !! "status" = Some (VStr "completed") /\
    jr_fields resp !! "query" = Some (VStr q) /\
    jr_fields resp !! "cached" = Some (VBool true) /\
    jr_fields resp !! "returned"
      = Some (VNum (Z.of_nat (length (pd_vehicles pageDoc)))) /\
    jr_fields resp !! "vehiclesFound"
      = Some (VNum (Z.of_nat (length (pd_vehicles pageDoc)))).
Proof.
  intros Hfs Hbatch Hkey Hdoc Hstatus Hquery Hpage Hlimit Hstored Hfresh Hsome.
  assert (Hq : q <> EmptyString).
  { intros ->. cbn in Hkey. discriminate. }
  unfold SearchController.getJobStatus, try_catch.
  unfold bind at 1. rewrite getJobStatus_healthy by assumption. rewrite Hdoc.
  rewrite decide_True by exact Hstatus.
  rewrite Hquery, Hpage, Hlimit.
  assert (Hor : SearchController.orV (Some (VStr q)) (VStr EmptyString) = VStr q).
  { unfold SearchController.orV, SearchController.truthyV.
    rewrite bool_decide_eq_false_2 by exact Hq. reflexivity. }
  rewrite !Hor. cbn [SearchController.getPageOfJob].
  unfold bind at 1. rewrite getPage_healthy by exact Hfs.
  rewrite Hkey, Hstored.
  destruct (decide (pm_expiresAt (pd_metadata pageDoc) < w_now w)) as [Hexp|_];
    [lia|].
  change (default [] (Some (pd_vehicles pageDoc))) with (pd_vehicles pageDoc).
  assert (Hne : SearchController.nonEmpty (pd_vehicles pageDoc) = true).
  { unfold SearchController.nonEmpty.
    destruct (pd_vehicles pageDoc); [contradiction|reflexivity]. }
  rewrite Hne.
  match goal with
  | |- context [CacheService.set ?key ?v ?ttl] =>
      destruct (set_outcome key v ttl w) as (b & w' & Hset & _)
  end.
  unfold bind at 1. unfold bind at 1. rewrite Hset. unfold ret at 1.
  eexists _, w'. split; [reflexivity|]. cbn [jr_vehicles jr_fields].
  split; [reflexivity|].
  split.
  { rewrite lookup_delete_ne by discriminate.
    apply lookup_union_Some_l. rewrite lookup_union_r; [exact Hstatus|].
    reflexivity. }
  split.
  { rewrite lookup_delete_ne by discriminate.
    apply lookup_union_Some_l. rewrite lookup_union_r; [exact Hquery|].
    reflexivity. }
  repeat split; rewrite lookup_delete_ne by discriminate;
    apply lookup_union_Some_l, lookup_union_Some_l; reflexivity.
Qed.

(** X26. The result of a completed job is served.  On a healthy store,
    for a job whose document carries the query, page and limit it was
    queued with and is left alone while the fetcher runs: when the fetcher
    returns vehicles, [processScrapeJob] returns, and a status request
    that follows answers [completed] with exactly these vehicles, each
    with its index in the page, and counts them in [returned] and
    [vehiclesFound]. *)
Theorem completed_job_is_served (job : BullJob) (w : World)
    (o : ScrapeOutcome) (rest : list ScrapeOutcome) (vehicles : list Vehicle) :
  let batchId := jd_batchId (job_data job) in
  let query := jd_query (job_data job) in
  let page := jd_page (job_data job) in
  let limit := jd_limit (job_data job) in
  w_fs_faults w = [] ->
  Firestore.valid_doc_id batchId = true ->
  forallb Firestore.valid_doc_id [normalize query; cacheKeyOf page limit] = true ->
  env_keeps_job w batchId ->
  (exists doc,
      jobs_of w !! batchId = Some doc /\
      doc !! "query" = Some (VStr query) /\
      doc !! "page" = Some (VNum page) /\
      doc !! "limit" = Some (VNum limit)) ->
  w_scrapes w = o :: rest ->
  so_result o = inr vehicles ->
  vehicles <> [] ->
  exists w1 resp w2,
    ScraptPressWorker.processScrapeJob job w = (Ok tt, w1) /\
    SearchController.getJobStatus batchId w1 = (Ok resp, w2) /\
    jr_vehicles resp = Some (indexed vehicles) /\
    jr_fields resp !! "status" = Some (VStr "completed") /\
    jr_fields resp !! "query" = Some (VStr query) /\
    jr_fields resp !! "cached" = Some (VBool true) /\
    jr_fields resp !! "returned" = Some (VNum (Z.of_nat (length vehicles))) /\
    jr_fields resp !! "vehiclesFound" = Some (VNum (Z.of_nat (length vehicles))).
Proof.
  intros batchId query page limit Hfs Hbatch Hkey Henv
    (doc & Hdoc & Hquery & Hpage & Hlimit) Hscrapes Hfound Hsome.
  destruct (processScrapeJob_completes job w Hfs Hbatch Hkey Henv o rest vehicles
              Hscrapes Hfound Hsome)
    as (w1 & doc1 & pageDoc & Hrun & Hfs1 & Hdoc1 & Hstatus & _ & Hkept
        & Hstored & Hvehicles & Hfresh).
  fold batchId in Hdoc1, Hkept. fold query page limit in Hstored.
  assert (Hnot : forall field, field ∈ ["query"; "page"; "limit"] ->
                               field ∉ workerFields).
  { intros field Hin Hw. unfold workerFields in Hw.
    repeat (apply elem_of_cons in Hin as [->|Hin];
            [repeat (apply elem_of_cons in Hw as [Hw|Hw]; [discriminate|]);
             inversion Hw|]).
    inversion Hin. }
  assert (Hlen : length (indexed vehicles) = length vehicles).
  { unfold indexed. apply length_imap. }
  assert (Hsome1 : pd_vehicles pageDoc <> []).
  { rewrite Hvehicles. intros Hnil. apply Hsome.
    apply length_zero_iff_nil. rewrite <- Hlen, Hnil. reflexivity. }
  destruct (getJobStatus_completed batchId query page limit w1 doc1 pageDoc
              Hfs1 Hbatch Hkey Hdoc1 Hstatus)
    as (resp & w2 & Hget & Hv & Hs & Hq & Hc & Hr & Hf);
    try assumption.
  - rewrite Hkept, Hdoc by (apply Hnot; set_solver). exact Hquery.
  - rewrite Hkept, Hdoc by (apply Hnot; set_solver). exact Hpage.
  - rewrite Hkept, Hdoc by (apply Hnot; set_solver). exact Hlimit.
  - exists w1, resp, w2. rewrite Hvehicles, Hlen in *. repeat split; assumption.
Qed.

(** X27. A search that finds nothing.  When the fetcher returns no
    vehicle, the synchronous path throws "No vehicles found", while the
    worker ends the job as [completed] with [vehiclesFound] zero; neither
    stores a page. *)
Theorem empty_result_sync_throws_async_completes (job : BullJob) (w : World)
    (o : ScrapeOutcome) (rest : list ScrapeOutcome) :
  let batchId := jd_batchId (job_data job) in
  let query := jd_query (job_data job) in
  let page := jd_page (job_data job) in
  let limit := jd_limit (job_data job) in
  w_fs_faults w = [] ->
  Firestore.valid_doc_id batchId = true ->
  (forall n s, w_env w n s = s) ->
  w_scrapes w = o :: rest ->
  so_result o = inr [] ->
  (exists w',
      performScraping query page limit w = (Throw "No vehicles found", w') /\
      pages_of w' = pages_of w) /\
  (exists w1 doc1,
      ScraptPressWorker.processScrapeJob job w = (Ok tt, w1) /\
      jobs_of w1 !! batchId = Some doc1 /\
      doc1 !! "status" = Some (VStr "completed") /\
      doc1 !! "vehiclesFound" = Some (VNum 0) /\
      pages_of w1 = pages_of w).
Proof.
  intros batchId query page limit Hfs Hbatch Hquiet Hscrapes Hfound. split.
  - unfold performScraping.
    unfold bind at 1, date_now at 1, gets at 1. cbv beta iota.
    destruct (scrape_returns query page limit w o rest [] Hscrapes Hfound)
      as (wb & Hscr & Hstb & _).
    unfold bind at 1. rewrite Hscr.
    unfold bind at 1, date_now at 1, gets at 1. cbv beta iota.
    cbn [nonEmpty length Nat.ltb Nat.leb].
    eexists. split; [reflexivity|]. unfold pages_of. rewrite Hstb, Hquiet.
    reflexivity.
  - unfold ScraptPressWorker.processScrapeJob.
    fold batchId. fold query. fold page. fold limit.
    unfold try_catch at 1.
    unfold bind at 1, date_now at 1, gets at 1. cbv beta iota.
    destruct (worker_updateJobStatus_document batchId processing
                (<["workerId" := VStr ScraptPressWorker.WORKER_ID]>
                   (<["startedAt" := VNum (w_now w)]> ∅)) w Hbatch Hfs)
      as (wa & Hupa & Hja & Hpa & Hfsa & Hsca & Hnowa & Henva).
    unfold bind at 1. rewrite Hupa.
    unfold bind at 1, date_now at 1, gets at 1. cbv beta iota.
    destruct (scrape_returns query page limit wa o rest [])
      as (wb & Hscr & Hstb & Hnowb & Hfsb); [congruence|exact Hfound|].
    unfold bind at 1. rewrite Hscr.
    unfold bind at 1, date_now at 1, gets at 1. cbv beta iota.
    cbn [length Nat.ltb Nat.leb].
    unfold bind at 1. unfold ret at 1.
    unfold bind at 1, date_now at 1, gets at 1. cbv beta iota.
    match goal with
    | |- context [ScraptPressWorker.updateJobStatus batchId completed ?md wb] =>
        destruct (worker_updateJobStatus_document batchId completed md wb Hbatch)
          as (wd & Hupd & Hjd & Hpd & _); [congruence|rewrite Hupd]
    end.
    eexists wd, _. split; [reflexivity|].
    split; [rewrite Hjd; apply lookup_insert_eq|].
    split; [rewrite job_field_lookup; reflexivity|].
    split; [rewrite job_field_lookup; reflexivity|].
    rewrite Hpd. unfold pages_of in *. rewrite Hstb, Henva, Hquiet. exact Hpa.
Qed.

End CompletedJob.

Section AsyncWitnesses.

Import JobQueueSecurityService SearchController.

Lemma updateJobStatus_merges_fields_witness :
  Firestore.valid_doc_id "b-1" = true /\
  w_fs_faults attic_world = [] /\
  exists w1 w2 doc,
    BatchRepository.updateJobStatus "b-1" failed
      (<["error" := VStr "blocked"]> ∅) attic_world = (Ok tt, w1) /\
    BatchRepository.updateJobStatus "b-1" completed
      (<["vehiclesFound" := VNum 3]> ∅) w1 = (Ok tt, w2) /\
    BatchRepository.getJobStatus "b-1" w2 = (Ok (Some doc), w2) /\
    doc !! "status" = Some (VStr "completed") /\
    doc !! "vehiclesFound" = Some (VNum 3) /\
    doc !! "error" = Some (VStr "blocked").
Proof.
  split; [reflexivity|]. split; [reflexivity|].
  destruct (updateJobStatus_merges_fields "b-1" failed
              (<["error" := VStr "blocked"]> ∅) attic_world eq_refl eq_refl)
    as (w1 & doc1 & Hrun1 & Hget1 & Hdoc1 & _).
  assert (Hfs1 : w_fs_faults w1 = []).
  { assert (H : w_fs_faults
                  (BatchRepository.updateJobStatus "b-1" failed
                     (<["error" := VStr "blocked"]> ∅) attic_world).2 = [])
      by reflexivity.
    rewrite Hrun1 in H. exact H. }
  assert (Hjob1 : jobs_of w1 !! "b-1" = Some doc1).
  { rewrite getJobStatus_healthy in Hget1 by (reflexivity || exact Hfs1).
    injection Hget1 as Hget1. exact Hget1. }
  destruct (updateJobStatus_merges_fields "b-1" completed
              (<["vehiclesFound" := VNum 3]> ∅) w1 eq_refl Hfs1)
    as (w2 & doc2 & Hrun2 & Hget2 & Hdoc2 & _).
  exists w1, w2, doc2. split; [exact Hrun1|]. split; [exact Hrun2|].
  split; [exact Hget2|].
  split; [rewrite Hdoc2; reflexivity|]. split; [rewrite Hdoc2; reflexivity|].
  transitivity (jobs_of w1 !! "b-1" ≫= (fun old : gmap string Value => old !! "error"));
    [rewrite Hdoc2; reflexivity|].
  rewrite Hjob1. transitivity (doc1 !! "error"); [reflexivity|].
  rewrite Hdoc1. reflexivity.
Defined.

Lemma queueSearchJob_outcomes_witness :
  broker_accepts orphan_world /\ store_refuses orphan_world /\
  exists e w',
    queueSearchJob defaultConfig "honda" 1 10 None None orphan_world = (Throw e, w') /\
    queue_of w' = [submitted defaultConfig "honda" 1 10 None None orphan_world] /\
    jobs_of w' = ∅ /\
    decrements_of "unknown" (w_trace w') = 1%nat.
Proof.
  assert (Ha : broker_accepts orphan_world) by (left; reflexivity).
  assert (Hs : store_refuses orphan_world) by (exists []; reflexivity).
  split; [exact Ha|]. split; [exact Hs|].
  destruct (queueSearchJob_outcomes defaultConfig "honda" 1 10 None None orphan_world)
    as (r & w' & Hrun & _ & Hrefused & _).
  destruct (Hrefused Ha Hs) as ([e ->] & Hqueue & Hjobs & Hdec).
  exists e, w'. split; [exact Hrun|]. split; [exact Hqueue|].
  split; [exact Hjobs|exact Hdec].
Defined.

Lemma completed_job_is_served_witness :
  let w := (queueSearchJob defaultConfig "honda" 1 10 (Some client) None
              submit_world).2 in
  let job := delivered (submitted defaultConfig "honda" 1 10 (Some client) None
                          submit_world) in
  exists w1 resp w2,
    ScraptPressWorker.processScrapeJob job w = (Ok tt, w1) /\
    SearchController.getJobStatus "b-1" w1 = (Ok resp, w2) /\
    jr_vehicles resp
      = Some [<["pageIndex" := VNum 0]> (<["lot_number" := VStr "1"]> ∅)] /\
    jr_fields resp !! "status" = Some (VStr "completed") /\
    jr_fields resp !! "returned" = Some (VNum 1).
Proof.
  intros w job.
  assert (Hdoc : exists doc,
             jobs_of w !! "b-1" = Some doc /\
             doc !! "query" = Some (VStr "honda") /\
             doc !! "page" = Some (VNum 1) /\
             doc !! "limit" = Some (VNum 10)).
  { eexists. split; [vm_compute; reflexivity|]. repeat split; reflexivity. }
  destruct (completed_job_is_served job w
              (mkScrape 120000 (inr [<["lot_number" := VStr "1"]> ∅]))
              [mkScrape 120000 (inr [<["lot_number" := VStr "2"]> ∅]);
               mkScrape 120000 (inr [<["lot_number" := VStr "3"]> ∅])]
              [<["lot_number" := VStr "1"]> ∅]
              eq_refl eq_refl eq_refl (fun _ _ => eq_refl) Hdoc eq_refl eq_refl
              ltac:(discriminate))
    as (w1 & resp & w2 & Hrun & Hget & Hv & Hs & _ & _ & Hr & _).
  exists w1, resp, w2. split; [exact Hrun|]. split; [exact Hget|].
  split; [exact Hv|]. split; [exact Hs|exact Hr].
Defined.

Lemma empty_result_sync_throws_async_completes_witness :
  let w := mkWorld emptyStores 1000 [] (fun _ s => s) 0 [] [] []
             [mkScrape 3000 (inr [])] [] in
  (performScraping "honda" 1 10 w).1 = Throw "No vehicles found" /\
  exists w1 doc1,
    ScraptPressWorker.processScrapeJob (sample_job 0) w = (Ok tt, w1) /\
    jobs_of w1 !! "b-1" = Some doc1 /\
    doc1 !! "status" = Some (VStr "completed") /\
    doc1 !! "vehiclesFound" = Some (VNum 0) /\
    pages_of w1 = ∅.
Proof.
  intros w.
  destruct (empty_result_sync_throws_async_completes (sample_job 0) w
              (mkScrape 3000 (inr [])) [] eq_refl eq_refl
              (fun _ _ => eq_refl) eq_refl eq_refl)
    as [(w' & Hsync & _) (w1 & doc1 & Hrun & Hdoc & Hstatus & Hfound & Hpages)].
  split; [exact (f_equal fst Hsync)|].
  exists w1, doc1. repeat split; assumption.
Defined.

End AsyncWitnesses.

(* ===================================================================== *)
(** * Further properties of the synchronous path *)
(* ===================================================================== *)

Section SyncScrape.

Import ScrapingLockService SearchController.

#[local] Instance keeps_locks_po : PreOrder keeps_locks.
Proof.
  split.
  - intros w. split; [reflexivity|]. intros _. reflexivity.
  - intros a b c [Hab1 Hab2] [Hbc1 Hbc2]. split; [congruence|].
    intros Henv. rewrite Hbc2; [apply Hab2; exact Henv|].
    unfold env_keeps_locks in *. rewrite Hab1. exact Henv.
Qed.








End SyncScrape.

Section SyncScrapeWitnesses.

Import ScrapingLockService SearchController.
Import JobQueueSecurityService.


End SyncScrapeWitnesses.
